(** * A shallow embedding of the intrusive red-black tree of [rbtree.h]

    The C code works on caller-owned nodes linked by raw pointers.  Memory is
    modelled as a finite map from addresses to node records, pointers as
    integers with [NULL = 0], and every function of the header as a function
    on that memory.  A dereference of [NULL] or of an address that holds no
    node is a [Fault]; recursion and loops take a fuel argument and report
    [Timeout] when it runs out. *)

From stdpp Require Import gmap list.
From Stdlib Require Import ZArith Lia.

Local Open Scope Z_scope.
#[local] Set Warnings "-clear-no-such-hyp".

(** ** Results of running C code *)

Inductive result (A : Type) : Type :=
| Ok (a : A)
| Fault
| Timeout.
Arguments Ok {A} a.
Arguments Fault {A}.
Arguments Timeout {A}.

#[global] Instance result_ret : MRet result := fun _ a => Ok a.
#[global] Instance result_bind : MBind result := fun _ _ f r =>
  match r with
  | Ok a => f a
  | Fault => Fault
  | Timeout => Timeout
  end.

(** ** Data model *)

Abbreviation ptr := Z.
Definition NULL : ptr := 0.

Inductive NodeColor_t : Set :=
| NODE_COLOR_NONE
| NODE_COLOR_BLACK
| NODE_COLOR_RED
| NODE_COLOR_DOUBLE_BLACK
| NODE_COLOR_MAX.

#[global] Instance NodeColor_eq_dec : EqDecision NodeColor_t.
Proof. solve_decision. Defined.

(** [struct rbnode]; the fields keep their C names inside the module. *)
Module rbnode.
Record t : Set := mk {
  color : NodeColor_t;
  left : ptr;
  right : ptr;
  parent : ptr;
  key : ptr
}.
Definition set_color (c : NodeColor_t) (n : t) : t :=
  mk c (left n) (right n) (parent n) (key n).
Definition set_left (p : ptr) (n : t) : t :=
  mk (color n) p (right n) (parent n) (key n).
Definition set_right (p : ptr) (n : t) : t :=
  mk (color n) (left n) p (parent n) (key n).
Definition set_parent (p : ptr) (n : t) : t :=
  mk (color n) (left n) (right n) p (key n).
End rbnode.

(** [compareFunc]: the comparator reads caller memory that the tree never
    writes, so it is a function of the two key pointers. *)
Definition compareFunc := ptr → ptr → Z.

(** [struct rbtree]. *)
Module rbtree.
Record t : Type := mk {
  root : ptr;
  comparer : compareFunc;
  rb_offset : Z;
  size : Z
}.
End rbtree.

Abbreviation heap := (gmap Z rbnode.t).

(** The program state: the tree struct and the memory holding the nodes. *)
Record state : Type := mkState {
  tree : rbtree.t;
  mem : gmap Z rbnode.t
}.

(** ** Memory access *)

Definition load (h : gmap Z rbnode.t) (p : ptr) : result rbnode.t :=
  if decide (p = NULL) then Fault
  else match h !! p with
       | Some n => Ok n
       | None => Fault
       end.

(** [p->f], read. *)
Definition rd {A} (f : rbnode.t → A) (h : gmap Z rbnode.t) (p : ptr) : result A :=
  n ← load h p; mret (f n).

(** [p->f = v], with [upd] the field update. *)
Definition wr (upd : rbnode.t → rbnode.t) (h : gmap Z rbnode.t) (p : ptr)
  : result (gmap Z rbnode.t) :=
  n ← load h p; mret (<[p := upd n]> h).

(** The two child fields, selected by the [dir]/[revdir] macro arguments. *)
Inductive Dir : Set := left | right.

Definition revdir (d : Dir) : Dir :=
  match d with left => right | right => left end.

Definition child (d : Dir) (n : rbnode.t) : ptr :=
  match d with left => rbnode.left n | right => rbnode.right n end.

Definition set_child (d : Dir) (p : ptr) (n : rbnode.t) : rbnode.t :=
  match d with left => rbnode.set_left p n | right => rbnode.set_right p n end.

(** ** Initialisation macros *)

Definition INIT_RBTREE (t : rbtree.t) (cmp : compareFunc) : rbtree.t :=
  rbtree.mk NULL cmp (rbtree.rb_offset t) 0.

Definition INIT_RBNODE (h : gmap Z rbnode.t) (p : ptr) (k : ptr) : gmap Z rbnode.t :=
  <[p := rbnode.mk NODE_COLOR_RED NULL NULL NULL k]> h.

Definition INIT_RBTREE_TYPE (t : rbtree.t) (cmp : compareFunc) (offset_of : Z)
  : rbtree.t :=
  rbtree.mk NULL cmp offset_of 0.

(** [INIT_RBNODE_TYPE] and [INSERT_RBNODE_TYPE]: [elem] is the address of
    the enclosing record, the offsets are those of its node and key members
    ([&elem->member] is [elem + offset]). *)
Definition INIT_RBNODE_TYPE (h : gmap Z rbnode.t) (elem : ptr)
    (off_rbnode off_key : Z) : gmap Z rbnode.t :=
  INIT_RBNODE h (elem + off_rbnode) (elem + off_key).

(** ** ROTATE_TREE *)

Definition ROTATE_TREE (d : Dir) (h : gmap Z rbnode.t) (node : ptr) (root : ptr)
  : result (gmap Z rbnode.t * ptr) :=
  (* pivot = node->revdir *)
  pivot ← rd (child (revdir d)) h node;
  (* node->revdir = pivot->dir *)
  pd ← rd (child d) h pivot;
  h ← wr (set_child (revdir d) pd) h node;
  (* if (NULL != pivot->dir) pivot->dir->parent = node *)
  pd ← rd (child d) h pivot;
  h ← (if decide (pd = NULL) then mret h
       else wr (rbnode.set_parent node) h pd);
  (* pivot->parent = node->parent *)
  np ← rd rbnode.parent h node;
  h ← wr (rbnode.set_parent np) h pivot;
  (* if (NULL == node->parent) *_root = pivot
     else if (node == node->parent->left) node->parent->left = pivot
     else node->parent->right = pivot *)
  np ← rd rbnode.parent h node;
  '(h, root) ←
    (if decide (np = NULL) then mret (h, pivot)
     else
       npl ← rd rbnode.left h np;
       if decide (node = npl)
       then h ← wr (rbnode.set_left pivot) h np; mret (h, root)
       else h ← wr (rbnode.set_right pivot) h np; mret (h, root));
  (* pivot->dir = node *)
  h ← wr (set_child d node) h pivot;
  mret (h, root).

(** ** BstInsert *)

Fixpoint BstInsert (fuel : nat) (h : gmap Z rbnode.t) (root node : ptr)
    (comparer : compareFunc) : result (gmap Z rbnode.t * ptr) :=
  match fuel with
  | O => Timeout
  | S fuel =>
    if decide (root = NULL) then mret (h, node)
    else
      rk ← rd rbnode.key h root;
      nk ← rd rbnode.key h node;
      if decide (0 < comparer rk nk) then
        (* root->left = BstInsert(root->left, node, comparer) *)
        rl ← rd rbnode.left h root;
        '(h, r) ← BstInsert fuel h rl node comparer;
        h ← wr (rbnode.set_left r) h root;
        (* root->left->parent = root *)
        rl ← rd rbnode.left h root;
        h ← wr (rbnode.set_parent root) h rl;
        mret (h, root)
      else
        rr ← rd rbnode.right h root;
        '(h, r) ← BstInsert fuel h rr node comparer;
        h ← wr (rbnode.set_right r) h root;
        rr ← rd rbnode.right h root;
        h ← wr (rbnode.set_parent root) h rr;
        mret (h, root)
  end.

(** ** BstSearch *)

Fixpoint BstSearch (fuel : nat) (h : gmap Z rbnode.t) (root : ptr) (key : ptr)
    (comparer : compareFunc) : result ptr :=
  match fuel with
  | O => Timeout
  | S fuel =>
    if decide (root = NULL) then mret NULL
    else
      rk ← rd rbnode.key h root;
      let ret := comparer rk key in
      if decide (ret = 0) then mret root
      else if decide (0 < ret) then
        rl ← rd rbnode.left h root; BstSearch fuel h rl key comparer
      else
        rr ← rd rbnode.right h root; BstSearch fuel h rr key comparer
  end.

(** ** insertRbNode *)

(** [SWAP_COLOR(node_a, node_b)] *)
Definition SWAP_COLOR (h : heap) (node_a node_b : ptr) : result heap :=
  color ← rd rbnode.color h node_a;
  cb ← rd rbnode.color h node_b;
  h ← wr (rbnode.set_color cb) h node_a;
  wr (rbnode.set_color color) h node_b.

(** The loop condition
    [rbnode != root && rbnode->color != NODE_COLOR_BLACK
       && rbnode->parent->color == NODE_COLOR_RED],
    evaluated left to right with short-circuiting. *)
Definition fixup_cond (h : heap) (rbnode root : ptr) : result bool :=
  if decide (rbnode = root) then mret false
  else
    c ← rd rbnode.color h rbnode;
    if decide (c = NODE_COLOR_BLACK) then mret false
    else
      p ← rd rbnode.parent h rbnode;
      pc ← rd rbnode.color h p;
      mret (bool_decide (pc = NODE_COLOR_RED)).

(** One pass through the body of the [while] loop; the result is the memory
    and the new values of the locals [rbnode] and [root]. *)
Definition fixup_body (h : heap) (rbnode root : ptr)
  : result (heap * ptr * ptr) :=
  parent ← rd rbnode.parent h rbnode;
  grandparent ← rd rbnode.parent h parent;
  gl ← rd rbnode.left h grandparent;
  '(uncle, isParentLeftChild) ←
    (if decide (parent = gl)
     then u ← rd rbnode.right h grandparent; mret (u, true)
     else u ← rd rbnode.left h grandparent; mret (u, false));
  uncle_red ←
    (if decide (uncle = NULL) then mret false
     else uc ← rd rbnode.color h uncle;
          mret (bool_decide (uc = NODE_COLOR_RED)));
  if uncle_red : bool then
    h ← wr (rbnode.set_color NODE_COLOR_RED) h grandparent;
    (* parent->color = uncle->color = NODE_COLOR_BLACK *)
    h ← wr (rbnode.set_color NODE_COLOR_BLACK) h uncle;
    h ← wr (rbnode.set_color NODE_COLOR_BLACK) h parent;
    mret (h, grandparent, root)
  else if isParentLeftChild : bool then
    pr ← rd rbnode.right h parent;
    '(h, root, rbnode, parent) ←
      (if decide (rbnode = pr) then
         '(h, root) ← ROTATE_TREE left h parent root;
         pp ← rd rbnode.parent h parent;
         mret (h, root, parent, pp)
       else mret (h, root, rbnode, parent));
    '(h, root) ← ROTATE_TREE right h grandparent root;
    h ← SWAP_COLOR h grandparent parent;
    mret (h, parent, root)
  else
    pl ← rd rbnode.left h parent;
    '(h, root, rbnode, parent) ←
      (if decide (rbnode = pl) then
         '(h, root) ← ROTATE_TREE right h parent root;
         pp ← rd rbnode.parent h parent;
         mret (h, root, parent, pp)
       else mret (h, root, rbnode, parent));
    '(h, root) ← ROTATE_TREE left h grandparent root;
    h ← SWAP_COLOR h grandparent parent;
    mret (h, parent, root).

Fixpoint fixup_loop (fuel : nat) (h : heap) (rbnode root : ptr)
  : result (heap * ptr * ptr) :=
  match fuel with
  | O => Timeout
  | S fuel =>
    b ← fixup_cond h rbnode root;
    if b : bool then
      '(h, rbnode, root) ← fixup_body h rbnode root;
      fixup_loop fuel h rbnode root
    else mret (h, rbnode, root)
  end.

Definition set_root (r : ptr) (t : rbtree.t) : rbtree.t :=
  rbtree.mk r (rbtree.comparer t) (rbtree.rb_offset t) (rbtree.size t).

Definition insertRbNode (fuel : nat) (st : state) (rbnode : ptr)
  : result (state * Z) :=
  '(h, root) ← BstInsert fuel (mem st) (rbtree.root (tree st)) rbnode
                 (rbtree.comparer (tree st));
  '(h, _, root) ← fixup_loop fuel h rbnode root;
  (* root->color = NODE_COLOR_BLACK; rbtree->root = root; return 0 *)
  h ← wr (rbnode.set_color NODE_COLOR_BLACK) h root;
  mret (mkState (set_root root (tree st)) h, 0).

Definition INSERT_RBNODE_TYPE (fuel : nat) (st : state) (elem : ptr)
    (off_rbnode : Z) : result (state * Z) :=
  insertRbNode fuel st (elem + off_rbnode).

(** ** BstDelete and deleteRbNode *)

(** [while (NULL != p->left) p = p->left] *)
Fixpoint leftmost (fuel : nat) (h : heap) (p : ptr) : result ptr :=
  match fuel with
  | O => Timeout
  | S fuel =>
    pl ← rd rbnode.left h p;
    if decide (pl = NULL) then mret p
    else leftmost fuel h pl
  end.

Definition BstDelete (fuel : nat) (h : heap) (root node : ptr)
  : result (heap * ptr) :=
  (* case 1: delete a leaf; [None] stands for the early [return NULL] *)
  nl ← rd rbnode.left h node;
  leaf ← (if decide (nl = NULL)
          then nr ← rd rbnode.right h node; mret (bool_decide (nr = NULL))
          else mret false);
  st1 ←
    (if leaf : bool then
       np ← rd rbnode.parent h node;
       if decide (np = NULL) then mret None
       else
         npl ← rd rbnode.left h np;
         if decide (node = npl)
         then h ← wr (rbnode.set_left NULL) h np; mret (Some h)
         else h ← wr (rbnode.set_right NULL) h np; mret (Some h)
     else mret (Some h));
  match st1 with
  | None => mret (h, NULL)
  | Some h =>
    nl ← rd rbnode.left h node;
    both ← (if decide (nl = NULL) then mret false
            else nr ← rd rbnode.right h node;
                 mret (negb (bool_decide (nr = NULL))));
    if negb both then
      (* case 2: node with one child *)
      parent ← rd rbnode.parent h node;
      pl ← rd rbnode.left h parent;
      (* the value of [node->left ? node->left : node->right] *)
      let pick h :=
        nl ← rd rbnode.left h node;
        if decide (nl = NULL) then rd rbnode.right h node
        else rd rbnode.left h node in
      if decide (pl = node) then
        c ← pick h;
        h ← wr (rbnode.set_left c) h parent;
        pl ← rd rbnode.left h parent;
        h ← wr (rbnode.set_parent parent) h pl;
        mret (h, root)
      else
        c ← pick h;
        h ← wr (rbnode.set_right c) h parent;
        pr ← rd rbnode.right h parent;
        h ← wr (rbnode.set_parent parent) h pr;
        mret (h, root)
    else
      (* case 3: node with both children *)
      nr ← rd rbnode.right h node;
      p ← leftmost fuel h nr;
      pr ← rd rbnode.right h p;
      h ← (if decide (pr = NULL) then
             pp ← rd rbnode.parent h p;
             wr (rbnode.set_left NULL) h pp
           else
             pp ← rd rbnode.parent h p;
             pr ← rd rbnode.right h p;
             h ← wr (rbnode.set_left pr) h pp;
             pr ← rd rbnode.right h p;
             pp ← rd rbnode.parent h p;
             wr (rbnode.set_parent pp) h pr);
      np ← rd rbnode.parent h node;
      npl ← (if decide (np = NULL) then mret NULL else rd rbnode.left h np);
      h ← (if decide (np ≠ NULL ∧ npl = node) then
             wr (rbnode.set_left p) h np
           else
             np ← rd rbnode.parent h node;
             npr ← (if decide (np = NULL) then mret NULL
                    else rd rbnode.right h np);
             if decide (np ≠ NULL ∧ npr = node)
             then wr (rbnode.set_right p) h np
             else mret h);
      nl ← rd rbnode.left h node;
      h ← wr (rbnode.set_left nl) h p;
      nr ← rd rbnode.right h node;
      h ← wr (rbnode.set_right nr) h p;
      np ← rd rbnode.parent h node;
      h ← wr (rbnode.set_parent np) h p;
      mret (h, if decide (root = node) then p else root)
  end.

(** [deleteRbNode] keeps the root returned by the splice in a local and
    returns without using it (the C function has no [return] statement:
    its [int] result is unspecified, so it is not part of the model). *)
Definition deleteRbNode (fuel : nat) (st : state) (node : ptr) : result state :=
  '(h, root) ← BstDelete fuel (mem st) (rbtree.root (tree st)) node;
  mret (mkState (tree st) h).

(** ** Traversal and search *)

(** What one visit sends to the terminal: the colour escape chosen by the
    node's colour, and the key handed to [pfunc]. *)
Inductive escape : Set := YELLOW | RED.

Fixpoint InorderTraversal (fuel : nat) (h : heap) (rbnode : ptr)
  : result (list (escape * ptr)) :=
  match fuel with
  | O => Timeout
  | S fuel =>
    if decide (rbnode = NULL) then mret []
    else
      l ← rd rbnode.left h rbnode;
      ls ← InorderTraversal fuel h l;
      c ← rd rbnode.color h rbnode;
      k ← rd rbnode.key h rbnode;
      r ← rd rbnode.right h rbnode;
      rs ← InorderTraversal fuel h r;
      mret (ls ++ (if decide (c = NODE_COLOR_BLACK) then YELLOW else RED, k) :: rs)
  end.

Definition inorderTraversal (fuel : nat) (st : state) : result (list (escape * ptr)) :=
  InorderTraversal fuel (mem st) (rbtree.root (tree st)).

Definition searchKey (fuel : nat) (st : state) (key : ptr) : result ptr :=
  BstSearch fuel (mem st) (rbtree.root (tree st)) key (rbtree.comparer (tree st)).

(** [RBTREE_SEARCH]: the enclosing record is the node address minus the
    configured offset, computed in [unsigned long]. *)
Definition RBTREE_SEARCH (fuel : nat) (st : state) (key : ptr) : result ptr :=
  node ← BstSearch fuel (mem st) (rbtree.root (tree st)) key
           (rbtree.comparer (tree st));
  if decide (node = NULL) then mret NULL
  else mret ((node - rbtree.rb_offset (tree st)) mod 2 ^ 64).

(** ** The comparators and key layout of the demonstration driver *)

(** [intcomparer] of rbtree.c; [ints] is the caller memory holding the
    [int] keys the key pointers refer to. *)
Definition intcomparer (ints : gmap Z Z) (lhs rhs : ptr) : Z :=
  let a := default 0 (ints !! lhs) in
  let b := default 0 (ints !! rhs) in
  if decide (a = b) then 0 else if decide (a < b) then -1 else 1.

(** [foocomparer] of rbtree.c: [Foo] holds one [int] at offset 0, so it reads
    the same word as [intcomparer]. *)
Definition foocomparer (ints : gmap Z Z) (lhs rhs : ptr) : Z :=
  let l := default 0 (ints !! lhs) in
  let r := default 0 (ints !! rhs) in
  if decide (l = r) then 0 else if decide (l < r) then -1 else 1.

(** ** Reading the memory back as a tree *)

Inductive rbt : Set :=
| Leaf
| Node (a : ptr) (c : NodeColor_t) (k : ptr) (l r : rbt).

Fixpoint tree_of (fuel : nat) (h : heap) (p : ptr) : result rbt :=
  match fuel with
  | O => Timeout
  | S fuel =>
    if decide (p = NULL) then mret Leaf
    else
      n ← load h p;
      l ← tree_of fuel h (rbnode.left n);
      r ← tree_of fuel h (rbnode.right n);
      mret (Node p (rbnode.color n) (rbnode.key n) l r)
  end.

(** [rep h p t]: the nodes reachable from [p] through the child links form
    the tree [t]. *)
Fixpoint rep (h : heap) (p : ptr) (t : rbt) : Prop :=
  match t with
  | Leaf => p = NULL
  | Node a c k l r =>
    p = a ∧ a ≠ NULL ∧
    ∃ n, h !! a = Some n ∧ rbnode.color n = c ∧ rbnode.key n = k ∧
         rep h (rbnode.left n) l ∧ rep h (rbnode.right n) r
  end.

Fixpoint addrs (t : rbt) : list ptr :=
  match t with
  | Leaf => []
  | Node a _ _ l r => addrs l ++ a :: addrs r
  end.

Fixpoint keys (t : rbt) : list ptr :=
  match t with
  | Leaf => []
  | Node _ _ k l r => keys l ++ k :: keys r
  end.

Fixpoint height (t : rbt) : nat :=
  match t with
  | Leaf => O
  | Node _ _ _ l r => S (Nat.max (height l) (height r))
  end.

Definition root_addr (t : rbt) : ptr :=
  match t with Leaf => NULL | Node a _ _ _ _ => a end.

Definition root_color (t : rbt) : option NodeColor_t :=
  match t with Leaf => None | Node _ c _ _ _ => Some c end.

(** ** The five invariants of the data model *)

(** 1. Every node is RED or BLACK. *)
Fixpoint inv_colors (t : rbt) : Prop :=
  match t with
  | Leaf => True
  | Node _ c _ l r =>
    (c = NODE_COLOR_RED ∨ c = NODE_COLOR_BLACK) ∧ inv_colors l ∧ inv_colors r
  end.

(** 2. The root is BLACK. *)
Definition inv_root (t : rbt) : Prop :=
  match t with
  | Leaf => True
  | Node _ c _ _ _ => c = NODE_COLOR_BLACK
  end.

(** 3. No RED node has a RED parent. *)
Fixpoint inv_red (t : rbt) : Prop :=
  match t with
  | Leaf => True
  | Node _ c _ l r =>
    (c = NODE_COLOR_RED →
       root_color l ≠ Some NODE_COLOR_RED ∧ root_color r ≠ Some NODE_COLOR_RED) ∧
    inv_red l ∧ inv_red r
  end.

(** 4. Every path from the root to a null child passes through the same
    number of BLACK nodes.  [black_counts] lists that number for every such
    path, left to right. *)
Fixpoint black_counts (t : rbt) : list nat :=
  match t with
  | Leaf => [O]
  | Node _ c _ l r =>
    let b := if decide (c = NODE_COLOR_BLACK) then 1%nat else 0%nat in
    (λ n, (b + n)%nat) <$> (black_counts l ++ black_counts r)
  end.

Definition inv_black_height (t : rbt) : Prop :=
  ∀ x y, x ∈ black_counts t → y ∈ black_counts t → x = y.

(** 5. Order: at every node the keys of the left subtree compare less and
    the keys of the right subtree compare greater or equal. *)
Fixpoint inv_order (cmp : compareFunc) (t : rbt) : Prop :=
  match t with
  | Leaf => True
  | Node _ _ k l r =>
    Forall (λ x, cmp x k < 0) (keys l) ∧ Forall (λ x, 0 ≤ cmp x k) (keys r) ∧
    inv_order cmp l ∧ inv_order cmp r
  end.

Definition rb_invariants (cmp : compareFunc) (t : rbt) : Prop :=
  inv_colors t ∧ inv_root t ∧ inv_red t ∧ inv_black_height t ∧ inv_order cmp t.

(** The keys an in-order traversal hands to the visitor are in
    non-decreasing comparator order. *)
Fixpoint nondecreasing (cmp : compareFunc) (ks : list ptr) : Prop :=
  match ks with
  | [] => True
  | k :: ks' =>
    match ks' with
    | [] => True
    | k' :: _ => cmp k k' ≤ 0 ∧ nondecreasing cmp ks'
    end
  end.

(** ** Sequences of calls *)

Inductive call : Set :=
| Insert (node : ptr)
| Delete (node : ptr).

Fixpoint run (fuel : nat) (st : state) (cs : list call) : result state :=
  match cs with
  | [] => mret st
  | Insert node :: cs => '(st, _) ← insertRbNode fuel st node; run fuel st cs
  | Delete node :: cs => st ← deleteRbNode fuel st node; run fuel st cs
  end.

(** The keys visited by a traversal, in visiting order. *)
Definition visited (fuel : nat) (st : state) : result (list ptr) :=
  vs ← inorderTraversal fuel st; mret (vs.*2).

(** ** The driver's integer scenario

    As in [test_int_insertion]: the [i]-th key is an [int] in caller memory,
    the [i]-th node is initialised with [INIT_RBNODE] to point at it, and the
    tree is initialised with [INIT_RBTREE] and [intcomparer]. *)
Module Driver.

Definition key_addr (i : nat) : ptr := 4096 + 4 * Z.of_nat i.
Definition node_addr (i : nat) : ptr := 8192 + 40 * Z.of_nat i.

Definition ints (vs : list Z) : gmap Z Z :=
  list_to_map (imap (λ i v, (key_addr i, v)) vs).

(** The tree struct before [INIT_RBTREE] has run. *)
Definition uninit : rbtree.t := rbtree.mk 0 (λ _ _, 0) 0 0.

Definition init (vs : list Z) : state :=
  mkState (INIT_RBTREE uninit (intcomparer (ints vs)))
          (foldl (λ h i, INIT_RBNODE h (node_addr i) (key_addr i)) ∅
                 (seq 0 (length vs))).

(** The values of the keys at the given key pointers. *)
Definition values (vs : list Z) (ks : list ptr) : list Z :=
  (λ k, default 0 (ints vs !! k)) <$> ks.

(** Initialise everything for [vs], then insert the first [n] nodes in
    order. *)
Definition inserted (fuel : nat) (vs : list Z) (n : nat) : result state :=
  run fuel (init vs) (Insert ∘ node_addr <$> seq 0 n).

(** The state a run ends in (the uninitialised one if it does not end). *)
Definition state_of (r : result state) : state :=
  match r with
  | Ok st => st
  | _ => mkState uninit ∅
  end.

End Driver.

(** ** The driver's intrusive scenario

    As in [test_bar_insertion]: [Bar] records, each embedding its key
    ([barmap_key]) and its node ([rbnode]), are inserted through the typed
    macros.  [elems] are the addresses of the records, [off_rbnode] and
    [off_key] are [OFFSET_OF(Bar, rbnode)] and [OFFSET_OF(Bar, barmap_key)]. *)
Module BarDriver.

Definition init (cmp : compareFunc) (off_rbnode off_key : Z) (elems : list ptr)
  : state :=
  mkState (INIT_RBTREE_TYPE Driver.uninit cmp off_rbnode)
          (foldl (λ h e, INIT_RBNODE_TYPE h e off_rbnode off_key) ∅ elems).

Fixpoint insert_bars (fuel : nat) (st : state) (off_rbnode : Z)
    (elems : list ptr) : result state :=
  match elems with
  | [] => mret st
  | e :: elems =>
    '(st, _) ← INSERT_RBNODE_TYPE fuel st e off_rbnode;
    insert_bars fuel st off_rbnode elems
  end.

Definition built (fuel : nat) (cmp : compareFunc) (off_rbnode off_key : Z)
    (elems : list ptr) : result state :=
  insert_bars fuel (init cmp off_rbnode off_key elems) off_rbnode elems.

(** An assignment to [key.key] changes what the comparator reads: the
    function pointer in the tree stays, the function it denotes is the one
    over the new caller memory. *)
Definition set_comparer (cmp : compareFunc) (st : state) : state :=
  mkState (rbtree.mk (rbtree.root (tree st)) cmp
                     (rbtree.rb_offset (tree st)) (rbtree.size (tree st)))
          (mem st).

(** The layout of the LP64 ABI: [int bar] at 0, [Foo barmap_key] at 4,
    [rbnode_t rbnode] at 8, [sizeof(Bar)] 48; the records [b1], [b2], [b3]
    and the local [key] at some addresses of the stack. *)
Definition offsetof_barmap_key : Z := 4.
Definition offsetof_rbnode : Z := 8.
Definition sizeof_Bar : Z := 48.
Definition bar_addr (i : nat) : ptr := 12288 + sizeof_Bar * Z.of_nat i.
Definition key_cell : ptr := 16384.

(** Caller memory: [b1.barmap_key.key = 1], [b2...= 2], [b3... = 3]. *)
Definition ints : gmap Z Z :=
  list_to_map ((λ i, (bar_addr i + offsetof_barmap_key, Z.of_nat i + 1))
                 <$> seq 0 3).

End BarDriver.

(** * Specification-level definitions *)

(** ** Descent, search and placement on the tree read from memory *)

(** The nodes (address and key) met when descending from the root: left
    where the visited key compares greater than [k], right otherwise, until
    a null link. *)
Fixpoint descent (cmp : compareFunc) (t : rbt) (k : ptr) : list (ptr * ptr) :=
  match t with
  | Leaf => []
  | Node a _ x l r =>
    (a, x) :: (if decide (0 < cmp x k) then descent cmp l k else descent cmp r k)
  end.

(** The first node on the descent whose key compares equal, [NULL] if the
    descent reaches a null link without meeting one. *)
Definition first_match (cmp : compareFunc) (t : rbt) (k : ptr) : ptr :=
  match head (filter (λ e, cmp e.2 k = 0) (descent cmp t k)) with
  | Some e => e.1
  | None => NULL
  end.

(** Placement as [BstInsert] performs it, on the tree read from memory: the
    new node (address [a], colour [c], key [k]) goes left where
    [0 < comparer(root->key, node->key)], right otherwise. *)
Fixpoint place (cmp : compareFunc) (t : rbt) (a : ptr) (c : NodeColor_t)
    (k : ptr) : rbt :=
  match t with
  | Leaf => Node a c k Leaf Leaf
  | Node b cb x l r =>
    if decide (0 < cmp x k) then Node b cb x (place cmp l a c k) r
    else Node b cb x l (place cmp r a c k)
  end.

(** Placement in the specification's words: a strictly-less key goes left,
    everything else (ties included) goes right, and the new node is linked at
    the first null position. *)
Fixpoint place_spec (cmp : compareFunc) (t : rbt) (a : ptr) (c : NodeColor_t)
    (k : ptr) : rbt :=
  match t with
  | Leaf => Node a c k Leaf Leaf
  | Node b cb x l r =>
    if decide (cmp k x < 0) then Node b cb x (place_spec cmp l a c k) r
    else Node b cb x l (place_spec cmp r a c k)
  end.

(** The part of the comparator contract that placement relies on: swapping
    the arguments swaps the sign. *)
Definition antisymmetric (cmp : compareFunc) : Prop :=
  ∀ x y, 0 < cmp x y ↔ cmp y x < 0.

(** The node under which the new node is linked: the last one of the
    descent, [NULL] for an empty tree. *)
Definition link_parent (cmp : compareFunc) (t : rbt) (k : ptr) : ptr :=
  match last (descent cmp t k) with
  | Some e => e.1
  | None => NULL
  end.

(** [b] comes before [a] in the in-order sequence [l]. *)
Definition before (b a : ptr) (l : list ptr) : Prop :=
  ∃ l1 l2 l3, l = l1 ++ b :: l2 ++ a :: l3.

(** The new node and its ancestors after placement, bottom-up. *)
Definition path_up (cmp : compareFunc) (t : rbt) (node k : ptr) : list ptr :=
  node :: reverse (descent cmp t k).*1.

(** ** Links in memory *)

(** A node without its parent link: what [rep] looks at. *)
Definition unparented (n : rbnode.t) : rbnode.t := rbnode.set_parent NULL n.

Definition col (h : heap) (a : ptr) : option NodeColor_t :=
  rbnode.color <$> h !! a.

(** [chain h l]: every element of [l] has the next one as its parent and is
    one of its children. *)
Fixpoint chain (h : heap) (l : list ptr) : Prop :=
  match l with
  | x :: l' =>
    match l' with
    | y :: _ =>
      rbnode.parent <$> h !! x = Some y ∧
      (rbnode.left <$> h !! y = Some x ∨ rbnode.right <$> h !! y = Some x) ∧
      chain h l'
    | [] => True
    end
  | [] => True
  end.

(** Bottom-up along a path: a RED node has a BLACK parent. *)
Fixpoint alt (h : heap) (l : list ptr) : Prop :=
  match l with
  | y :: l' =>
    match l' with
    | z :: _ =>
      (col h y = Some NODE_COLOR_RED → col h z = Some NODE_COLOR_BLACK) ∧
      alt h l'
    | [] => True
    end
  | [] => True
  end.

(** How [BstInsert] changes memory: no node appears or disappears, colours
    and keys stay, and a parent link either stays or points into [S]. *)
Definition evolves (S : list ptr) (h h' : heap) : Prop :=
  ∀ a, match h !! a with
       | Some n =>
         ∃ n', h' !! a = Some n' ∧ rbnode.color n' = rbnode.color n ∧
               rbnode.key n' = rbnode.key n ∧
               (rbnode.parent n' = rbnode.parent n ∨ rbnode.parent n' ∈ S)
       | None => h' !! a = None
       end.

(** What one run of [BstInsert] of the node [node], holding [nd], achieves
    on a represented tree. *)
Definition placed (cmp : compareFunc) (node : ptr) (nd : rbnode.t) (t : rbt)
    (h h' : heap) : Prop :=
  let t' := place cmp t node (rbnode.color nd) (rbnode.key nd) in
  rep h' (root_addr t') t' ∧
  (∀ a, a ≠ node → a ∉ addrs t → h' !! a = h !! a) ∧
  evolves (addrs t) h h' ∧
  chain h' (path_up cmp t node (rbnode.key nd)) ∧
  rbnode.parent <$> h' !! root_addr t' = rbnode.parent <$> h !! root_addr t'.

(** ** Closed memory

    [inS] holds of the addresses of the nodes of the tree. *)

Definition okptr (inS : ptr → Prop) (p : ptr) : Prop := p = NULL ∨ inS p.

Definition node_ok (inS : ptr → Prop) (n : rbnode.t) : Prop :=
  okptr inS (rbnode.left n) ∧ okptr inS (rbnode.right n) ∧
  okptr inS (rbnode.parent n).

(** Every link of a node of the tree is null or leads to a node of the
    tree. *)
Definition closed (inS : ptr → Prop) (h : heap) : Prop :=
  ∀ a, inS a → a ≠ NULL ∧ ∃ n, h !! a = Some n ∧ node_ok inS n.

(** What a rotation at [node] with pivot [pivot] in direction [d] keeps of
    a node at address [a]: its colour; that a child link is not null,
    except for the [revdir] link of [node]; that the parent link is not
    null, except for [pivot]. *)
Definition keeps (node pivot : ptr) (d : Dir) (a : ptr) (n n' : rbnode.t)
  : Prop :=
  rbnode.color n' = rbnode.color n ∧
  (∀ e, a ≠ node ∨ e ≠ revdir d → child e n ≠ NULL → child e n' ≠ NULL) ∧
  (a ≠ pivot → rbnode.parent n ≠ NULL → rbnode.parent n' ≠ NULL).

Definition mono (node pivot : ptr) (d : Dir) (h h' : heap) : Prop :=
  ∀ a, match h !! a with
       | Some n => ∃ n', h' !! a = Some n' ∧ keeps node pivot d a n n'
       | None => h' !! a = None
       end.

(** [blackened X h h']: [h'] is [h] with some nodes recoloured; outside [X]
    a colour either stays or becomes BLACK. *)
Definition blackened (X : ptr → Prop) (h h' : heap) : Prop :=
  ∀ a, match h !! a with
       | Some n =>
         ∃ c, h' !! a = Some (rbnode.set_color c n) ∧
              (c = rbnode.color n ∨ c = NODE_COLOR_BLACK ∨ X a)
       | None => h' !! a = None
       end.

(** The two rotation branches of the loop body are mirror images:
    [rotate_fix left] is the branch taken when the parent is a left child,
    [rotate_fix right] the other one. *)
Definition rotate_fix (d : Dir) (h : heap) (rbnode parent grandparent root : ptr)
  : result (heap * ptr * ptr) :=
  pc ← rd (child (revdir d)) h parent;
  '(h, root, rbnode, parent) ←
    (if decide (rbnode = pc) then
       '(h, root) ← ROTATE_TREE d h parent root;
       pp ← rd rbnode.parent h parent;
       mret (h, root, parent, pp)
     else mret (h, root, rbnode, parent));
  '(h, root) ← ROTATE_TREE (revdir d) h grandparent root;
  h ← SWAP_COLOR h grandparent parent;
  mret (h, parent, root).

(** The loop invariant of the fixup while no rotation has happened: [x] is
    the current node, [rest] its ancestors bottom-up, ending in [root]. *)
Definition fix_inv (inS : ptr → Prop) (h : heap) (x : ptr) (rest : list ptr)
    (root : ptr) : Prop :=
  closed inS h ∧ Forall inS (x :: rest) ∧ NoDup (x :: rest) ∧
  chain h (x :: rest) ∧ last (x :: rest) = Some root ∧
  rbnode.parent <$> h !! root = Some NULL ∧
  alt h rest ∧ (rest ≠ [] → col h root = Some NODE_COLOR_BLACK).

(** ** Valid trees *)

(** A valid tree: the child links from the root form [t] without sharing,
    every parent link is null or leads into the tree, the root's parent link
    is null, and the five invariants hold. *)
Record valid_tree (st : state) (t : rbt) : Prop := {
  valid_rep : rep (mem st) (rbtree.root (tree st)) t;
  valid_nodup : NoDup (addrs t);
  valid_parents :
    ∀ a n, a ∈ addrs t → mem st !! a = Some n →
           rbnode.parent n = NULL ∨ rbnode.parent n ∈ addrs t;
  valid_root_parent :
    t ≠ Leaf → rbnode.parent <$> mem st !! rbtree.root (tree st) = Some NULL;
  valid_inv : rb_invariants (rbtree.comparer (tree st)) t
}.

(** The state of a node after [INIT_RBNODE]. *)
Definition initialised (h : heap) (node : ptr) : Prop :=
  ∃ key, h !! node = Some (rbnode.mk NODE_COLOR_RED NULL NULL NULL key).

(** ** The traversal's output, the comparator contract and sorted keys *)

(** What the in-order traversal of a tree sends to the terminal. *)
Fixpoint inorder (t : rbt) : list (escape * ptr) :=
  match t with
  | Leaf => []
  | Node _ c k l r =>
    inorder l ++ (if decide (c = NODE_COLOR_BLACK) then YELLOW else RED, k)
              :: inorder r
  end.

(** The comparator contract: the sign flips with the arguments and
    "not greater" is transitive. *)
Record comparator (cmp : compareFunc) : Prop := {
  cmp_flip : ∀ x y, 0 < cmp x y ↔ cmp y x < 0;
  cmp_trans : ∀ x y z, cmp x y ≤ 0 → cmp y z ≤ 0 → cmp x z ≤ 0
}.

(** The order invariant with ties allowed on both sides. *)
Fixpoint inv_order_weak (cmp : compareFunc) (t : rbt) : Prop :=
  match t with
  | Leaf => True
  | Node _ _ k l r =>
    Forall (λ x, cmp x k ≤ 0) (keys l) ∧ Forall (λ x, 0 ≤ cmp x k) (keys r) ∧
    inv_order_weak cmp l ∧ inv_order_weak cmp r
  end.

(** Every key comes before every later key. *)
Fixpoint sorted (cmp : compareFunc) (ks : list ptr) : Prop :=
  match ks with
  | [] => True
  | k :: ks' => Forall (λ x, cmp k x ≤ 0) ks' ∧ sorted cmp ks'
  end.

(** ** Subtrees and rotation on the tree read from memory *)

(** The subtree of [t] rooted at the address [g] ([Leaf] when [g] is not in
    [t]). *)
Fixpoint subtree (g : ptr) (t : rbt) : rbt :=
  match t with
  | Leaf => Leaf
  | Node a _ _ l r =>
    if decide (a = g) then t
    else if decide (g ∈ addrs l) then subtree g l else subtree g r
  end.

(** [t] with the subtree rooted at [g] replaced by [s]. *)
Fixpoint replace_at (g : ptr) (s : rbt) (t : rbt) : rbt :=
  match t with
  | Leaf => Leaf
  | Node a c k l r =>
    if decide (a = g) then s
    else if decide (g ∈ addrs l) then Node a c k (replace_at g s l) r
    else Node a c k l (replace_at g s r)
  end.

(** The rotation of the header's comment, on trees:
    [rotate right (P (Q A B) R) = Q A (P B R)], and its mirror image. *)
Definition rotate (d : Dir) (t : rbt) : rbt :=
  match d, t with
  | right, Node g cg kg (Node p cp kp a b) r =>
    Node p cp kp a (Node g cg kg b r)
  | left, Node g cg kg l (Node p cp kp a b) =>
    Node p cp kp (Node g cg kg l a) b
  | _, _ => t
  end.

(** A node given by its [d] child and its other child. *)
Definition mk_node (d : Dir) (a : ptr) (c : NodeColor_t) (k : ptr)
    (sd sr : rbt) : rbt :=
  match d with
  | left => Node a c k sd sr
  | right => Node a c k sr sd
  end.


(** [preserves f h h']: the field [f] of every node is in [h'] what it was
    in [h], and no node has appeared or disappeared. *)
Definition preserves {A} (f : rbnode.t → A) (h h' : heap) : Prop :=
  ∀ a, f <$> h' !! a = f <$> h !! a.

(** Invariant 1 on memory: every node is RED or BLACK. *)
Definition two_coloured (h : heap) : Prop :=
  ∀ a n, h !! a = Some n →
    rbnode.color n = NODE_COLOR_RED ∨ rbnode.color n = NODE_COLOR_BLACK.

(** * Lemmas *)

(** ** Memory access *)

Lemma bind_Ok {A B} (a : A) (f : A → result B) : (Ok a ≫= f) = f a.
Proof. reflexivity. Qed.

Lemma load_Ok (h : heap) p n : p ≠ NULL → h !! p = Some n → load h p = Ok n.
Proof. intros Hp Hl. unfold load. rewrite decide_False by done. by rewrite Hl. Qed.

Lemma load_inv (h : heap) p n : load h p = Ok n → p ≠ NULL ∧ h !! p = Some n.
Proof.
  unfold load. case_decide; [done|].
  destruct (h !! p) eqn:E; [|done]. intros [= ->]. done.
Qed.

Lemma rd_Ok {A} (f : rbnode.t → A) (h : heap) p n :
  p ≠ NULL → h !! p = Some n → rd f h p = Ok (f n).
Proof. intros Hp Hl. unfold rd. by rewrite (load_Ok _ _ _ Hp Hl). Qed.

Lemma wr_Ok upd (h : heap) p n :
  p ≠ NULL → h !! p = Some n → wr upd h p = Ok (<[p := upd n]> h).
Proof. intros Hp Hl. unfold wr. by rewrite (load_Ok _ _ _ Hp Hl). Qed.

Lemma rd_inv {A} (f : rbnode.t → A) (h : heap) p v :
  rd f h p = Ok v → p ≠ NULL ∧ ∃ n, h !! p = Some n ∧ v = f n.
Proof.
  unfold rd. destruct (load h p) as [n| |] eqn:E; [|done..].
  apply load_inv in E as [? ?]. intros [= <-]. eauto.
Qed.

Lemma wr_inv upd (h h' : heap) p :
  wr upd h p = Ok h' → p ≠ NULL ∧ ∃ n, h !! p = Some n ∧ h' = <[p := upd n]> h.
Proof.
  unfold wr. destruct (load h p) as [n| |] eqn:E; [|done..].
  apply load_inv in E as [? ?]. intros [= <-]. eauto.
Qed.

Lemma rd_NULL {A} (f : rbnode.t → A) (h : heap) : rd f h NULL = Fault.
Proof. reflexivity. Qed.

Lemma wr_NULL upd (h : heap) : wr upd h NULL = Fault.
Proof. reflexivity. Qed.

(** Run the monadic glue once the next access has been resolved. *)
Ltac mstep := cbn [mbind mret result_bind result_ret].

(** ** Search *)

Lemma first_match_Node cmp a c x l r k :
  first_match cmp (Node a c x l r) k =
    if decide (cmp x k = 0) then a
    else if decide (0 < cmp x k) then first_match cmp l k
    else first_match cmp r k.
Proof.
  unfold first_match. simpl descent. rewrite filter_cons. simpl.
  destruct (decide (cmp x k = 0)); [done|].
  by destruct (decide (0 < cmp x k)).
Qed.

Lemma BstSearch_rep cmp k t :
  ∀ (h : heap) p fuel, rep h p t → (height t < fuel)%nat →
    BstSearch fuel h p k cmp = Ok (first_match cmp t k).
Proof.
  induction t as [|a c x l IHl r IHr]; intros h p fuel Hrep Hf.
  - simpl in Hrep. subst p. destruct fuel; [lia|]. reflexivity.
  - destruct Hrep as (-> & Ha & n & Hn & Hc & Hk & Hl & Hr).
    destruct fuel as [|fuel]; [lia|]. simpl in Hf.
    simpl. rewrite decide_False by done.
    unfold rd. rewrite !(load_Ok _ _ _ Ha Hn). simpl. rewrite Hk.
    rewrite first_match_Node.
    destruct (decide (cmp x k = 0)); [done|].
    destruct (decide (0 < cmp x k)).
    + apply IHl; [done|lia].
    + apply IHr; [done|lia].
Qed.

(** ** Placement *)

Lemma place_spec_place cmp t a c k :
  antisymmetric cmp → place_spec cmp t a c k = place cmp t a c k.
Proof.
  intros Hanti. induction t as [|b cb x l IHl r IHr]; [done|].
  simpl. rewrite IHl, IHr.
  pose proof (Hanti x k).
  destruct (decide (cmp k x < 0)), (decide (0 < cmp x k)); tauto || done.
Qed.

Lemma place_root cmp t a c k :
  root_addr (place cmp t a c k) = if t is Leaf then a else root_addr t.
Proof. destruct t; simpl; [done|]. by case_decide. Qed.

Lemma place_addrs cmp t a c k :
  addrs (place cmp t a c k) ≡ₚ a :: addrs t.
Proof.
  induction t as [|b cb x l IHl r IHr]; [done|].
  simpl. case_decide; simpl.
  - by rewrite IHl.
  - rewrite IHr, (Permutation_middle (addrs l) (b :: addrs r) a).
    f_equiv. apply perm_swap.
Qed.

Lemma rep_root (h : heap) p t : rep h p t → p = root_addr t.
Proof. destruct t; simpl; [done|]. by intros [? _]. Qed.

Lemma rep_lookup (h : heap) t :
  ∀ p a, rep h p t → a ∈ addrs t →
    a ≠ NULL ∧ ∃ n, h !! a = Some n ∧
      (rbnode.left n = NULL ∨ rbnode.left n ∈ addrs t) ∧
      (rbnode.right n = NULL ∨ rbnode.right n ∈ addrs t).
Proof.
  induction t as [|b cb x l IHl r IHr]; intros p a Hrep Hin.
  - by apply elem_of_nil in Hin.
  - destruct Hrep as (-> & Hb & n & Hn & _ & _ & Hl & Hr). simpl in Hin.
    assert (Hchild : ∀ q s, rep h q s → q = NULL ∨ q ∈ addrs s).
    { intros q [|? ? ? ? ?]; simpl; [by left|].
      intros [-> _]. right. set_solver. }
    rewrite elem_of_app, elem_of_cons in Hin.
    destruct Hin as [Hin|[->|Hin]].
    + destruct (IHl _ _ Hl Hin) as (? & m & ? & ? & ?).
      split; [done|]. exists m. simpl. set_solver.
    + split; [done|]. exists n. split; [done|]. simpl.
      destruct (Hchild _ _ Hl), (Hchild _ _ Hr); set_solver.
    + destruct (IHr _ _ Hr Hin) as (? & m & ? & ? & ?).
      split; [done|]. exists m. simpl. set_solver.
Qed.

Lemma rep_ext (h h' : heap) t :
  ∀ p, rep h p t →
    (∀ a, a ∈ addrs t → unparented <$> h' !! a = unparented <$> h !! a) →
    rep h' p t.
Proof.
  induction t as [|b cb x l IHl r IHr]; intros p Hrep Hext; [done|].
  destruct Hrep as (-> & Hb & n & Hn & Hc & Hk & Hl & Hr).
  split; [done|]. split; [done|].
  assert (unparented <$> h' !! b = Some (unparented n)) as Hb'.
  { rewrite Hext by (simpl; set_solver). by rewrite Hn. }
  destruct (h' !! b) as [n'|] eqn:Hn'; [|done].
  injection Hb' as Hc' Hl' Hr' Hk'.
  exists n'. rewrite Hc', Hl', Hr', Hk'. repeat split; try done.
  - apply IHl; [done|]. intros a Ha. apply Hext. simpl. set_solver.
  - apply IHr; [done|]. intros a Ha. apply Hext. simpl. set_solver.
Qed.

Lemma descent_addrs cmp t k : ∀ a, a ∈ (descent cmp t k).*1 → a ∈ addrs t.
Proof.
  induction t as [|b cb x l IHl r IHr]; intros a; simpl; [done|].
  rewrite elem_of_cons, elem_of_app, elem_of_cons.
  intros [->|Ha]; [by auto|]. destruct (decide (0 < cmp x k)); auto.
Qed.

Lemma descent_NoDup cmp t k : NoDup (addrs t) → NoDup (descent cmp t k).*1.
Proof.
  induction t as [|b cb x l IHl r IHr]; simpl; [constructor|].
  rewrite NoDup_app, NoDup_cons. intros (Hl & Hlr & Hb & Hr).
  apply NoDup_cons. split.
  - intros Hin. destruct (decide (0 < cmp x k)); apply descent_addrs in Hin.
    + apply (Hlr _ Hin). by left.
    + done.
  - destruct (decide (0 < cmp x k)); auto.
Qed.

Lemma path_up_Node cmp b cb x l r node k :
  path_up cmp (Node b cb x l r) node k =
    path_up cmp (if decide (0 < cmp x k) then l else r) node k ++ [b].
Proof.
  unfold path_up. simpl. rewrite reverse_cons, app_comm_cons. f_equal.
  by destruct (decide (0 < cmp x k)).
Qed.

Lemma path_up_last cmp t node c k :
  last (path_up cmp t node k) = Some (root_addr (place cmp t node c k)).
Proof.
  destruct t as [|b cb x l r]; [done|].
  rewrite path_up_Node, last_snoc. simpl. by case_decide.
Qed.

Lemma path_up_elem_of cmp t node k a :
  a ∈ path_up cmp t node k → a = node ∨ a ∈ addrs t.
Proof.
  unfold path_up. rewrite elem_of_cons, elem_of_reverse.
  intros [?|?]; [by left|]. right. by eapply descent_addrs.
Qed.

Lemma path_up_NoDup cmp t node k :
  NoDup (addrs t) → node ∉ addrs t → NoDup (path_up cmp t node k).
Proof.
  intros Hnd Hnode. unfold path_up. apply NoDup_cons. split.
  - rewrite elem_of_reverse. intros Hin. by apply descent_addrs in Hin.
  - rewrite reverse_Permutation. by apply descent_NoDup.
Qed.

Lemma chain_snoc (h : heap) l y b :
  chain h l → last l = Some y →
  rbnode.parent <$> h !! y = Some b →
  (rbnode.left <$> h !! b = Some y ∨ rbnode.right <$> h !! b = Some y) →
  chain h (l ++ [b]).
Proof.
  induction l as [|x [|z l'] IH]; intros Hc Hlast Hp Hch; [done|..].
  - injection Hlast as ->. simpl. done.
  - destruct Hc as (? & ? & ?). change ((x :: z :: l') ++ [b]) with (x :: (z :: l') ++ [b]).
    simpl. split; [done|]. split; [done|]. by apply IH.
Qed.

Lemma chain_ext (h h' : heap) l :
  NoDup l → chain h l →
  (∀ x, x ∈ l → unparented <$> h' !! x = unparented <$> h !! x) →
  (∀ x, x ∈ l → last l ≠ Some x → h' !! x = h !! x) →
  chain h' l.
Proof.
  induction l as [|x [|y l'] IH]; intros Hnd Hc Hshape Hsame; [done..|].
  destruct Hc as (Hp & Hch & Hc). apply NoDup_cons in Hnd as [Hx Hnd].
  assert (last (x :: y :: l') ≠ Some x) as Hlx.
  { change (last (x :: y :: l')) with (last (y :: l')).
    intros Hl. apply Hx. rewrite last_Some in Hl. destruct Hl as [l'' Hl].
    rewrite Hl. set_solver. }
  split; [|split].
  - rewrite Hsame; [done|set_solver|done].
  - assert (unparented <$> h' !! y = unparented <$> h !! y) as Hy
      by (apply Hshape; set_solver).
    destruct (h !! y) as [ny|], (h' !! y) as [ny'|]; try done.
    injection Hy as ? Hl Hr ?. simpl in *. by rewrite Hl, Hr.
  - apply IH; [done|done|..].
    + intros z Hz. apply Hshape. set_solver.
    + intros z Hz Hl. apply Hsame; [set_solver|done].
Qed.

Section Placement.
Variables (cmp : compareFunc) (node : ptr) (nd : rbnode.t).
Hypothesis node_nonnull : node ≠ NULL.
Hypothesis nd_left : rbnode.left nd = NULL.
Hypothesis nd_right : rbnode.right nd = NULL.

Lemma evolves_refl S (h : heap) : evolves S h h.
Proof. intros a. destruct (h !! a) as [n|] eqn:E; [|done]. exists n. auto. Qed.

Lemma BstInsert_exec t :
  ∀ (h : heap) p fuel,
    rep h p t → NoDup (addrs t) → node ∉ addrs t → h !! node = Some nd →
    (height t < fuel)%nat →
    ∃ h', BstInsert fuel h p node cmp
            = Ok (h', root_addr (place cmp t node (rbnode.color nd) (rbnode.key nd))) ∧
          placed cmp node nd t h h'.
Proof.
  induction t as [|b cb x l IHl r IHr]; intros h p fuel Hrep Hnd Hfresh Hnode Hf.
  - simpl in Hrep. subst p. destruct fuel; [lia|]. exists h.
    split; [done|]. split; [|split; [done|split; [apply evolves_refl|done]]].
    simpl. split; [done|]. split; [done|]. exists nd.
    by rewrite nd_left, nd_right.
  - destruct Hrep as (-> & Hb & n & Hn & Hc & Hk & Hl & Hr).
    destruct fuel as [|fuel]; [lia|]. simpl in Hf, Hnd, Hfresh.
    apply NoDup_app in Hnd as (Hndl & Hlr & Hnd).
    apply NoDup_cons in Hnd as (Hbr & Hndr).
    rewrite elem_of_app, elem_of_cons in Hfresh.
    assert (node ≠ b) as Hnb by tauto.
    simpl BstInsert. rewrite decide_False by done.
    rewrite !(rd_Ok _ _ _ _ Hb Hn), !(rd_Ok _ _ _ _ node_nonnull Hnode).
    mstep. rewrite Hk.
    unfold placed. rewrite path_up_Node. simpl place.
    destruct (decide (0 < cmp x (rbnode.key nd))) as [Hlt|Hlt].
    + destruct (IHl h (rbnode.left n) fuel) as (h1 & E1 & R1 & F1 & V1 & C1 & P1);
        [done|done|tauto|done|lia|].
      set (l' := place cmp l node (rbnode.color nd) (rbnode.key nd)) in *. set (rl := root_addr l') in *.
      assert (Hperm : addrs l' ≡ₚ node :: addrs l) by apply place_addrs.
      assert (Hrl : rl ∈ addrs l').
      { subst rl l'. destruct l; simpl; [set_solver|]. case_decide; set_solver. }
      assert (Hrlb : rl ≠ b).
      { intros ->. rewrite Hperm in Hrl. apply elem_of_cons in Hrl as [?|?]; [done|].
        apply (Hlr b); [done|by left]. }
      destruct (rep_lookup _ _ _ _ R1 Hrl) as (Hrl0 & m & Hm & _).
      assert (Hb1 : h1 !! b = Some n).
      { rewrite F1; [done|done|]. intros ?. apply (Hlr b); [done|by left]. }
      rewrite E1. mstep. rewrite (wr_Ok _ _ _ _ Hb Hb1). mstep.
      rewrite (rd_Ok rbnode.left _ b (rbnode.set_left rl n) Hb)
        by apply lookup_insert_eq.
      mstep. simpl rbnode.left.
      rewrite (wr_Ok _ _ rl m Hrl0) by (by rewrite lookup_insert_ne).
      mstep. eexists. split; [reflexivity|].
      set (h3 := <[rl:=_]> (<[b:=_]> h1)).
      assert (L3 : ∀ a, h3 !! a =
                if decide (a = rl) then Some (rbnode.set_parent b m)
                else if decide (a = b) then Some (rbnode.set_left rl n)
                else h1 !! a).
      { intros a. subst h3.
        destruct (decide (a = rl)) as [->|?]; [by rewrite lookup_insert_eq|].
        rewrite lookup_insert_ne by done.
        destruct (decide (a = b)) as [->|?]; [by rewrite lookup_insert_eq|].
        by rewrite lookup_insert_ne. }
      simpl root_addr.
      split; [|split; [|split; [|split]]].
      * simpl. split; [done|]. split; [done|]. exists (rbnode.set_left rl n).
        rewrite L3, decide_False, decide_True by done.
        split; [done|]. split; [done|]. split; [done|]. simpl. split.
        -- apply (rep_ext h1); [done|]. intros a Ha. rewrite L3.
           case_decide as E; [subst a; by rewrite Hm|].
           rewrite decide_False; [done|]. intros ->.
           rewrite Hperm in Ha. apply elem_of_cons in Ha as [?|?]; [done|].
           apply (Hlr b); [done|by left].
        -- apply (rep_ext h); [done|]. intros a Ha. rewrite L3.
           assert (a ∉ addrs l) by (intros ?; apply (Hlr a); [done|by right]).
           assert (a ≠ node) by (intros ->; tauto).
           rewrite decide_False.
           2:{ intros ->. rewrite Hperm in Hrl.
               apply elem_of_cons in Hrl as [?|?]; done. }
           rewrite decide_False by (by intros ->). by rewrite F1.
      * intros a Ha Hna. simpl in Hna. rewrite elem_of_app, elem_of_cons in Hna.
        rewrite L3, decide_False.
        2:{ intros ->. rewrite Hperm in Hrl.
            apply elem_of_cons in Hrl as [?|?]; tauto. }
        rewrite decide_False by tauto. apply F1; tauto.
      * unfold evolves in V1 |- *. intros a. pose proof (V1 a) as Va.
        rewrite L3.
        destruct (decide (a = rl)) as [Ha|Hne].
        { subst a. destruct (h !! rl) as [n0|]; [|congruence].
          destruct Va as (n' & Hn' & ? & ? & ?).
          assert (n' = m) as -> by congruence.
          eexists. split; [done|]. simpl. split; [done|]. split; [done|].
          right. set_solver. }
        destruct (decide (a = b)) as [->|Hne'].
        { rewrite Hn. eexists. split; [done|]. simpl. auto. }
        destruct (h !! a) as [n0|]; [|done].
        destruct Va as (n' & ? & ? & ? & Hpar). exists n'.
        split; [done|]. split; [done|]. split; [done|].
        destruct Hpar; [by left|right; simpl; set_solver].
      * apply (chain_snoc _ _ rl).
        -- apply (chain_ext h1); [|done|..].
           ++ apply path_up_NoDup; [done|tauto].
           ++ intros a Ha. apply path_up_elem_of in Ha. rewrite L3.
              case_decide as E; [subst a; by rewrite Hm|].
              rewrite decide_False; [done|]. intros ->.
              destruct Ha as [?|?]; [done|]. apply (Hlr b); [done|by left].
           ++ intros a Ha Hla. rewrite (path_up_last _ _ _ (rbnode.color nd)) in Hla.
              apply path_up_elem_of in Ha. rewrite L3.
              rewrite decide_False by (intros ->; by apply Hla).
              rewrite decide_False; [done|]. intros ->.
              destruct Ha as [?|?]; [done|]. apply (Hlr b); [done|by left].
        -- apply path_up_last.
        -- by rewrite L3, decide_True.
        -- left. by rewrite L3, decide_False, decide_True.
      * rewrite L3, decide_False, decide_True by done. by rewrite Hn.
    + destruct (IHr h (rbnode.right n) fuel) as (h1 & E1 & R1 & F1 & V1 & C1 & P1);
        [done|done|tauto|done|lia|].
      set (r' := place cmp r node (rbnode.color nd) (rbnode.key nd)) in *. set (rr := root_addr r') in *.
      assert (Hperm : addrs r' ≡ₚ node :: addrs r) by apply place_addrs.
      assert (Hrr : rr ∈ addrs r').
      { subst rr r'. destruct r; simpl; [set_solver|]. case_decide; set_solver. }
      assert (Hrrb : rr ≠ b).
      { intros ->. rewrite Hperm in Hrr. apply elem_of_cons in Hrr as [?|?]; done. }
      destruct (rep_lookup _ _ _ _ R1 Hrr) as (Hrr0 & m & Hm & _).
      assert (Hb1 : h1 !! b = Some n) by (by rewrite F1).
      rewrite E1. mstep. rewrite (wr_Ok _ _ _ _ Hb Hb1). mstep.
      rewrite (rd_Ok rbnode.right _ b (rbnode.set_right rr n) Hb)
        by apply lookup_insert_eq.
      mstep. simpl rbnode.right.
      rewrite (wr_Ok _ _ rr m Hrr0) by (by rewrite lookup_insert_ne).
      mstep. eexists. split; [reflexivity|].
      set (h3 := <[rr:=_]> (<[b:=_]> h1)).
      assert (L3 : ∀ a, h3 !! a =
                if decide (a = rr) then Some (rbnode.set_parent b m)
                else if decide (a = b) then Some (rbnode.set_right rr n)
                else h1 !! a).
      { intros a. subst h3.
        destruct (decide (a = rr)) as [->|?]; [by rewrite lookup_insert_eq|].
        rewrite lookup_insert_ne by done.
        destruct (decide (a = b)) as [->|?]; [by rewrite lookup_insert_eq|].
        by rewrite lookup_insert_ne. }
      simpl root_addr.
      split; [|split; [|split; [|split]]].
      * simpl. split; [done|]. split; [done|]. exists (rbnode.set_right rr n).
        rewrite L3, decide_False, decide_True by done.
        split; [done|]. split; [done|]. split; [done|]. simpl. split.
        -- apply (rep_ext h); [done|]. intros a Ha. rewrite L3.
           assert (a ∉ addrs r) by (intros ?; apply (Hlr a); [done|by right]).
           assert (a ≠ b) by (intros ->; apply (Hlr b); [done|by left]).
           assert (a ≠ node) by (intros ->; tauto).
           rewrite decide_False.
           2:{ intros ->. rewrite Hperm in Hrr.
               apply elem_of_cons in Hrr as [?|?]; done. }
           rewrite decide_False by done. by rewrite F1.
        -- apply (rep_ext h1); [done|]. intros a Ha. rewrite L3.
           case_decide as E; [subst a; by rewrite Hm|].
           rewrite decide_False; [done|]. intros ->.
           rewrite Hperm in Ha. apply elem_of_cons in Ha as [?|?]; done.
      * intros a Ha Hna. simpl in Hna. rewrite elem_of_app, elem_of_cons in Hna.
        rewrite L3, decide_False.
        2:{ intros ->. rewrite Hperm in Hrr.
            apply elem_of_cons in Hrr as [?|?]; tauto. }
        rewrite decide_False by tauto. apply F1; tauto.
      * unfold evolves in V1 |- *. intros a. pose proof (V1 a) as Va.
        rewrite L3.
        destruct (decide (a = rr)) as [Ha|Hne].
        { subst a. destruct (h !! rr) as [n0|]; [|congruence].
          destruct Va as (n' & Hn' & ? & ? & ?).
          assert (n' = m) as -> by congruence.
          eexists. split; [done|]. simpl. split; [done|]. split; [done|].
          right. set_solver. }
        destruct (decide (a = b)) as [->|Hne'].
        { rewrite Hn. eexists. split; [done|]. simpl. auto. }
        destruct (h !! a) as [n0|]; [|done].
        destruct Va as (n' & ? & ? & ? & Hpar). exists n'.
        split; [done|]. split; [done|]. split; [done|].
        destruct Hpar; [by left|right; simpl; set_solver].
      * apply (chain_snoc _ _ rr).
        -- apply (chain_ext h1); [|done|..].
           ++ apply path_up_NoDup; [done|tauto].
           ++ intros a Ha. apply path_up_elem_of in Ha. rewrite L3.
              case_decide as E; [subst a; by rewrite Hm|].
              rewrite decide_False; [done|]. intros ->.
              destruct Ha as [?|?]; done.
           ++ intros a Ha Hla. rewrite (path_up_last _ _ _ (rbnode.color nd)) in Hla.
              apply path_up_elem_of in Ha. rewrite L3.
              rewrite decide_False by (intros ->; by apply Hla).
              rewrite decide_False; [done|]. intros ->.
              destruct Ha as [?|?]; done.
        -- apply path_up_last.
        -- by rewrite L3, decide_True.
        -- right. by rewrite L3, decide_False, decide_True.
      * rewrite L3, decide_False, decide_True by done. by rewrite Hn.
Qed.

End Placement.
(** ** Fault-freedom of the insertion fixup *)

Section Closed.
Variable inS : ptr → Prop.

Lemma closed_insert (h : heap) a n' :
  closed inS h → node_ok inS n' → closed inS (<[a := n']> h).
Proof.
  intros Hcl Hn' b Hb. destruct (Hcl b Hb) as (Hb0 & n & Hn & Hok).
  split; [done|]. destruct (decide (b = a)) as [->|Hne].
  - exists n'. by rewrite lookup_insert_eq.
  - exists n. by rewrite lookup_insert_ne.
Qed.

Lemma node_ok_set_color c n : node_ok inS n → node_ok inS (rbnode.set_color c n).
Proof. done. Qed.

Lemma node_ok_set_parent p n :
  okptr inS p → node_ok inS n → node_ok inS (rbnode.set_parent p n).
Proof. intros ? (? & ? & ?). done. Qed.

Lemma node_ok_set_child d p n :
  okptr inS p → node_ok inS n → node_ok inS (set_child d p n).
Proof. intros ? (? & ? & ?). by destruct d. Qed.

Lemma node_ok_child d n : node_ok inS n → okptr inS (child d n).
Proof. intros (? & ? & ?). by destruct d. Qed.

Lemma mono_refl node pivot d (h : heap) : mono node pivot d h h.
Proof.
  intros a. destruct (h !! a) as [n|] eqn:E; [|done].
  exists n. split; [done|]. by split; [|split].
Qed.

Lemma mono_trans node pivot d (h1 h2 h3 : heap) :
  mono node pivot d h1 h2 → mono node pivot d h2 h3 → mono node pivot d h1 h3.
Proof.
  intros H12 H23 a. specialize (H12 a). specialize (H23 a).
  destruct (h1 !! a) as [n1|].
  - destruct H12 as (n2 & E2 & Hc & Hch & Hp). rewrite E2 in H23.
    destruct H23 as (n3 & E3 & Hc' & Hch' & Hp'). exists n3.
    split; [done|]. split; [congruence|]. split; [|by auto].
    intros e He Hne. by apply Hch', Hch.
  - by rewrite H12 in H23.
Qed.

Lemma mono_insert node pivot d (h : heap) a n n' :
  h !! a = Some n → keeps node pivot d a n n' →
  mono node pivot d h (<[a := n']> h).
Proof.
  intros Hn Hk b. destruct (decide (b = a)) as [->|Hne].
  - rewrite Hn, lookup_insert_eq. eauto.
  - rewrite lookup_insert_ne by done.
    destruct (h !! b) as [m|] eqn:E; [|done].
    exists m. split; [done|]. by split; [|split].
Qed.

End Closed.

Section Rotation.
Variable inS : ptr → Prop.

Lemma closed_lookup (h : heap) a :
  closed inS h → inS a →
  a ≠ NULL ∧ ∃ n, h !! a = Some n ∧ node_ok inS n.
Proof. intros Hcl. apply Hcl. Qed.

Lemma okptr_inS p : okptr inS p → p ≠ NULL → inS p.
Proof. by intros [?|?]. Qed.

Lemma ROTATE_TREE_ok d (h : heap) node root nn :
  closed inS h → inS node → inS root →
  h !! node = Some nn → child (revdir d) nn ≠ NULL →
  ∃ h' root',
    ROTATE_TREE d h node root = Ok (h', root') ∧
    closed inS h' ∧ inS root' ∧
    mono node (child (revdir d) nn) d h h'.
Proof.
  intros Hcl Hnode Hroot Hnn Hpiv.
  set (pivot := child (revdir d) nn) in *.
  destruct (closed_lookup _ _ Hcl Hnode) as (Hnode0 & nn' & Hnn' & Hnnok).
  assert (nn' = nn) as -> by congruence. clear Hnn'.
  assert (Hpivot : inS pivot).
  { apply okptr_inS; [|done]. by apply node_ok_child. }
  destruct (closed_lookup _ _ Hcl Hpivot) as (_ & np & Hnp & Hnpok).
  unfold ROTATE_TREE.
  rewrite (rd_Ok _ _ _ _ Hnode0 Hnn). mstep. fold pivot.
  rewrite (rd_Ok (child d) _ _ _ Hpiv Hnp). mstep.
  rewrite (wr_Ok _ _ _ _ Hnode0 Hnn). mstep.
  (* node->revdir = pivot->dir *)
  set (h1 := <[node := _]> h).
  assert (Hcl1 : closed inS h1).
  { apply closed_insert; [done|].
    apply node_ok_set_child; [by apply node_ok_child|done]. }
  assert (Hm1 : mono node pivot d h h1).
  { apply (mono_insert _ _ _ _ _ nn); [done|]. split; [by destruct d|]. split.
    - intros e [?|He]; [done|]. by destruct d, e.
    - by destruct d. }
  clearbody h1.
  (* if (NULL != pivot->dir) pivot->dir->parent = node *)
  destruct (closed_lookup _ _ Hcl1 Hpivot) as (_ & np1 & Hnp1 & Hnp1ok).
  rewrite (rd_Ok (child d) _ _ _ Hpiv Hnp1). mstep.
  assert (∃ h2, (if decide (child d np1 = NULL) then mret h1
                 else wr (rbnode.set_parent node) h1 (child d np1)) = Ok h2 ∧
                closed inS h2 ∧ mono node pivot d h1 h2)
    as (h2 & -> & Hcl2 & Hm2).
  { case_decide as Hpd.
    - exists h1. split; [done|]. split; [done|]. apply mono_refl.
    - assert (inS (child d np1)) as Hin
        by (apply okptr_inS; [by apply node_ok_child|done]).
      destruct (closed_lookup _ _ Hcl1 Hin) as (_ & nc & Hnc & Hncok).
      rewrite (wr_Ok _ _ _ _ Hpd Hnc). eexists. split; [done|]. split.
      + apply closed_insert; [done|].
        apply node_ok_set_parent; [by right|done].
      + apply (mono_insert _ _ _ _ _ nc); [done|].
        split; [done|]. split; [by intros [] ?|]. done. }
  mstep.
  assert (Hm12 := mono_trans _ _ _ _ _ _ Hm1 Hm2).
  (* pivot->parent = node->parent *)
  destruct (closed_lookup _ _ Hcl2 Hnode) as (_ & nn2 & Hnn2 & Hnn2ok).
  destruct (closed_lookup _ _ Hcl2 Hpivot) as (_ & np2 & Hnp2 & Hnp2ok).
  rewrite (rd_Ok rbnode.parent _ _ _ Hnode0 Hnn2). mstep.
  rewrite (wr_Ok _ _ _ _ Hpiv Hnp2). mstep.
  set (h3 := <[pivot := _]> h2).
  assert (Hcl3 : closed inS h3).
  { apply closed_insert; [done|]. apply node_ok_set_parent; [|done].
    by destruct Hnn2ok as (? & ? & ?). }
  assert (Hm3 : mono node pivot d h h3).
  { eapply mono_trans; [done|]. apply (mono_insert _ _ _ _ _ np2); [done|].
    split; [done|]. split; [by intros [] ?|]. done. }
  clearbody h3.
  (* the parent slot *)
  destruct (closed_lookup _ _ Hcl3 Hnode) as (_ & nn3 & Hnn3 & Hnn3ok).
  rewrite (rd_Ok rbnode.parent _ _ _ Hnode0 Hnn3). mstep.
  assert (∃ h4 root',
            (if decide (rbnode.parent nn3 = NULL) then mret (h3, pivot)
             else
               npl ← rd rbnode.left h3 (rbnode.parent nn3);
               if decide (node = npl)
               then h ← wr (rbnode.set_left pivot) h3 (rbnode.parent nn3);
                    mret (h, root)
               else h ← wr (rbnode.set_right pivot) h3 (rbnode.parent nn3);
                    mret (h, root)) = Ok (h4, root') ∧
            closed inS h4 ∧ inS root' ∧ mono node pivot d h3 h4)
    as (h4 & root' & -> & Hcl4 & Hroot' & Hm4).
  { case_decide as Hpar.
    - exists h3, pivot. split; [done|]. split; [done|]. split; [done|].
      apply mono_refl.
    - assert (inS (rbnode.parent nn3)) as Hin.
      { apply okptr_inS; [|done]. by destruct Hnn3ok as (? & ? & ?). }
      destruct (closed_lookup _ _ Hcl3 Hin) as (_ & ng & Hng & Hngok).
      rewrite (rd_Ok rbnode.left _ _ _ Hpar Hng). mstep.
      case_decide; rewrite (wr_Ok _ _ _ _ Hpar Hng); mstep;
        eexists _, root; (split; [done|]); (split; [|split; [done|]]).
      + apply closed_insert; [done|].
        apply (node_ok_set_child _ left); [by right|done].
      + apply (mono_insert _ _ _ _ _ ng); [done|].
        split; [done|]. split; [|done]. by intros [] ?.
      + apply closed_insert; [done|].
        apply (node_ok_set_child _ right); [by right|done].
      + apply (mono_insert _ _ _ _ _ ng); [done|].
        split; [done|]. split; [|done]. by intros [] ?. }
  mstep.
  assert (Hm34 := mono_trans _ _ _ _ _ _ Hm3 Hm4).
  (* pivot->dir = node *)
  destruct (closed_lookup _ _ Hcl4 Hpivot) as (_ & np4 & Hnp4 & Hnp4ok).
  rewrite (wr_Ok _ _ _ _ Hpiv Hnp4). mstep.
  eexists _, root'. split; [done|]. split; [|split; [done|]].
  - apply closed_insert; [done|]. apply node_ok_set_child; [by right|done].
  - eapply mono_trans; [done|]. apply (mono_insert _ _ _ _ _ np4); [done|].
    split; [by destruct d|]. split; [|by destruct d].
    intros e _. by destruct d, e.
Qed.

End Rotation.

Lemma alt_snoc (h : heap) l b :
  alt h l →
  (∀ y, last l = Some y → col h y = Some NODE_COLOR_RED →
        col h b = Some NODE_COLOR_BLACK) →
  alt h (l ++ [b]).
Proof.
  induction l as [|y [|z l'] IH]; intros Ha Hb; [done|..].
  - simpl. split; [|done]. by apply Hb.
  - destruct Ha as [? ?].
    change ((y :: z :: l') ++ [b]) with (y :: (z :: l') ++ [b]).
    simpl. split; [done|]. by apply IH.
Qed.

Lemma set_color_id n : rbnode.set_color (rbnode.color n) n = n.
Proof. by destruct n. Qed.

Lemma blackened_refl X (h : heap) : blackened X h h.
Proof.
  intros a. destruct (h !! a) as [n|] eqn:E; [|done].
  exists (rbnode.color n). rewrite set_color_id. auto.
Qed.

Lemma blackened_trans X (h1 h2 h3 : heap) :
  blackened X h1 h2 → blackened X h2 h3 → blackened X h1 h3.
Proof.
  intros H12 H23 a. specialize (H12 a). specialize (H23 a).
  destruct (h1 !! a) as [n1|].
  - destruct H12 as (c & E2 & Hc). rewrite E2 in H23.
    destruct H23 as (c' & E3 & Hc'). exists c'. split; [done|].
    simpl in Hc'. destruct Hc' as [->|[?|?]]; auto.
  - by rewrite H12 in H23.
Qed.

Lemma blackened_insert X (h : heap) a n c :
  h !! a = Some n → c = rbnode.color n ∨ c = NODE_COLOR_BLACK ∨ X a →
  blackened X h (<[a := rbnode.set_color c n]> h).
Proof.
  intros Hn Hc b. destruct (decide (b = a)) as [->|Hne].
  - rewrite Hn, lookup_insert_eq. eauto.
  - rewrite lookup_insert_ne by done.
    destruct (h !! b) as [m|] eqn:E; [|done].
    exists (rbnode.color m). rewrite set_color_id. auto.
Qed.

Lemma blackened_links X (h h' : heap) a :
  blackened X h h' →
  rbnode.parent <$> h' !! a = rbnode.parent <$> h !! a ∧
  rbnode.left <$> h' !! a = rbnode.left <$> h !! a ∧
  rbnode.right <$> h' !! a = rbnode.right <$> h !! a.
Proof.
  intros Hb. specialize (Hb a). destruct (h !! a) as [n|].
  - destruct Hb as (c & -> & _). done.
  - by rewrite Hb.
Qed.

Lemma blackened_col X (h h' : heap) a :
  blackened X h h' → ¬ X a →
  col h' a = col h a ∨ col h' a = Some NODE_COLOR_BLACK.
Proof.
  intros Hb Ha. specialize (Hb a). unfold col. destruct (h !! a) as [n|].
  - destruct Hb as (c & -> & [->|[->|?]]); simpl; auto. done.
  - rewrite Hb. auto.
Qed.

Lemma blackened_chain X (h h' : heap) l :
  blackened X h h' → chain h l → chain h' l.
Proof.
  intros Hb. induction l as [|x [|y l'] IH]; [done..|].
  intros (Hp & Hch & Hc). split; [|split; [|by apply IH]].
  - by destruct (blackened_links _ _ _ x Hb) as (-> & _).
  - by destruct (blackened_links _ _ _ y Hb) as (_ & -> & ->).
Qed.

Lemma blackened_alt X (h h' : heap) l :
  blackened X h h' → (∀ a, a ∈ l → ¬ X a) → alt h l → alt h' l.
Proof.
  intros Hb. induction l as [|y [|z l'] IH]; [done..|].
  intros HX (Hyz & Ha). split.
  - intros Hy.
    destruct (blackened_col _ _ _ y Hb) as [Ey|Ey]; [apply HX; set_solver|..];
      [|congruence].
    destruct (blackened_col _ _ _ z Hb) as [Ez|Ez]; [apply HX; set_solver|..];
      [|done].
    rewrite Ez. apply Hyz. by rewrite <-Ey.
  - apply IH; [|done]. intros a Hin. apply HX. set_solver.
Qed.

Lemma blackened_closed inS X (h h' : heap) :
  blackened X h h' → closed inS h → closed inS h'.
Proof.
  intros Hb Hcl a Ha. destruct (Hcl a Ha) as (? & n & Hn & Hok).
  split; [done|]. specialize (Hb a). rewrite Hn in Hb.
  destruct Hb as (c & -> & _). eauto using node_ok_set_color.
Qed.

Lemma revdir_involutive d : revdir (revdir d) = d.
Proof. by destruct d. Qed.

Section Fixup.
Variable inS : ptr → Prop.

Lemma SWAP_COLOR_ok (h : heap) a b na :
  closed inS h → inS a → inS b → h !! a = Some na →
  ∃ h', SWAP_COLOR h a b = Ok h' ∧ closed inS h' ∧
        col h' b = Some (rbnode.color na).
Proof.
  intros Hcl Ha Hb Hna.
  destruct (closed_lookup _ _ _ Hcl Ha) as (Ha0 & na' & Hna' & Hnaok).
  assert (na' = na) as -> by congruence.
  destruct (closed_lookup _ _ _ Hcl Hb) as (Hb0 & nb & Hnb & Hnbok).
  unfold SWAP_COLOR.
  rewrite (rd_Ok _ _ _ _ Ha0 Hna). mstep.
  rewrite (rd_Ok _ _ _ _ Hb0 Hnb). mstep.
  rewrite (wr_Ok _ _ _ _ Ha0 Hna). mstep.
  set (h1 := <[a := _]> h).
  assert (Hcl1 : closed inS h1) by (by apply closed_insert).
  destruct (closed_lookup _ _ _ Hcl1 Hb) as (_ & nb1 & Hnb1 & Hnb1ok).
  rewrite (wr_Ok _ _ _ _ Hb0 Hnb1). eexists. split; [done|]. split.
  - by apply closed_insert.
  - unfold col. by rewrite lookup_insert_eq.
Qed.

Lemma rotate_fix_ok d (h : heap) x P G root nP nG :
  closed inS h → inS root → inS x → inS P → inS G → x ≠ P → P ≠ G →
  h !! P = Some nP → rbnode.parent nP = G →
  h !! G = Some nG → child d nG = P →
  rbnode.color nG = NODE_COLOR_BLACK →
  ∃ h' x' root',
    rotate_fix d h x P G root = Ok (h', x', root') ∧
    closed inS h' ∧ inS root' ∧ inS x' ∧ col h' x' = Some NODE_COLOR_BLACK.
Proof.
  intros Hcl Hroot Hx HP HG HxP HPG HnP HpP HnG HcG HbG.
  destruct (closed_lookup _ _ _ Hcl Hx) as (Hx0 & _).
  destruct (closed_lookup _ _ _ Hcl HP) as (HP0 & _).
  destruct (closed_lookup _ _ _ Hcl HG) as (HG0 & _).
  unfold rotate_fix. rewrite (rd_Ok _ _ _ _ HP0 HnP). mstep.
  assert (∃ h1 root1 x1 q nG1,
            (if decide (x = child (revdir d) nP) then
               '(h, root) ← ROTATE_TREE d h P root;
               pp ← rd rbnode.parent h P;
               mret (h, root, P, pp)
             else mret (h, root, x, P)) = Ok (h1, root1, x1, q) ∧
            closed inS h1 ∧ inS root1 ∧ inS q ∧
            h1 !! G = Some nG1 ∧ child d nG1 ≠ NULL ∧
            rbnode.color nG1 = NODE_COLOR_BLACK)
    as (h1 & root1 & x1 & q & nG1 & -> & Hcl1 & Hroot1 & Hq & HnG1 & HcG1 & HbG1).
  { case_decide as Hpc.
    - destruct (ROTATE_TREE_ok inS d h P root nP) as (h1 & root1 & -> & Hcl1 & Hroot1 & Hm);
        [done|done|done|done|congruence|].
      mstep.
      pose proof (Hm P) as HmP. rewrite HnP in HmP.
      destruct HmP as (nP1 & HnP1 & _ & _ & HpP1).
      pose proof (Hm G) as HmG. rewrite HnG in HmG.
      destruct HmG as (nG1 & HnG1 & HcG1 & HchG1 & _).
      rewrite (rd_Ok _ _ _ _ HP0 HnP1). mstep.
      exists h1, root1, P, (rbnode.parent nP1), nG1. split; [done|].
      split; [done|]. split; [done|]. split.
      { destruct (closed_lookup _ _ _ Hcl1 HP) as (_ & nP1' & HnP1' & (_ & _ & Hok)).
        assert (nP1' = nP1) as -> by congruence.
        apply okptr_inS; [done|]. apply HpP1; congruence. }
      split; [done|]. split; [|congruence].
      apply HchG1; [left; congruence|congruence].
    - exists h, root, x, P, nG. split; [done|]. split; [done|].
      split; [done|]. split; [done|]. split; [done|].
      split; [congruence|done]. }
  mstep.
  destruct (ROTATE_TREE_ok inS (revdir d) h1 G root1 nG1)
    as (h2 & root2 & -> & Hcl2 & Hroot2 & Hm2);
    [done|done|done|done|by rewrite revdir_involutive|].
  mstep.
  pose proof (Hm2 G) as HmG. rewrite HnG1 in HmG.
  destruct HmG as (nG2 & HnG2 & HcG2 & _).
  destruct (SWAP_COLOR_ok h2 G q nG2) as (h3 & -> & Hcl3 & Hcq);
    [done..|].
  mstep. exists h3, q, root2. split; [done|]. split; [done|].
  split; [done|]. split; [done|]. congruence.
Qed.

Lemma wr_color_ok X (h : heap) a c :
  closed inS h → inS a → c = NODE_COLOR_BLACK ∨ X a →
  ∃ h', wr (rbnode.set_color c) h a = Ok h' ∧ closed inS h' ∧
        blackened X h h'.
Proof.
  intros Hcl Ha Hc.
  destruct (closed_lookup _ _ _ Hcl Ha) as (Ha0 & n & Hn & Hok).
  rewrite (wr_Ok _ _ _ _ Ha0 Hn). eexists. split; [done|]. split.
  - by apply closed_insert.
  - apply blackened_insert; [done|]. tauto.
Qed.

Lemma fixup_exit (h : heap) x root fuel :
  closed inS h → inS x → col h x = Some NODE_COLOR_BLACK →
  fixup_loop (S fuel) h x root = Ok (h, x, root).
Proof.
  intros Hcl Hx Hc.
  destruct (closed_lookup _ _ _ Hcl Hx) as (Hx0 & n & Hn & _).
  unfold col in Hc. rewrite Hn in Hc. injection Hc as Hc.
  simpl. unfold fixup_cond. case_decide; [done|].
  rewrite (rd_Ok rbnode.color _ _ _ Hx0 Hn). mstep. by rewrite decide_True.
Qed.

Lemma fixup_loop_ok fuel :
  ∀ rest (h : heap) x root,
    fix_inv inS h x rest root → (length rest < fuel)%nat →
    ∃ h' x' root',
      fixup_loop fuel h x root = Ok (h', x', root') ∧
      closed inS h' ∧ inS root'.
Proof.
  induction fuel as [|fuel IH];
    intros rest h x root (Hcl & Hin & Hnd & Hch & Hlast & Hrp & Halt & Hrb) Hf;
    [lia|].
  assert (Hroot : inS root).
  { rewrite Forall_forall in Hin. apply Hin.
    apply last_Some in Hlast as [l' ->]. set_solver. }
  simpl. unfold fixup_cond.
  destruct (decide (x = root)) as [->|Hxr]; [mstep; eauto 10|].
  destruct rest as [|P rest']; [simpl in Hlast; congruence|].
  apply Forall_cons in Hin as [Hx Hin].
  destruct (closed_lookup _ _ _ Hcl Hx) as (Hx0 & nx & Hnx & Hnxok).
  rewrite (rd_Ok rbnode.color _ _ _ Hx0 Hnx). mstep.
  case_decide as Hcx; [mstep; eauto 10|].
  destruct Hch as (HpP & _ & Hch). rewrite Hnx in HpP. injection HpP as HpP.
  rewrite (rd_Ok rbnode.parent _ _ _ Hx0 Hnx). mstep. rewrite HpP.
  apply Forall_cons in Hin as [HP Hin].
  destruct (closed_lookup _ _ _ Hcl HP) as (HP0 & nP & HnP & HnPok).
  rewrite (rd_Ok rbnode.color _ _ _ HP0 HnP). mstep.
  case_bool_decide as HcP; [|mstep; eauto 10].
  (* the loop body *)
  unfold fixup_body.
  rewrite (rd_Ok rbnode.parent _ _ _ Hx0 Hnx). mstep. rewrite HpP.
  assert (P ≠ root) as HPr.
  { intros ->. specialize (Hrb ltac:(done)). unfold col in Hrb.
    rewrite HnP in Hrb. simpl in Hrb. congruence. }
  destruct rest' as [|G rest'']; [simpl in Hlast; congruence|].
  destruct Hch as (HpG & HchG & Hch). rewrite HnP in HpG. injection HpG as HpG.
  rewrite (rd_Ok rbnode.parent _ _ _ HP0 HnP). mstep. rewrite HpG.
  apply Forall_cons in Hin as [HG Hin].
  destruct (closed_lookup _ _ _ Hcl HG) as (HG0 & nG & HnG & HnGok).
  rewrite HnG in HchG. simpl in HchG.
  destruct Halt as (HaltG & Halt).
  assert (HcG : rbnode.color nG = NODE_COLOR_BLACK).
  { unfold col in HaltG. rewrite HnP, HnG in HaltG. simpl in HaltG.
    rewrite HcP in HaltG. by injection (HaltG eq_refl). }
  apply NoDup_cons in Hnd as (HxN & Hnd).
  apply NoDup_cons in Hnd as (HPN & Hnd).
  apply NoDup_cons in Hnd as (HGN & Hnd).
  assert (x ≠ P) by set_solver. assert (P ≠ G) by set_solver.
  rewrite !(rd_Ok _ _ _ _ HG0 HnG). mstep.
  (* which child the parent is, and the uncle *)
  set (isleft := bool_decide (P = rbnode.left nG)).
  set (uncle := if isleft then rbnode.right nG else rbnode.left nG).
  assert ((if decide (P = rbnode.left nG)
           then mret (rbnode.right nG, true)
           else mret (rbnode.left nG, false)) = Ok (uncle, isleft)) as ->.
  { subst uncle isleft. by case_decide; [rewrite bool_decide_true|rewrite bool_decide_false]. }
  mstep.
  assert (Huncle : okptr inS uncle).
  { subst uncle. destruct HnGok as (? & ? & ?). by destruct isleft. }
  assert (HchildG : child (if isleft then left else right) nG = P).
  { subst isleft. case_bool_decide as E; simpl; [done|].
    destruct HchG as [[= ?]|[= ?]]; congruence. }
  destruct (decide (uncle = NULL)) as [HU0|HU0].
  2: destruct (closed_lookup _ _ _ Hcl (okptr_inS _ _ Huncle HU0))
       as (_ & nU & HnU & HnUok);
     rewrite (rd_Ok rbnode.color _ _ _ HU0 HnU); mstep;
     case_bool_decide as HcU.
  2:{ (* uncle RED: recolour and move up *)
    mstep.
    pose (X := λ a : ptr, a = G).
    destruct (wr_color_ok X h G NODE_COLOR_RED) as (h1 & -> & Hcl1 & Hb1);
      [done|done|by right|]. mstep.
    destruct (wr_color_ok X h1 uncle NODE_COLOR_BLACK) as (h2 & -> & Hcl2 & Hb2);
      [done|by apply okptr_inS|by left|]. mstep.
    destruct (wr_color_ok X h2 P NODE_COLOR_BLACK) as (h3 & -> & Hcl3 & Hb3);
      [done|done|by left|]. mstep.
    assert (Hb : blackened X h h3) by eauto using blackened_trans.
    apply (IH rest''); [|simpl in Hf; lia].
    split; [done|]. split; [by apply Forall_cons|].
    split; [by apply NoDup_cons|].
    split; [by eapply blackened_chain|]. split; [done|].
    split; [by destruct (blackened_links _ _ _ root Hb) as (-> & _)|].
    split.
    - eapply blackened_alt; [done| |by destruct rest''; [|apply Halt]].
      intros a Ha ->. done.
    - intros Hne.
      assert (root ∈ rest'') as Hr.
      { change (last (x :: P :: G :: rest'')) with (last (G :: rest'')) in Hlast.
        destruct rest'' as [|z l'']; [done|].
        change (last (G :: z :: l'')) with (last (z :: l'')) in Hlast.
        apply last_Some in Hlast as [l' ->]. set_solver. }
      destruct (blackened_col X h h3 root Hb) as [E|E];
        [by intros ->| |done].
      rewrite E. by apply Hrb. }
  all: mstep.
  all: assert (Hrot : ∃ h' x' root',
           rotate_fix (if isleft then left else right) h x P G root
             = Ok (h', x', root') ∧
           closed inS h' ∧ inS root' ∧ inS x' ∧
           col h' x' = Some NODE_COLOR_BLACK)
      by (by apply (rotate_fix_ok _ _ _ _ _ _ nP nG)).
  all: destruct Hrot as (h' & x' & root' & Hrot & Hcl' & Hroot' & Hx' & Hcx').
  all: destruct fuel as [|fuel]; [simpl in Hf; lia|].
  all: destruct isleft;
    [change (rd rbnode.right h P ≫= _) with (rotate_fix left h x P G root)
    |change (rd rbnode.left h P ≫= _) with (rotate_fix right h x P G root)].
  all: rewrite Hrot; mstep.
  all: rewrite fixup_exit by done; eauto 10.
Qed.

End Fixup.

Lemma alt_ext (h h' : heap) l :
  (∀ a, a ∈ l → col h' a = col h a) → alt h l → alt h' l.
Proof.
  induction l as [|y [|z l'] IH]; [done..|].
  intros Hcol (Hyz & Ha). split.
  - rewrite !Hcol by set_solver. done.
  - apply IH; [|done]. intros a Hin. apply Hcol. set_solver.
Qed.

Lemma descent_length cmp t k : (length (descent cmp t k) ≤ height t)%nat.
Proof.
  induction t as [|b cb x l IHl r IHr]; simpl; [done|].
  case_decide; lia.
Qed.

Lemma descent_alt cmp k t :
  ∀ (h : heap) p, rep h p t → inv_colors t → inv_red t →
    alt h (reverse (descent cmp t k).*1).
Proof.
  induction t as [|b cb x l IHl r IHr]; intros h p Hrep Hcol Hred; [done|].
  destruct Hrep as (-> & Hb & n & Hn & Hc & Hk & Hl & Hr).
  destruct Hcol as (Hcb & Hcl & Hcr). destruct Hred as (Hrb & Hrl & Hrr).
  simpl. rewrite reverse_cons.
  assert (Hroot : ∀ s q y, rep h q s →
            head (descent cmp s k).*1 = Some y →
            col h y = Some NODE_COLOR_RED → root_color s = Some NODE_COLOR_RED).
  { intros [|a ca xa la ra] q y; [done|]. simpl.
    intros (_ & _ & m & Hm & Hcm & _) [= <-]. unfold col. rewrite Hm. simpl.
    by rewrite Hcm. }
  assert (Hblack : ∀ s q y, rep h q s → (s = l ∨ s = r) →
            last (reverse (descent cmp s k).*1) = Some y →
            col h y = Some NODE_COLOR_RED → col h b = Some NODE_COLOR_BLACK).
  { intros s q y Hs Hlr Hlast Hy. rewrite last_reverse in Hlast.
    pose proof (Hroot _ _ _ Hs Hlast Hy) as Hrc.
    unfold col. rewrite Hn. simpl. rewrite Hc. f_equal.
    destruct Hcb as [-> | ->]; [|done]. exfalso.
    destruct (Hrb eq_refl) as [? ?]. destruct Hlr as [-> | ->]; done. }
  destruct (decide (0 < cmp x k)); apply alt_snoc; eauto.
Qed.

Lemma insertRbNode_valid_Ok st t node fuel :
  valid_tree st t → node ≠ NULL → node ∉ addrs t →
  initialised (mem st) node → (height t < fuel)%nat →
  ∃ st', insertRbNode fuel st node = Ok (st', 0) ∧
         rbtree.size (tree st') = rbtree.size (tree st) ∧
         rbtree.comparer (tree st') = rbtree.comparer (tree st) ∧
         rbtree.rb_offset (tree st') = rbtree.rb_offset (tree st).
Proof.
  intros [Hrep Hnd Hpar Hrpar (Hcol & Hroot & Hred & _ & _)] Hnode Hfresh [key Hinit] Hf.
  set (nd := rbnode.mk NODE_COLOR_RED NULL NULL NULL key) in *.
  set (cmp := rbtree.comparer (tree st)) in *.
  set (h := mem st) in *.
  destruct (BstInsert_exec cmp node nd Hnode eq_refl eq_refl t h
              (rbtree.root (tree st)) fuel)
    as (h1 & E1 & R1 & F1 & V1 & C1 & P1); [done..|].
  unfold insertRbNode. fold h cmp. rewrite E1. mstep.
  set (t' := place cmp t node (rbnode.color nd) (rbnode.key nd)) in *.
  set (inS := λ a : ptr, a ∈ node :: addrs t).
  assert (Hperm : addrs t' ≡ₚ node :: addrs t) by apply place_addrs.
  assert (Hcl : closed inS h1).
  { intros a Ha. unfold inS in Ha.
    assert (a ∈ addrs t') as Ha' by (by rewrite Hperm).
    destruct (rep_lookup _ _ _ _ R1 Ha') as (Ha0 & n' & Hn' & Hl & Hr).
    split; [done|]. exists n'. split; [done|].
    rewrite Hperm in Hl, Hr. split; [done|]. split; [done|].
    pose proof (V1 a) as Va. apply elem_of_cons in Ha as [->|Ha].
    - rewrite Hinit in Va. destruct Va as (n'' & Hn'' & _ & _ & Hp).
      assert (n'' = n') as -> by congruence.
      destruct Hp as [->|Hp]; [by left|]. right. by right.
    - destruct (rep_lookup _ _ _ _ Hrep Ha) as (_ & n & Hn & _).
      rewrite Hn in Va. destruct Va as (n'' & Hn'' & _ & _ & Hp).
      assert (n'' = n') as -> by congruence.
      destruct Hp as [->|Hp]; [|right; by right].
      destruct (Hpar _ _ Ha Hn) as [?|?]; [by left|right; by right]. }
  assert (Hcol1 : ∀ a, col h1 a = col h a).
  { intros a. pose proof (V1 a) as Va. unfold col.
    destruct (h !! a) as [n|]; [|by rewrite Va].
    destruct Va as (n' & -> & Hc' & _). simpl. by rewrite Hc'. }
  destruct (fixup_loop_ok inS fuel (reverse (descent cmp t (rbnode.key nd)).*1)
              h1 node (root_addr t'))
    as (h2 & x' & root2 & -> & Hcl2 & Hroot2).
  { split; [done|]. split.
    { apply Forall_forall. intros a Ha.
      by apply (path_up_elem_of cmp t node (rbnode.key nd)), elem_of_cons in Ha. }
    split; [by apply (path_up_NoDup cmp t node (rbnode.key nd))|].
    split; [done|]. split; [apply path_up_last|].
    split.
    { rewrite P1. subst t'. rewrite place_root. destruct t; [by rewrite Hinit|].
      rewrite <-(rep_root _ _ _ Hrep). by apply Hrpar. }
    split.
    { apply (alt_ext h); [done|]. by eapply descent_alt. }
    intros Hne. rewrite Hcol1. subst t'. rewrite place_root.
    destruct t as [|b cb x l r]; [done|].
    destruct Hrep as (_ & _ & n & Hn & Hc & _). unfold col. simpl.
    rewrite Hn. simpl. by rewrite Hc, Hroot. }
  { rewrite length_reverse, length_fmap.
    pose proof (descent_length cmp t (rbnode.key nd)). lia. }
  mstep.
  destruct (closed_lookup _ _ _ Hcl2 Hroot2) as (Hr0 & nr & Hnr & _).
  rewrite (wr_Ok _ _ _ _ Hr0 Hnr). mstep. eexists. split; [done|]. done.
Qed.

(** ** Reading memory back, checking validity *)

Lemma tree_of_rep fuel :
  ∀ (h : heap) p t, tree_of fuel h p = Ok t → rep h p t.
Proof.
  induction fuel as [|fuel IH]; intros h p t; [done|]. simpl.
  case_decide as Hp; [by intros [= <-]|].
  destruct (load h p) as [n| |] eqn:Hn; [|done..]. mstep.
  apply load_inv in Hn as [_ Hn].
  destruct (tree_of fuel h (rbnode.left n)) as [l| |] eqn:Hl; [|done..]. mstep.
  destruct (tree_of fuel h (rbnode.right n)) as [r| |] eqn:Hr; [|done..]. mstep.
  intros [= <-]. simpl. split; [done|]. split; [done|]. exists n. auto 10.
Qed.
Lemma inv_black_height_counts t n :
  Forall (λ x, x = n) (black_counts t) → inv_black_height t.
Proof.
  intros H x y Hx Hy. rewrite Forall_forall in H.
  by rewrite (H x Hx), (H y Hy).
Qed.

(** A valid tree from facts that can be checked by evaluation. *)
Lemma valid_tree_check st t fuel :
  tree_of fuel (mem st) (rbtree.root (tree st)) = Ok t →
  NoDup (addrs t) →
  Forall (λ a, match mem st !! a with
               | Some n => rbnode.parent n = NULL ∨ rbnode.parent n ∈ addrs t
               | None => True
               end) (addrs t) →
  (t ≠ Leaf → rbnode.parent <$> mem st !! rbtree.root (tree st) = Some NULL) →
  rb_invariants (rbtree.comparer (tree st)) t →
  valid_tree st t.
Proof.
  intros Ht Hnd Hpar Hroot Hinv. split; [by eapply tree_of_rep|done| |done..].
  intros a n Ha Hn. rewrite Forall_forall in Hpar. specialize (Hpar a Ha).
  by rewrite Hn in Hpar.
Qed.

Lemma intcomparer_antisymmetric ints : antisymmetric (intcomparer ints).
Proof.
  intros x y. unfold intcomparer. simpl.
  repeat case_decide; lia.
Qed.

(** ** Position of the new node in the in-order sequence *)

Lemma before_app_l b a l l' : before b a l → before b a (l ++ l').
Proof.
  intros (l1 & l2 & l3 & ->). exists l1, l2, (l3 ++ l').
  by rewrite <-!app_assoc, <-!app_comm_cons, <-!app_assoc.
Qed.

Lemma before_app_r b a l l' : before b a l → before b a (l' ++ l).
Proof.
  intros (l1 & l2 & l3 & ->). exists (l' ++ l1), l2, l3.
  by rewrite <-!app_assoc.
Qed.

Lemma before_left b a l r : a ∈ l → before a b (l ++ b :: r).
Proof.
  intros (l1 & l2 & ->)%list_elem_of_split. exists l1, l2, r.
  by rewrite <-app_assoc.
Qed.

Lemma before_right b a l r : a ∈ r → before b a (l ++ b :: r).
Proof.
  intros (l1 & l2 & ->)%list_elem_of_split. by exists l, l1, l2.
Qed.

Lemma place_elem_of cmp t a c k : a ∈ addrs (place cmp t a c k).
Proof. rewrite place_addrs. by left. Qed.

Lemma place_before cmp t node c k :
  ∀ b x, (b, x) ∈ descent cmp t k →
    (0 < cmp x k → before node b (addrs (place cmp t node c k))) ∧
    (¬ 0 < cmp x k → before b node (addrs (place cmp t node c k))).
Proof.
  induction t as [|a ca y l IHl r IHr]; intros b x Hin; simpl in Hin.
  - by apply elem_of_nil in Hin.
  - simpl. apply elem_of_cons in Hin as [[= -> ->]|Hin].
    + destruct (decide (0 < cmp y k)); simpl; split; try done; intros _.
      * apply before_left, place_elem_of.
      * apply before_right, place_elem_of.
    + destruct (decide (0 < cmp y k)); simpl.
      * destruct (IHl _ _ Hin) as [H1 H2].
        split; intros ?; apply before_app_l; auto.
      * destruct (IHr _ _ Hin) as [H1 H2].
        split; intros ?; rewrite cons_middle, app_assoc;
          apply before_app_r; auto.
Qed.

Lemma place_link_parent cmp t node nd (h h' : heap) :
  t ≠ Leaf → placed cmp node nd t h h' →
  rbnode.parent <$> h' !! node = Some (link_parent cmp t (rbnode.key nd)).
Proof.
  intros Ht (_ & _ & _ & Hch & _). unfold path_up in Hch. unfold link_parent.
  destruct (descent cmp t (rbnode.key nd)) as [|e d] eqn:Hd using rev_ind.
  { destruct t; [done|]. simpl in Hd. by destruct (decide (0 < cmp k (rbnode.key nd))). }
  rewrite last_snoc. rewrite fmap_app, reverse_app in Hch. simpl in Hch.
  by destruct Hch as [? _].
Qed.

(** ** The size field *)

Lemma insertRbNode_size fuel st node st' r :
  insertRbNode fuel st node = Ok (st', r) →
  r = 0 ∧ rbtree.size (tree st') = rbtree.size (tree st).
Proof.
  unfold insertRbNode.
  destruct (BstInsert _ _ _ _ _) as [[h root]| |]; [|done..]. mstep.
  destruct (fixup_loop _ _ _ _) as [[[h' x] root']| |]; [|done..]. mstep.
  destruct (wr _ _ _) as [h''| |]; [|done..]. mstep.
  by intros [= <- <-].
Qed.

Lemma deleteRbNode_size fuel st node st' :
  deleteRbNode fuel st node = Ok st' →
  rbtree.size (tree st') = rbtree.size (tree st).
Proof.
  unfold deleteRbNode.
  destruct (BstDelete _ _ _ _) as [[h r]| |]; [|done..].
  by intros [= <-].
Qed.

Lemma run_size fuel cs :
  ∀ st st', run fuel st cs = Ok st' →
            rbtree.size (tree st') = rbtree.size (tree st).
Proof.
  induction cs as [|[node|node] cs IH]; intros st st'; simpl.
  - by intros [= <-].
  - destruct (insertRbNode fuel st node) as [[st1 r]| |] eqn:E; [|done..].
    mstep. intros H. apply IH in H. apply insertRbNode_size in E as [_ E].
    congruence.
  - destruct (deleteRbNode fuel st node) as [st1| |] eqn:E; [|done..].
    mstep. intros H. apply IH in H. apply deleteRbNode_size in E. congruence.
Qed.

(** ** Deleting a leaf *)

Lemma rd_None {A} (f : rbnode.t → A) (h : heap) p :
  h !! p = None → rd f h p = Fault.
Proof. intros H. unfold rd, load. case_decide; [done|]. by rewrite H. Qed.

(** Deleting a leaf that has a parent always ends in a null dereference:
    after case 1 has unlinked the leaf, control falls into case 2, which
    stores [NULL] into [parent->right] and then writes through it. *)
Lemma BstDelete_leaf_Fault fuel (h : heap) root node n :
  node ≠ NULL → h !! node = Some n →
  rbnode.left n = NULL → rbnode.right n = NULL → rbnode.parent n ≠ NULL →
  BstDelete fuel h root node = Fault.
Proof.
  intros Hnode Hn Hl Hr Hp. unfold BstDelete.
  rewrite (rd_Ok rbnode.left _ _ _ Hnode Hn), Hl. mstep.
  rewrite decide_True by done.
  rewrite (rd_Ok rbnode.right _ _ _ Hnode Hn), Hr. mstep.
  rewrite bool_decide_true by done. mstep.
  rewrite (rd_Ok rbnode.parent _ _ _ Hnode Hn). mstep.
  rewrite decide_False by done.
  set (par := rbnode.parent n) in *.
  destruct (h !! par) as [np|] eqn:Hnp.
  2:{ by rewrite (rd_None rbnode.left _ _ Hnp). }
  rewrite (rd_Ok rbnode.left _ _ _ Hp Hnp). mstep.
  (* the heap after case 1 *)
  assert (∃ np1 : rbnode.t,
            (if decide (node = rbnode.left np)
             then h ← wr (rbnode.set_left NULL) h par; mret (Some h)
             else h ← wr (rbnode.set_right NULL) h par; mret (Some h))
              = Ok (Some (<[par := np1]> h)) ∧
            rbnode.left np1 ≠ node ∧ rbnode.parent np1 = rbnode.parent np ∧
            (rbnode.left np = NULL → rbnode.left np1 = NULL) ∧
            (rbnode.right np = NULL → rbnode.right np1 = NULL))
    as (np1 & -> & Hl1 & Hp1 & Hl1' & Hr1').
  { case_decide as E; rewrite (wr_Ok _ _ _ _ Hp Hnp); mstep; eexists;
      (split; [done|]); simpl; repeat split; auto; congruence. }
  mstep. set (h1 := <[par := np1]> h).
  assert (∃ n1, h1 !! node = Some n1 ∧ rbnode.left n1 = NULL ∧
                rbnode.right n1 = NULL ∧ rbnode.parent n1 = par)
    as (n1 & Hn1 & Hn1l & Hn1r & Hn1p).
  { subst h1. destruct (decide (node = par)) as [E|E].
    - exists np1. rewrite <-E, lookup_insert_eq. split; [done|].
      assert (np = n) as -> by congruence. rewrite Hp1. auto.
    - exists n. rewrite lookup_insert_ne by done. auto. }
  assert (Hpar1 : h1 !! par = Some np1) by apply lookup_insert_eq.
  rewrite !(rd_Ok rbnode.left _ _ _ Hnode Hn1), Hn1l. mstep.
  rewrite decide_True by done. mstep.
  rewrite (rd_Ok rbnode.parent _ _ _ Hnode Hn1), Hn1p. mstep.
  rewrite (rd_Ok rbnode.left _ _ _ Hp Hpar1). mstep.
  rewrite decide_False by done.
  rewrite (rd_Ok rbnode.right _ _ _ Hnode Hn1), Hn1r. mstep.
  rewrite (wr_Ok _ _ _ _ Hp Hpar1). mstep.
  rewrite (rd_Ok rbnode.right _ par (rbnode.set_right NULL np1) Hp)
    by apply lookup_insert_eq.
  reflexivity.
Qed.

(** ** What a rotation does to [node->parent] *)

Lemma wr_parent_frame upd (h h' : heap) a node :
  wr upd h a = Ok h' →
  a ≠ node ∨ (∀ n, rbnode.parent (upd n) = rbnode.parent n) →
  rbnode.parent <$> h' !! node = rbnode.parent <$> h !! node.
Proof.
  intros (_ & n & Hn & ->)%wr_inv Hor.
  destruct (decide (a = node)) as [->|Hne].
  - rewrite lookup_insert_eq, Hn. simpl. destruct Hor as [?|H]; [done|].
    by rewrite H.
  - by rewrite lookup_insert_ne.
Qed.

(** [ROTATE_TREE] never assigns [node->parent]: where the pivot and its
    [dir] child are other nodes than [node], as in every tree, [node] ends
    up as the pivot's [dir] child with its old parent link. *)
Lemma ROTATE_TREE_node_parent d (h h' : heap) node root root' nn np :
  h !! node = Some nn → h !! child (revdir d) nn = Some np →
  child (revdir d) nn ≠ node → child d np ≠ node →
  ROTATE_TREE d h node root = Ok (h', root') →
  rbnode.parent <$> h' !! node = Some (rbnode.parent nn) ∧
  child d <$> h' !! child (revdir d) nn = Some node.
Proof.
  intros Hnn Hnp Hpn Hpdn. set (pivot := child (revdir d) nn) in *.
  unfold ROTATE_TREE.
  destruct (decide (node = NULL)) as [->|Hnode]; [done|].
  destruct (decide (pivot = NULL)) as [Hp0|Hpiv].
  { rewrite (rd_Ok _ _ _ _ Hnode Hnn). mstep. fold pivot. by rewrite Hp0. }
  rewrite (rd_Ok _ _ _ _ Hnode Hnn). mstep. fold pivot.
  rewrite (rd_Ok (child d) _ _ _ Hpiv Hnp). mstep.
  destruct (wr _ h node) as [h1| |] eqn:E1; [|done..]. mstep.
  pose proof (wr_parent_frame _ _ _ _ node E1) as F1.
  apply wr_inv in E1 as (_ & ? & ? & ->).
  rewrite (rd_Ok (child d) _ pivot np Hpiv) by (by rewrite lookup_insert_ne).
  mstep.
  match goal with
  | |- context [?X ≫= _] =>
    match X with
    | (if _ then _ else _) => destruct X as [h2| |] eqn:E2; [|done..]
    end
  end.
  mstep.
  destruct (rd rbnode.parent h2 node) as [p2| |] eqn:Ep2; [|done..]. mstep.
  destruct (wr _ h2 pivot) as [h3| |] eqn:E3; [|done..]. mstep.
  destruct (rd rbnode.parent h3 node) as [p3| |] eqn:Ep3; [|done..]. mstep.
  match goal with
  | |- context [?X ≫= _] =>
    match X with
    | (if _ then _ else _) => destruct X as [[h4 r4]| |] eqn:E4; [|done..]
    end
  end.
  mstep.
  destruct (wr _ h4 pivot) as [h5| |] eqn:E5; [|done..]. mstep.
  intros [= <- <-].
  assert (F2 : rbnode.parent <$> h2 !! node = rbnode.parent <$> <[node:=set_child (revdir d) (child d np) x]> h !! node).
  { destruct (decide (child d np = NULL)); [simpl in E2; by injection E2 as <-|].
    apply (wr_parent_frame _ _ _ _ node) in E2; [done|by left]. }
  assert (F3 := wr_parent_frame _ _ _ _ node E3 (or_introl Hpn)).
  assert (F4 : rbnode.parent <$> h4 !! node = rbnode.parent <$> h3 !! node).
  { destruct (decide (p3 = NULL)); [simpl in E4; by injection E4 as <- _|].
    destruct (rd rbnode.left h3 p3) as [npl| |]; [|done..].
    cbn [mbind mret result_bind result_ret] in E4.
    destruct (decide (node = npl)).
    - destruct (wr _ h3 p3) as [h4'| |] eqn:E4'; [|done..].
      simpl in E4. injection E4 as <- _.
      apply (wr_parent_frame _ _ _ _ node) in E4'; [done|by right].
    - destruct (wr _ h3 p3) as [h4'| |] eqn:E4'; [|done..].
      simpl in E4. injection E4 as <- _.
      apply (wr_parent_frame _ _ _ _ node) in E4'; [done|by right]. }
  assert (F5 := wr_parent_frame _ _ _ _ node E5 (or_introl Hpn)).
  split.
  - rewrite F5, F4, F3, F2, F1, Hnn; [done|]. right. by destruct d.
  - apply wr_inv in E5 as (_ & ? & ? & ->). rewrite lookup_insert_eq.
    by destruct d.
Qed.

(** ** The offset mechanism *)

(** [RBTREE_SEARCH] gives back the enclosing record whenever the search
    finds the node embedded in it, and [NULL] whenever the search does. *)
Lemma RBTREE_SEARCH_container fuel st key elem :
  0 ≤ elem < 2 ^ 64 →
  elem + rbtree.rb_offset (tree st) ≠ NULL →
  searchKey fuel st key = Ok (elem + rbtree.rb_offset (tree st)) →
  RBTREE_SEARCH fuel st key = Ok elem.
Proof.
  intros Helem Hnode. unfold searchKey, RBTREE_SEARCH. intros ->. mstep.
  rewrite decide_False by done. f_equal.
  replace (elem + rbtree.rb_offset (tree st) - rbtree.rb_offset (tree st))
    with elem by lia.
  by apply Z.mod_small.
Qed.

Lemma RBTREE_SEARCH_not_found fuel st key :
  searchKey fuel st key = Ok NULL → RBTREE_SEARCH fuel st key = Ok NULL.
Proof. unfold searchKey, RBTREE_SEARCH. by intros ->. Qed.

(** ** Running the intrusive scenario on symbolic addresses *)

(** Resolve the tests and memory accesses of straight-line code whose
    addresses are variables known to differ. *)
Ltac triv :=
  solve [assumption | symmetry; assumption | reflexivity | discriminate].

Ltac sym :=
  repeat first
    [ progress cbn [mbind mret result_bind result_ret fst snd
                    rbnode.color rbnode.left rbnode.right rbnode.parent rbnode.key
                    rbnode.set_color rbnode.set_left rbnode.set_right rbnode.set_parent
                    child set_child revdir tree mem rbtree.root rbtree.comparer rbtree.rb_offset set_root]
    | rewrite lookup_insert_eq
    | rewrite lookup_insert_ne by triv
    | rewrite decide_True by triv
    | rewrite decide_False by triv
    | rewrite bool_decide_true by triv
    | rewrite bool_decide_false by triv ].

Lemma foocomparer_lt ints x y a b :
  ints !! x = Some a → ints !! y = Some b → a < b → foocomparer ints x y < 0.
Proof.
  intros Hx Hy ?. unfold foocomparer. rewrite Hx, Hy. simpl.
  repeat case_decide; lia.
Qed.

Lemma foocomparer_gt ints x y a b :
  ints !! x = Some a → ints !! y = Some b → b < a → 0 < foocomparer ints x y.
Proof.
  intros Hx Hy ?. unfold foocomparer. rewrite Hx, Hy. simpl.
  repeat case_decide; lia.
Qed.

Lemma foocomparer_eq ints x y a :
  ints !! x = Some a → ints !! y = Some a → foocomparer ints x y = 0.
Proof.
  intros Hx Hy. unfold foocomparer. rewrite Hx, Hy. simpl.
  by rewrite decide_True.
Qed.

(** ** The comparators of the driver *)

Lemma intcomparer_comparator ints : comparator (intcomparer ints).
Proof.
  split; intros x y; [|intros z]; unfold intcomparer; simpl;
    repeat case_decide; lia.
Qed.

Lemma foocomparer_comparator ints : comparator (foocomparer ints).
Proof.
  split; intros x y; [|intros z]; unfold foocomparer; simpl;
    repeat case_decide; lia.
Qed.

Lemma comparator_zero cmp x y : comparator cmp → cmp x y = 0 → cmp y x = 0.
Proof.
  intros [Hflip _] H. pose proof (Hflip x y). pose proof (Hflip y x). lia.
Qed.

Lemma comparator_ge cmp x y : comparator cmp → 0 ≤ cmp x y → cmp y x ≤ 0.
Proof. intros [Hflip _] H. pose proof (Hflip y x). lia. Qed.

Lemma comparator_le cmp x y : comparator cmp → cmp x y ≤ 0 → 0 ≤ cmp y x.
Proof. intros [Hflip _] H. pose proof (Hflip x y). lia. Qed.

(** ** Traversal *)

Lemma InorderTraversal_rep t :
  ∀ (h : heap) p fuel, rep h p t → (height t < fuel)%nat →
    InorderTraversal fuel h p = Ok (inorder t).
Proof.
  induction t as [|a c x l IHl r IHr]; intros h p fuel Hrep Hf.
  - simpl in Hrep. subst p. destruct fuel; [lia|]. reflexivity.
  - destruct Hrep as (-> & Ha & n & Hn & Hc & Hk & Hl & Hr).
    destruct fuel as [|fuel]; [lia|]. simpl in Hf.
    simpl. rewrite decide_False by done.
    rewrite !(rd_Ok _ _ _ _ Ha Hn). mstep.
    rewrite (IHl _ _ fuel Hl) by lia. mstep.
    rewrite (IHr _ _ fuel Hr) by lia. mstep.
    by rewrite Hc, Hk.
Qed.

Lemma inorder_keys t : (inorder t).*2 = keys t.
Proof.
  induction t as [|a c x l IHl r IHr]; [done|].
  simpl. by rewrite fmap_app, fmap_cons, IHl, IHr.
Qed.

Lemma nondecreasing_app cmp l k r :
  nondecreasing cmp l → nondecreasing cmp (k :: r) →
  (∀ x, last l = Some x → cmp x k ≤ 0) →
  nondecreasing cmp (l ++ k :: r).
Proof.
  induction l as [|x [|y l'] IH]; intros Hl Hr Hlast; [done|..].
  - simpl. split; [by apply Hlast|done].
  - destruct Hl as [Hxy Hl].
    change ((x :: y :: l') ++ k :: r) with (x :: y :: (l' ++ k :: r)).
    split; [done|]. apply IH; [done|done|]. intros z Hz. by apply Hlast.
Qed.

Lemma inv_order_nondecreasing cmp t :
  (∀ x y, 0 ≤ cmp x y → cmp y x ≤ 0) →
  inv_order cmp t → nondecreasing cmp (keys t).
Proof.
  intros Hge. induction t as [|a c k l IHl r IHr]; [done|].
  intros (Hlk & Hrk & Hl & Hr). simpl. apply nondecreasing_app; [by auto| |].
  - destruct (keys r) as [|y r'] eqn:E; [done|].
    split; [|by apply IHr]. apply Forall_cons in Hrk as [? _]. by apply Hge.
  - intros x Hx. rewrite Forall_forall in Hlk.
    apply last_Some in Hx as [l' Hx].
    assert (cmp x k < 0); [|lia]. apply Hlk. rewrite Hx. set_solver.
Qed.

(** ** Placement and the order invariant *)

Lemma place_keys cmp t a c k : keys (place cmp t a c k) ≡ₚ k :: keys t.
Proof.
  induction t as [|b cb x l IHl r IHr]; [done|].
  simpl. case_decide; simpl.
  - by rewrite IHl.
  - rewrite IHr, (Permutation_middle (keys l) (x :: keys r) k).
    f_equiv. apply perm_swap.
Qed.

Lemma place_inv_order cmp t a c k :
  (∀ x y, 0 < cmp x y ↔ cmp y x < 0) →
  inv_order cmp t → inv_order cmp (place cmp t a c k).
Proof.
  intros Hflip. induction t as [|b cb x l IHl r IHr]; intros Hord.
  - simpl. auto.
  - destruct Hord as (Hlk & Hrk & Hl & Hr). simpl.
    destruct (decide (0 < cmp x k)) as [Hlt|Hge]; simpl.
    + split; [|by auto]. rewrite place_keys. apply Forall_cons.
      split; [by apply Hflip|done].
    + split; [done|]. split; [|by auto]. rewrite place_keys. apply Forall_cons.
      split; [|done]. pose proof (Hflip x k). pose proof (Hflip k x). lia.
Qed.

(** ** Search *)

Lemma descent_place cmp t a c k :
  descent cmp (place cmp t a c k) k = descent cmp t k ++ [(a, k)].
Proof.
  induction t as [|b cb x l IHl r IHr]; [simpl; by case_decide|].
  simpl. destruct (decide (0 < cmp x k)) as [H|H]; simpl;
    [rewrite decide_True by done|rewrite decide_False by done];
    by f_equal.
Qed.

(** The first match, when there is one. *)
Lemma first_match_Some cmp t k e :
  head (filter (λ e, cmp e.2 k = 0) (descent cmp t k)) = Some e →
  first_match cmp t k = e.1 ∧ e ∈ descent cmp t k ∧ cmp e.2 k = 0.
Proof.
  intros He. unfold first_match. rewrite He. split; [done|].
  apply head_Some in He as [l' He].
  assert (e ∈ filter (λ e, cmp e.2 k = 0) (descent cmp t k)) as Hin
    by (rewrite He; set_solver).
  by apply list_elem_of_filter in Hin as [? ?].
Qed.

Lemma first_match_None cmp t k :
  head (filter (λ e, cmp e.2 k = 0) (descent cmp t k)) = None →
  first_match cmp t k = NULL ∧ ∀ e, e ∈ descent cmp t k → cmp e.2 k ≠ 0.
Proof.
  intros He. unfold first_match. rewrite He. split; [done|].
  intros e Hin Hz. apply head_None in He.
  assert (e ∈ filter (λ e, cmp e.2 k = 0) (descent cmp t k)) as Hin'
    by (by apply list_elem_of_filter).
  rewrite He in Hin'. by apply elem_of_nil in Hin'.
Qed.

Lemma descent_keys cmp t k e : e ∈ descent cmp t k → e.2 ∈ keys t.
Proof.
  induction t as [|b cb x l IHl r IHr]; simpl; [by intros ?%elem_of_nil|].
  rewrite elem_of_cons, elem_of_app, elem_of_cons.
  intros [->|Hin]; [by auto|]. destruct (decide (0 < cmp x k)); auto.
Qed.

Lemma descent_elem_of cmp t k e :
  e ∈ descent cmp t k → e.1 ∈ addrs t.
Proof.
  intros Hin. apply (descent_addrs cmp t k). apply list_elem_of_fmap. eauto.
Qed.

(** On a tree that keeps the weak order invariant, a key that compares
    equal to some key of the tree is met on the descent. *)
Lemma descent_complete cmp t k x :
  comparator cmp → inv_order_weak cmp t →
  x ∈ keys t → cmp x k = 0 →
  ∃ e, e ∈ descent cmp t k ∧ cmp e.2 k = 0.
Proof.
  intros Hcmp. induction t as [|b cb y l IHl r IHr]; intros Hord Hx Hxk.
  - by apply elem_of_nil in Hx.
  - destruct Hord as (Hlk & Hrk & Hl & Hr). simpl in Hx |- *.
    destruct (decide (cmp y k = 0)) as [Hy|Hy].
    { exists (b, y). split; [by left|done]. }
    rewrite Forall_forall in Hlk, Hrk.
    assert (Hkx : cmp k x ≤ 0)
      by (rewrite (comparator_zero cmp x k); [lia|done..]).
    assert (Hxk' : cmp x k ≤ 0) by lia.
    rewrite elem_of_app, elem_of_cons in Hx.
    destruct (decide (0 < cmp y k)) as [Hlt|Hge].
    + destruct Hx as [Hx|[->|Hx]]; [|done|].
      * destruct (IHl Hl Hx Hxk) as (e & ? & ?). exists e. split; [by right|done].
      * exfalso. pose proof (Hrk x Hx) as Hxy.
        apply (comparator_ge cmp) in Hxy; [|done].
        pose proof (cmp_trans cmp Hcmp y x k Hxy Hxk'). lia.
    + destruct Hx as [Hx|[->|Hx]]; [|done|].
      * exfalso. pose proof (Hlk x Hx) as Hxy.
        pose proof (cmp_trans cmp Hcmp k x y Hkx Hxy) as Hky.
        apply (comparator_le cmp) in Hky; [|done]. lia.
      * destruct (IHr Hr Hx Hxk) as (e & ? & ?). exists e. split; [by right|done].
Qed.

Lemma inv_order_weaken cmp t : inv_order cmp t → inv_order_weak cmp t.
Proof.
  induction t as [|b cb y l IHl r IHr]; [done|].
  intros (Hlk & Hrk & Hl & Hr). simpl. split; [|by auto].
  eapply Forall_impl; [done|]. simpl. intros; lia.
Qed.

Lemma first_match_found cmp t k :
  (∃ e, e ∈ descent cmp t k ∧ cmp e.2 k = 0) →
  ∃ e, first_match cmp t k = e.1 ∧ e ∈ descent cmp t k ∧ cmp e.2 k = 0.
Proof.
  intros (e & Hin & Hz).
  destruct (head (filter (λ e, cmp e.2 k = 0) (descent cmp t k))) as [e'|] eqn:He.
  - exists e'. by apply first_match_Some.
  - apply first_match_None in He as [_ He]. by destruct (He e Hin).
Qed.

(** ** Subtrees and replacement *)

Lemma rep_mk_node d (h : heap) p a c k sd sr :
  rep h p (mk_node d a c k sd sr) ↔
  p = a ∧ a ≠ NULL ∧
  ∃ n, h !! a = Some n ∧ rbnode.color n = c ∧ rbnode.key n = k ∧
       rep h (child d n) sd ∧ rep h (child (revdir d) n) sr.
Proof. destruct d; simpl; naive_solver. Qed.

Lemma rep_child_nonnull d (h : heap) g S ng :
  rep h g S → h !! g = Some ng → g ≠ NULL → child (revdir d) ng ≠ NULL →
  ∃ cg kg sd pv cp kp b a,
    S = mk_node d g cg kg sd (mk_node d pv cp kp b a) ∧
    pv = child (revdir d) ng.
Proof.
  intros Hrep Hng Hg Hpiv. destruct S as [|g' cg kg l r]; [done|].
  destruct Hrep as (<- & _ & n & Hn & _ & _ & Hl & Hr).
  assert (n = ng) as -> by congruence.
  destruct d; simpl in Hpiv.
  - destruct r as [|pv cp kp a b]; [done|]. destruct Hr as (<- & _).
    by exists cg, kg, l, (rbnode.right ng), cp, kp, a, b.
  - destruct l as [|pv cp kp a b]; [done|]. destruct Hl as (<- & _).
    by exists cg, kg, r, (rbnode.left ng), cp, kp, b, a.
Qed.

Lemma rotate_mk_node d g cg kg sd pv cp kp b a :
  rotate d (mk_node d g cg kg sd (mk_node d pv cp kp b a)) =
  mk_node d pv cp kp (mk_node d g cg kg sd b) a.
Proof. by destruct d. Qed.

Lemma rotate_addrs d t : addrs (rotate d t) = addrs t.
Proof.
  destruct d, t as [|g cg kg [|p cp kp a b] [|p' cp' kp' a' b']]; simpl;
    rewrite <-?app_assoc; done.
Qed.

Lemma rotate_keys d t : keys (rotate d t) = keys t.
Proof.
  destruct d, t as [|g cg kg [|p cp kp a b] [|p' cp' kp' a' b']]; simpl;
    rewrite <-?app_assoc; done.
Qed.

Lemma subtree_addrs g t a : a ∈ addrs (subtree g t) → a ∈ addrs t.
Proof.
  induction t as [|b cb x l IHl r IHr]; [done|]. simpl.
  case_decide; [done|]. rewrite elem_of_app, elem_of_cons.
  case_decide; auto.
Qed.

Lemma subtree_rep g t :
  ∀ (h : heap) p, rep h p t → g ∈ addrs t → rep h g (subtree g t).
Proof.
  induction t as [|b cb x l IHl r IHr]; intros h p Hrep Hin.
  - by apply elem_of_nil in Hin.
  - simpl. case_decide as Hb; [subst b; by destruct Hrep as (-> & ?)|].
    destruct Hrep as (-> & _ & n & _ & _ & _ & Hl & Hr).
    simpl in Hin. rewrite elem_of_app, elem_of_cons in Hin.
    case_decide; [by eapply IHl|]. eapply IHr; [done|]. naive_solver.
Qed.

Lemma subtree_root t : root_addr t ≠ NULL → subtree (root_addr t) t = t.
Proof. destruct t; simpl; [done|]. by rewrite decide_True. Qed.

Lemma addrs_keys_length t : length (addrs t) = length (keys t).
Proof.
  induction t as [|b cb x l IHl r IHr]; [done|].
  simpl. rewrite !length_app. simpl. by rewrite IHl, IHr.
Qed.

Lemma replace_at_shape g s t :
  NoDup (addrs t) → g ∈ addrs t →
  ∃ l1 l2 k1 k2,
    addrs t = l1 ++ addrs (subtree g t) ++ l2 ∧
    addrs (replace_at g s t) = l1 ++ addrs s ++ l2 ∧
    keys t = k1 ++ keys (subtree g t) ++ k2 ∧
    keys (replace_at g s t) = k1 ++ keys s ++ k2 ∧
    length l1 = length k1.
Proof.
  induction t as [|b cb x l IHl r IHr]; intros Hnd Hin.
  - by apply elem_of_nil in Hin.
  - simpl in *. case_decide as Hb.
    { exists [], [], [], []. simpl. by rewrite !app_nil_r. }
    apply NoDup_app in Hnd as (Hndl & Hlr & Hnd).
    apply NoDup_cons in Hnd as (Hbr & Hndr).
    rewrite elem_of_app, elem_of_cons in Hin.
    case_decide as Hl.
    + destruct (IHl Hndl Hl) as (l1 & l2 & k1 & k2 & E1 & E2 & E3 & E4 & E5).
      exists l1, (l2 ++ b :: addrs r), k1, (k2 ++ x :: keys r). simpl.
      rewrite E2, E4. rewrite E1 at 1. rewrite E3 at 1.
      by rewrite <-!app_assoc.
    + destruct (IHr Hndr) as (l1 & l2 & k1 & k2 & E1 & E2 & E3 & E4 & E5);
        [naive_solver|].
      exists (addrs l ++ b :: l1), l2, (keys l ++ x :: k1), k2. simpl.
      rewrite E2, E4. rewrite E1 at 1. rewrite E3 at 1.
      rewrite <-!app_assoc. simpl. rewrite !length_app. simpl.
      by rewrite E5, addrs_keys_length.
Qed.

Lemma replace_at_same g s t :
  NoDup (addrs t) → g ∈ addrs t →
  addrs s = addrs (subtree g t) → keys s = keys (subtree g t) →
  addrs (replace_at g s t) = addrs t ∧ keys (replace_at g s t) = keys t.
Proof.
  intros Hnd Hin Ha Hk.
  destruct (replace_at_shape g s t Hnd Hin)
    as (l1 & l2 & k1 & k2 & E1 & E2 & E3 & E4 & _).
  by rewrite E1, E2, E3, E4, Ha, Hk.
Qed.

(** A node of the tree that points to [g] through a child link is not
    below [g]. *)
Lemma child_link_subtree t :
  ∀ (h : heap) p np n g,
    rep h p t → NoDup (addrs t) → np ∈ addrs t → h !! np = Some n →
    rbnode.left n = g ∨ rbnode.right n = g → g ≠ NULL →
    g ∈ addrs t ∧ g ≠ root_addr t ∧ np ∉ addrs (subtree g t).
Proof.
  induction t as [|b cb x l IHl r IHr]; intros h p np n g Hrep Hnd Hnp Hn Hch Hg.
  - by apply elem_of_nil in Hnp.
  - destruct Hrep as (-> & Hb & nb & Hnb & _ & _ & Hl & Hr). simpl in *.
    apply NoDup_app in Hnd as (Hndl & Hlr & Hnd).
    apply NoDup_cons in Hnd as (Hbr & Hndr).
    assert (Hroot : ∀ s q, rep h q s → q ≠ NULL → q ∈ addrs s ∧ subtree q s = s).
    { intros [|? ? ? ? ?] q; simpl; [done|]. intros (-> & _) _.
      rewrite decide_True by done. set_solver. }
    rewrite elem_of_app, elem_of_cons in Hnp.
    destruct (decide (np = b)) as [->|Hnpb].
    + assert (n = nb) as -> by congruence.
      destruct Hch as [<-|<-].
      * destruct (Hroot _ _ Hl Hg) as [Hin Hsub].
        assert (b ≠ rbnode.left nb) by (intros E; apply (Hlr b); [by rewrite E|by left]).
        split; [set_solver|]. split; [done|].
        rewrite decide_False, decide_True, Hsub by done.
        intros ?. apply (Hlr b); [done|by left].
      * destruct (Hroot _ _ Hr Hg) as [Hin Hsub].
        assert (b ≠ rbnode.right nb) by (by intros E; rewrite E in Hbr).
        split; [set_solver|]. split; [done|].
        rewrite decide_False by done. rewrite decide_False.
        2:{ intros ?. apply (Hlr (rbnode.right nb)); [done|by right]. }
        by rewrite Hsub.
    + destruct Hnp as [Hnp|[?|Hnp]]; [|done|].
      * destruct (IHl h _ np n g Hl Hndl Hnp Hn Hch Hg) as (Hin & _ & Hsub).
        assert (b ≠ g) by (intros ->; apply (Hlr g); [done|by left]).
        split; [set_solver|]. split; [done|]. by rewrite decide_False, decide_True.
      * destruct (IHr h _ np n g Hr Hndr Hnp Hn Hch Hg) as (Hin & _ & Hsub).
        assert (b ≠ g) by (by intros ->).
        split; [set_solver|]. split; [done|]. rewrite decide_False by done.
        rewrite decide_False; [done|]. intros ?. apply (Hlr g); [done|by right].
Qed.

(** Replacing the subtree below a child link: the node [np] holds [g] in a
    child slot; memory changes below [g], and in that slot of [np], which
    now holds the root of [s]. *)
Lemma rep_replace g s t :
  ∀ (h h' : heap) p np n,
    rep h p t → NoDup (addrs t) → np ∈ addrs t → h !! np = Some n →
    rbnode.left n = g ∨ rbnode.right n = g → g ≠ NULL →
    rep h' (root_addr s) s →
    (∀ a, a ∈ addrs t → a ∉ addrs (subtree g t) → a ≠ np →
          unparented <$> h' !! a = unparented <$> h !! a) →
    unparented <$> h' !! np =
      Some (unparented (if decide (g = rbnode.left n)
                        then rbnode.set_left (root_addr s) n
                        else rbnode.set_right (root_addr s) n)) →
    rep h' p (replace_at g s t).
Proof.
  induction t as [|b cb x l IHl r IHr];
    intros h h' p np n Hrep Hnd Hnp Hn Hch Hg Hs Hframe Hslot.
  - by apply elem_of_nil in Hnp.
  - destruct (child_link_subtree _ _ _ _ _ _ Hrep Hnd Hnp Hn Hch Hg)
      as (Hgin & Hgroot & Hnpsub).
    destruct Hrep as (-> & Hb & nb & Hnb & Hcb & Hkb & Hl & Hr). simpl in *.
    apply NoDup_app in Hnd as (Hndl & Hlr & Hnd).
    apply NoDup_cons in Hnd as (Hbr & Hndr).
    rewrite decide_False in * by done.
    rewrite elem_of_app, elem_of_cons in Hnp, Hgin.
    assert (Hrootin : ∀ s q, rep h q s → q ≠ NULL → q ∈ addrs s).
    { intros [|? ? ? ? ?] q; simpl; [done|]. intros (-> & _) _. set_solver. }
    destruct (decide (np = b)) as [->|Hnpb].
    + assert (n = nb) as -> by congruence.
      destruct (h' !! b) as [nb'|] eqn:Hnb'; [|done].
      injection Hslot as Hc' Hl' Hr' Hk'.
      destruct (decide (g = rbnode.left nb)) as [Egl|Egl].
      * (* the left slot *)
        assert (Hgl : g ∈ addrs l) by (rewrite Egl; by apply (Hrootin _ _ Hl); rewrite <-Egl).
        rewrite decide_True in * by done. simpl in *.
        split; [done|]. split; [done|]. exists nb'.
        rewrite Hc', Hk', Hl', Hr'. split; [done|]. split; [done|]. split; [done|].
        assert (replace_at g s l = s) as ->.
        { destruct l as [|? ? ? ? ?]; [by apply elem_of_nil in Hgl|].
          destruct Hl as (E & _).
          simpl. rewrite decide_True; [done|congruence]. }
        split; [done|]. apply (rep_ext h); [done|].
        intros a Ha. apply Hframe; [set_solver| |by intros ->].
        intros Hin. apply subtree_addrs in Hin. apply (Hlr a); [done|by right].
      * destruct Hch as [E|E]; [congruence|].
        assert (Hgr : g ∈ addrs r) by (rewrite <-E; by apply (Hrootin _ _ Hr); rewrite E).
        assert (g ∉ addrs l) by (intros ?; apply (Hlr g); [done|by right]).
        rewrite decide_False in * by done. simpl in *.
        split; [done|]. split; [done|]. exists nb'.
        rewrite Hc', Hk', Hl', Hr'. split; [done|]. split; [done|]. split; [done|].
        assert (replace_at g s r = s) as ->.
        { destruct r as [|? ? ? ? ?]; [by apply elem_of_nil in Hgr|].
          destruct Hr as (E' & _).
          simpl. rewrite decide_True; [done|congruence]. }
        split; [|done]. apply (rep_ext h); [done|].
        intros a Ha. apply Hframe; [set_solver| |].
        -- intros Hin. apply subtree_addrs in Hin. apply (Hlr a); [done|by right].
        -- intros ->. apply (Hlr b); [done|by left].
    + assert (Hbframe : unparented <$> h' !! b = Some (unparented nb)).
      { rewrite Hframe, Hnb; [done|set_solver| |done].
        case_decide; intros Hin; apply subtree_addrs in Hin;
          [apply (Hlr b); [done|by left]|done]. }
      destruct (h' !! b) as [nb'|] eqn:Hnb'; [|done].
      injection Hbframe as Hc' Hl' Hr' Hk'.
      destruct Hnp as [Hnp|[?|Hnp]]; [|done|].
      * destruct (child_link_subtree _ _ _ _ _ _ Hl Hndl Hnp Hn Hch Hg)
          as (Hgl & _ & _).
        rewrite decide_True in * by done. simpl.
        split; [done|]. split; [done|]. exists nb'.
        rewrite Hc', Hk', Hl', Hr'. split; [done|]. split; [done|]. split; [done|].
        split.
        -- apply (IHl h h' _ np n); try done.
           intros a Ha Hsub Hne. apply Hframe; [set_solver|done..].
        -- apply (rep_ext h); [done|].
           intros a Ha. apply Hframe; [set_solver| |].
           ++ intros Hin. apply subtree_addrs in Hin. apply (Hlr a); [done|by right].
           ++ intros ->. apply (Hlr np); [done|by right].
      * destruct (child_link_subtree _ _ _ _ _ _ Hr Hndr Hnp Hn Hch Hg)
          as (Hgr & _ & _).
        assert (g ∉ addrs l) by (intros ?; apply (Hlr g); [done|by right]).
        rewrite decide_False in * by done. simpl.
        split; [done|]. split; [done|]. exists nb'.
        rewrite Hc', Hk', Hl', Hr'. split; [done|]. split; [done|]. split; [done|].
        split.
        -- apply (rep_ext h); [done|].
           intros a Ha. apply Hframe; [set_solver| |].
           ++ intros Hin. apply subtree_addrs in Hin. apply (Hlr a); [done|by right].
           ++ intros ->. apply (Hlr np); [done|by right].
        -- apply (IHr h h' _ np n); try done.
           intros a Ha Hsub Hne. apply Hframe; [set_solver|done..].
Qed.

(** ** Rotation on trees *)

Lemma mk_node_addrs d a c k sd sr :
  addrs (mk_node d a c k sd sr) ≡ₚ a :: addrs sd ++ addrs sr.
Proof.
  destruct d; simpl.
  - symmetry. apply Permutation_middle.
  - rewrite <-Permutation_middle. f_equiv. apply (comm (++)).
Qed.

Lemma child_set_child d v n : child d (set_child d v n) = v.
Proof. by destruct d. Qed.

Lemma child_set_child_rev d v n :
  child (revdir d) (set_child d v n) = child (revdir d) n.
Proof. by destruct d. Qed.

Lemma child_set_child_rev' d v n :
  child d (set_child (revdir d) v n) = child d n.
Proof. by destruct d. Qed.

Lemma rep_root_in (h : heap) q s : rep h q s → q ≠ NULL → q ∈ addrs s.
Proof. destruct s; simpl; [done|]. intros (-> & _) _. set_solver. Qed.

(** The rotation at the root [g] of a represented tree [S] whose parent
    link is null or leads outside [S]: memory then holds [rotate d S] at
    the pivot, and outside [S] only the slot of the parent that held [g]
    has changed. *)
Lemma ROTATE_TREE_local d (h : heap) g root S ng :
  rep h g S → NoDup (addrs S) → h !! g = Some ng → g ≠ NULL →
  child (revdir d) ng ≠ NULL →
  (rbnode.parent ng = NULL) ∨
    ((rbnode.parent ng ∉ addrs S) ∧ is_Some (h !! rbnode.parent ng)) →
  ∃ h',
    ROTATE_TREE d h g root =
      Ok (h', if decide (rbnode.parent ng = NULL) then child (revdir d) ng
              else root) ∧
    rep h' (child (revdir d) ng) (rotate d S) ∧
    (∀ a, a ∉ addrs S → a ≠ rbnode.parent ng → h' !! a = h !! a) ∧
    (∀ nnp, rbnode.parent ng ≠ NULL → h !! rbnode.parent ng = Some nnp →
       h' !! rbnode.parent ng =
         Some (if decide (g = rbnode.left nnp)
               then rbnode.set_left (child (revdir d) ng) nnp
               else rbnode.set_right (child (revdir d) ng) nnp)) ∧
    (∀ a, col h' a = col h a) ∧
    (∀ a, rbnode.key <$> h' !! a = rbnode.key <$> h !! a) ∧
    rbnode.parent <$> h' !! g = Some (rbnode.parent ng) ∧
    (rbnode.parent ng = NULL → ∀ a, a ∉ addrs S → h' !! a = h !! a).
Proof.
  intros Hrep Hnd Hng Hg Hpiv Hnp.
  destruct (rep_child_nonnull d h g S ng Hrep Hng Hg Hpiv)
    as (cg & kg & Sd & pv & cp & kp & B & A & -> & Epv).
  rewrite rotate_mk_node. rewrite <-Epv in *. set (np := rbnode.parent ng) in *.
  apply rep_mk_node in Hrep as (_ & _ & ng' & Hng' & Hcg & Hkg & HSd & Hpv).
  assert (ng' = ng) as -> by congruence. clear Hng'. rewrite <-Epv in Hpv.
  apply rep_mk_node in Hpv as (_ & Hpv0 & npv & Hnpv & Hcp & Hkp & HB & HA).
  set (b := child d npv) in *.
  (* the nodes involved are distinct *)
  assert (Hperm : addrs (mk_node d g cg kg Sd (mk_node d pv cp kp B A))
                  ≡ₚ g :: addrs Sd ++ pv :: addrs B ++ addrs A).
  { rewrite mk_node_addrs. do 2 f_equiv. apply mk_node_addrs. }
  rewrite Hperm in Hnd.
  assert (Hnp' : np = NULL ∨ (np ≠ g ∧ (np ∉ addrs Sd) ∧ np ≠ pv ∧
                              (np ∉ addrs B) ∧ (np ∉ addrs A) ∧
                              is_Some (h !! np))).
  { destruct Hnp as [?|[Hnp ?]]; [by left|right]. rewrite Hperm in Hnp.
    set_solver. }
  clear Hnp.
  apply NoDup_cons in Hnd as (Hg1 & Hnd).
  apply NoDup_app in Hnd as (HndSd & HSdx & Hnd).
  apply NoDup_cons in Hnd as (Hpv1 & Hnd).
  apply NoDup_app in Hnd as (HndB & HBA & HndA).
  assert (g ≠ pv) by set_solver.
  assert (g ∉ addrs Sd) by set_solver.
  assert (g ∉ addrs B) by set_solver.
  assert (g ∉ addrs A) by set_solver.
  assert (pv ∉ addrs Sd) by set_solver.
  assert (pv ∉ addrs B) by set_solver.
  assert (pv ∉ addrs A) by set_solver.
  assert (Hb : b = NULL ∨ (b ≠ NULL ∧ b ∈ addrs B ∧ ∃ nb, h !! b = Some nb)).
  { destruct (decide (b = NULL)); [by left|right]. split; [done|].
    pose proof (rep_root_in _ _ _ HB ltac:(done)) as Hin. split; [done|].
    destruct (rep_lookup _ _ _ _ HB Hin) as (_ & nb & ? & _). eauto. }
  (* run the code *)
  unfold ROTATE_TREE.
  rewrite (rd_Ok (child (revdir d)) _ _ _ Hg Hng). mstep. rewrite <-Epv.
  rewrite (rd_Ok (child d) _ _ _ Hpv0 Hnpv). mstep. fold b.
  rewrite (wr_Ok _ _ _ _ Hg Hng). mstep.
  set (h1 := <[g := set_child (revdir d) b ng]> h).
  rewrite (rd_Ok (child d) h1 pv npv Hpv0)
    by (unfold h1; by rewrite lookup_insert_ne).
  mstep. fold b.
  assert (∃ h2, (if decide (b = NULL) then mret h1
                 else wr (rbnode.set_parent g) h1 b) = Ok h2 ∧
            ∀ a, h2 !! a =
                 if decide (a = b ∧ b ≠ NULL)
                 then rbnode.set_parent g <$> h !! b else h1 !! a)
    as (h2 & -> & L2).
  { destruct Hb as [E|(Hb0 & Hbin & nb & Hnb)].
    - exists h1. rewrite decide_True by done. split; [done|].
      intros a. rewrite decide_False; [done|]. by intros [_ ?].
    - assert (b ≠ g) by set_solver.
      rewrite decide_False by done.
      rewrite (wr_Ok _ _ _ nb Hb0) by (unfold h1; by rewrite lookup_insert_ne).
      eexists. split; [done|]. intros a. rewrite Hnb. simpl.
      destruct (decide (a = b)) as [->|Hne].
      + rewrite decide_True by done. apply lookup_insert_eq.
      + rewrite decide_False by (by intros [? _]). by apply lookup_insert_ne. }
  mstep.
  assert (Hg2 : h2 !! g = Some (set_child (revdir d) b ng)).
  { rewrite L2. unfold h1. rewrite decide_False; [apply lookup_insert_eq|].
    intros [-> _]. destruct Hb as [?|(_ & ? & _)]; [done|set_solver]. }
  assert (Hpv2 : h2 !! pv = Some npv).
  { rewrite L2. unfold h1. rewrite decide_False; [by rewrite lookup_insert_ne|].
    intros [-> _]. destruct Hb as [?|(_ & ? & _)]; [done|set_solver]. }
  rewrite (rd_Ok rbnode.parent _ _ _ Hg Hg2). mstep.
  replace (rbnode.parent (set_child (revdir d) b ng)) with np by (by destruct d).
  rewrite (wr_Ok _ _ _ _ Hpv0 Hpv2). mstep.
  set (h3 := <[pv := rbnode.set_parent np npv]> h2).
  assert (Hg3 : h3 !! g = Some (set_child (revdir d) b ng))
    by (unfold h3; by rewrite lookup_insert_ne).
  rewrite (rd_Ok rbnode.parent _ _ _ Hg Hg3). mstep.
  replace (rbnode.parent (set_child (revdir d) b ng)) with np by (by destruct d).
  assert (∃ h4,
            (if decide (np = NULL) then mret (h3, pv)
             else
               npl ← rd rbnode.left h3 np;
               if decide (g = npl)
               then h ← wr (rbnode.set_left pv) h3 np; mret (h, root)
               else h ← wr (rbnode.set_right pv) h3 np; mret (h, root))
              = Ok (h4, if decide (np = NULL) then pv else root) ∧
            ∀ a, h4 !! a =
                 if decide (a = np ∧ np ≠ NULL)
                 then (λ n, if decide (g = rbnode.left n)
                            then rbnode.set_left pv n
                            else rbnode.set_right pv n) <$> h !! np
                 else h3 !! a)
    as (h4 & -> & L4).
  { destruct Hnp' as [E|(Hn1 & Hn2 & Hn3 & Hn4 & Hn5 & [nnp Hnnp])].
    - exists h3. rewrite !decide_True by done. split; [done|].
      intros a. rewrite decide_False; [done|]. by intros [_ ?].
    - destruct (decide (np = NULL)) as [E|Hnp0].
      { exists h3. split; [done|]. intros a. rewrite decide_False; [done|].
        by intros [_ ?]. }
      assert (Hnp3 : h3 !! np = Some nnp).
      { unfold h3. rewrite lookup_insert_ne by done. rewrite L2.
        rewrite decide_False.
        - unfold h1. by rewrite lookup_insert_ne.
        - intros [E _]. destruct Hb as [?|(_ & ? & _)]; [congruence|].
          by rewrite E in Hn4. }
      rewrite (rd_Ok rbnode.left _ _ _ Hnp0 Hnp3). mstep.
      rewrite Hnnp. simpl.
      destruct (decide (g = rbnode.left nnp));
        rewrite (wr_Ok _ _ _ _ Hnp0 Hnp3); mstep; eexists; (split; [done|]);
        intros a; (destruct (decide (a = np)) as [->|Hne];
          [rewrite decide_True by done; apply lookup_insert_eq
          |rewrite decide_False by (by intros [? _]); by apply lookup_insert_ne]). }
  mstep.
  assert (Hpv4 : h4 !! pv = Some (rbnode.set_parent np npv)).
  { rewrite L4. unfold h3. rewrite decide_False; [apply lookup_insert_eq|].
    intros [E ?]. destruct Hnp' as [?|(_ & _ & ? & _)]; done. }
  rewrite (wr_Ok _ _ _ _ Hpv0 Hpv4). mstep.
  set (h5 := <[pv := set_child d g (rbnode.set_parent np npv)]> h4).
  (* the memory after the rotation *)
  assert (L5 : ∀ a, h5 !! a =
            if decide (a = pv) then Some (set_child d g (rbnode.set_parent np npv))
            else if decide (a = np ∧ np ≠ NULL)
            then (λ n, if decide (g = rbnode.left n)
                       then rbnode.set_left pv n
                       else rbnode.set_right pv n) <$> h !! np
            else if decide (a = b ∧ b ≠ NULL)
            then rbnode.set_parent g <$> h !! b
            else if decide (a = g) then Some (set_child (revdir d) b ng)
            else h !! a).
  { intros a. unfold h5.
    destruct (decide (a = pv)) as [->|Hapv]; [apply lookup_insert_eq|].
    rewrite lookup_insert_ne by done. rewrite L4.
    destruct (decide (a = np ∧ np ≠ NULL)); [done|].
    unfold h3. rewrite lookup_insert_ne by done. rewrite L2.
    destruct (decide (a = b ∧ b ≠ NULL)); [done|].
    unfold h1. destruct (decide (a = g)) as [->|?];
      [apply lookup_insert_eq|by apply lookup_insert_ne]. }
  clearbody h5. clear h1 h2 h3 h4 L2 L4 Hg2 Hpv2 Hg3 Hpv4.
  exists h5. split; [done|].
  assert (Hother : ∀ a, a ≠ pv → a ≠ g → a ≠ np → (a = b → b = NULL ∨ False) →
                        h5 !! a = h !! a).
  { intros a ? ? ? Hab. rewrite L5. rewrite !decide_False; try done.
    - intros [-> ?]. by destruct Hab.
    - by intros [? _]. }
  assert (Hshape : ∀ a, a ≠ pv → a ≠ g → a ≠ np →
                        unparented <$> h5 !! a = unparented <$> h !! a).
  { intros a ? ? ?. rewrite L5. rewrite decide_False by done.
    rewrite decide_False by (by intros [? _]).
    destruct (decide (a = b ∧ b ≠ NULL)) as [[-> _]|?];
      [by destruct (h !! b)|by rewrite decide_False]. }
  split; [|split; [|split; [|split; [|split; [|split]]]]].
  - apply rep_mk_node. split; [done|]. split; [done|].
    eexists. split; [by rewrite L5, decide_True|].
    split; [by destruct d|]. split; [by destruct d|].
    rewrite child_set_child, child_set_child_rev. split.
    + apply rep_mk_node. split; [done|]. split; [done|].
      eexists. split.
      { rewrite L5. rewrite decide_False by done.
        rewrite decide_False by (intros [E ?]; by destruct Hnp' as [?|(? & _)]).
        rewrite decide_False, decide_True; [done..|].
        intros [E ?]. destruct Hb as [?|(_ & ? & _)]; [done|]. rewrite <-E in *. set_solver. }
      split; [by destruct d|]. split; [by destruct d|].
      rewrite child_set_child_rev', child_set_child. split.
      * apply (rep_ext h); [done|]. intros a Ha. apply Hshape.
        -- by intros ->.
        -- by intros ->.
        -- intros ->. by destruct Hnp' as [E|(? & ? & _)];
             [destruct (rep_lookup _ _ _ _ HSd Ha)|].
      * apply (rep_ext h); [done|]. intros a Ha. apply Hshape.
        -- by intros ->.
        -- by intros ->.
        -- intros ->. by destruct Hnp' as [E|(? & ? & ? & ? & _)];
             [destruct (rep_lookup _ _ _ _ HB Ha)|].
    + replace (child (revdir d) (rbnode.set_parent np npv))
        with (child (revdir d) npv) by (by destruct d).
      apply (rep_ext h); [done|]. intros a Ha. apply Hshape.
      * by intros ->.
      * by intros ->.
      * intros ->. by destruct Hnp' as [E|(? & ? & ? & ? & ? & _)];
          [destruct (rep_lookup _ _ _ _ HA Ha)|].
  - intros a Ha Hanp. rewrite Hperm in Ha. apply Hother; [set_solver..|done|].
    intros ->. destruct Hb as [?|(_ & ? & _)]; [by left|set_solver].
  - intros nnp Hnp0 Hnnp. rewrite L5.
    destruct Hnp' as [?|(? & ? & ? & _)]; [done|].
    rewrite decide_False, decide_True by done. by rewrite Hnnp.
  - intros a. unfold col. rewrite L5.
    destruct (decide (a = pv)) as [->|?]; [rewrite Hnpv; by destruct d|].
    destruct (decide (a = np ∧ np ≠ NULL)) as [[-> ?]|?].
    { destruct (h !! np) as [nn|]; [|done]. simpl.
      by destruct (decide (g = rbnode.left nn)). }
    destruct (decide (a = b ∧ b ≠ NULL)) as [[-> ?]|?]; [by destruct (h !! b)|].
    destruct (decide (a = g)) as [->|?]; [rewrite Hng; by destruct d|done].
  - intros a. rewrite L5.
    destruct (decide (a = pv)) as [->|?]; [rewrite Hnpv; by destruct d|].
    destruct (decide (a = np ∧ np ≠ NULL)) as [[-> ?]|?].
    { destruct (h !! np) as [nn|]; [|done]. simpl.
      by destruct (decide (g = rbnode.left nn)). }
    destruct (decide (a = b ∧ b ≠ NULL)) as [[-> ?]|?]; [by destruct (h !! b)|].
    destruct (decide (a = g)) as [->|?]; [rewrite Hng; by destruct d|done].
  - rewrite L5. rewrite decide_False by done.
    rewrite decide_False by (intros [E ?]; by destruct Hnp' as [?|(? & _)]).
    rewrite decide_False, decide_True; [by destruct d|done|].
    intros [E ?]. destruct Hb as [?|(_ & ? & _)]; [done|]. rewrite <-E in *. set_solver.
  - intros Hnull a Ha. rewrite Hperm in Ha. rewrite L5.
    rewrite decide_False by set_solver.
    rewrite decide_False by (by intros [_ ?]).
    rewrite decide_False.
    2:{ intros [-> ?]. destruct Hb as [?|(_ & ? & _)]; [done|set_solver]. }
    rewrite decide_False by set_solver. done.
Qed.

Lemma subtree_NoDup g t : NoDup (addrs t) → NoDup (addrs (subtree g t)).
Proof.
  induction t as [|b cb x l IHl r IHr]; simpl; [done|]. intros Hnd.
  case_decide; [done|].
  apply NoDup_app in Hnd as (Hl & _ & Hr). apply NoDup_cons in Hr as (_ & Hr).
  case_decide; eauto.
Qed.

Lemma rotate_root d (h : heap) g S ng :
  rep h g S → h !! g = Some ng → g ≠ NULL → child (revdir d) ng ≠ NULL →
  root_addr (rotate d S) = child (revdir d) ng.
Proof.
  intros Hrep Hng Hg Hpiv.
  destruct (rep_child_nonnull d h g S ng Hrep Hng Hg Hpiv)
    as (cg & kg & Sd & pv & cp & kp & B & A & -> & ->).
  rewrite rotate_mk_node. by destruct d.
Qed.

(** A rotation at a node [g] of a represented tree whose parent link is
    accurate: memory then holds the tree with the subtree at [g] rotated. *)
Lemma ROTATE_TREE_rep d (h : heap) g root T ng :
  rep h root T → NoDup (addrs T) → g ∈ addrs T → h !! g = Some ng →
  child (revdir d) ng ≠ NULL →
  (rbnode.parent ng = NULL ∧ g = root) ∨
    (∃ nnp, rbnode.parent ng ∈ addrs T ∧ h !! rbnode.parent ng = Some nnp ∧
            (rbnode.left nnp = g ∨ rbnode.right nnp = g)) →
  ∃ h' root',
    root' = (if decide (rbnode.parent ng = NULL) then child (revdir d) ng
             else root) ∧
    ROTATE_TREE d h g root = Ok (h', root') ∧
    rep h' root' (replace_at g (rotate d (subtree g T)) T) ∧
    (∀ a, a ∉ addrs (subtree g T) → a ≠ rbnode.parent ng → h' !! a = h !! a) ∧
    (∀ nnp, rbnode.parent ng ≠ NULL → h !! rbnode.parent ng = Some nnp →
       h' !! rbnode.parent ng =
         Some (if decide (g = rbnode.left nnp)
               then rbnode.set_left (child (revdir d) ng) nnp
               else rbnode.set_right (child (revdir d) ng) nnp)) ∧
    (∀ a, col h' a = col h a) ∧
    (∀ a, rbnode.key <$> h' !! a = rbnode.key <$> h !! a) ∧
    rbnode.parent <$> h' !! g = Some (rbnode.parent ng) ∧
    (∀ a, a ∉ addrs T → h' !! a = h !! a).
Proof.
  intros Hrep Hnd Hin Hng Hpiv Hlink.
  destruct (rep_lookup _ _ _ _ Hrep Hin) as (Hg & _).
  pose proof (subtree_rep g T h root Hrep Hin) as HS.
  pose proof (subtree_NoDup g T Hnd) as HndS.
  destruct Hlink as [[Hnp ->]|(nnp & Hnpin & Hnnp & Hch)].
  - (* rotation at the root *)
    destruct (ROTATE_TREE_local d h root root (subtree root T) ng)
      as (h' & E & R & F & _ & C & K & P & Fo); [done..|by left|].
    exists h', (child (revdir d) ng). rewrite decide_True in E |- * by done.
    split; [done|]. split; [done|].
    assert (Hsub : subtree root T = T).
    { rewrite (rep_root _ _ _ Hrep). apply subtree_root.
      by rewrite <-(rep_root _ _ _ Hrep). }
    rewrite Hsub in *.
    assert (replace_at root (rotate d T) T = rotate d T) as ->.
    { destruct T as [|a ? ? ? ?]; [done|]. destruct Hrep as (-> & _).
      simpl replace_at. by rewrite decide_True. }
    split; [done|]. split; [done|]. split; [done|]. split; [done|].
    split; [done|]. split; [done|]. by apply Fo.
  - destruct (child_link_subtree T h root _ nnp g Hrep Hnd Hnpin Hnnp Hch Hg)
      as (_ & Hgroot & Hnpsub).
    destruct (rep_lookup _ _ _ _ Hrep Hnpin) as (Hnp0 & _).
    destruct (ROTATE_TREE_local d h g root (subtree g T) ng)
      as (h' & E & R & F & Sl & C & K & P & _); [done..|right; eauto|].
    exists h', root. rewrite decide_False in E |- * by done.
    split; [done|]. split; [done|]. split.
    { pose proof (rotate_root d h g _ ng HS Hng Hg Hpiv) as Hrr.
      apply (rep_replace g _ T h h' root (rbnode.parent ng) nnp); try done.
      - by rewrite Hrr.
      - intros a _ Ha Hne. by rewrite F.
      - rewrite (Sl nnp) by done. by rewrite Hrr. }
    split; [done|]. split; [done|]. split; [done|]. split; [done|].
    split; [done|]. intros a Ha. apply F.
    + intros Hs. apply Ha. by eapply subtree_addrs.
    + by intros ->.
Qed.

Lemma subtree_in_subtree g q t :
  NoDup (addrs t) → q ∈ addrs (subtree g t) →
  subtree q (subtree g t) = subtree q t.
Proof.
  induction t as [|b cb x l IHl r IHr]; simpl; [done|]. intros Hnd Hq.
  apply NoDup_app in Hnd as (Hl & Hlr & Hr).
  apply NoDup_cons in Hr as (Hbr & Hr).
  destruct (decide (b = g)) as [->|Hbg]; [done|].
  destruct (decide (g ∈ addrs l)).
  - pose proof (subtree_addrs _ _ _ Hq) as Hql.
    rewrite decide_False by (intros ->; set_solver).
    rewrite (decide_True (P := q ∈ addrs l)) by done. auto.
  - pose proof (subtree_addrs _ _ _ Hq) as Hqr.
    rewrite decide_False by (intros ->; set_solver).
    rewrite (decide_False (P := q ∈ addrs l)) by set_solver. auto.
Qed.

Lemma subtree_child (h : heap) p t g ng q :
  rep h p t → NoDup (addrs t) → g ∈ addrs t → h !! g = Some ng →
  rbnode.left ng = q ∨ rbnode.right ng = q → q ≠ NULL →
  ∀ a, a ∈ addrs (subtree q t) → a ∈ addrs (subtree g t).
Proof.
  intros Hrep Hnd Hg Hng Hch Hq a Ha.
  pose proof (subtree_rep g t h p Hrep Hg) as HS.
  assert (q ∈ addrs (subtree g t)) as Hin.
  { destruct (subtree g t) as [|g' c k l r].
    - simpl in HS. subst g. by destruct (rep_lookup _ _ _ _ Hrep Hg).
    - destruct HS as (<- & _ & n & Hn & _ & _ & Hl & Hr).
      assert (n = ng) as -> by congruence. simpl.
      destruct Hch as [<-|<-];
        [pose proof (rep_root_in _ _ _ Hl Hq)|pose proof (rep_root_in _ _ _ Hr Hq)];
        set_solver. }
  rewrite <-(subtree_in_subtree g q t) in Ha by done.
  by apply subtree_addrs in Ha.
Qed.

(** Recolouring leaves the shape, the addresses and the keys of the tree
    in memory. *)
Lemma blackened_rep X (h h' : heap) t :
  blackened X h h' →
  ∀ p, rep h p t →
    ∃ t', rep h' p t' ∧ addrs t' = addrs t ∧ keys t' = keys t.
Proof.
  intros Hb. induction t as [|b cb x l IHl r IHr]; intros p Hrep.
  - by exists Leaf.
  - destruct Hrep as (-> & Hb0 & n & Hn & Hc & Hk & Hl & Hr).
    destruct (IHl _ Hl) as (l' & Hl' & El & Kl).
    destruct (IHr _ Hr) as (r' & Hr' & Er & Kr).
    pose proof (Hb b) as Hbb. rewrite Hn in Hbb. destruct Hbb as (c & Hn' & _).
    exists (Node b c x l' r'). simpl. rewrite El, Er, Kl, Kr.
    split; [|done]. split; [done|]. split; [done|].
    eexists. split; [done|]. by destruct n.
Qed.

Lemma ROTATE_TREE_same d g T :
  NoDup (addrs T) → g ∈ addrs T →
  addrs (replace_at g (rotate d (subtree g T)) T) = addrs T ∧
  keys (replace_at g (rotate d (subtree g T)) T) = keys T.
Proof.
  intros. apply replace_at_same; [done|done|apply rotate_addrs|apply rotate_keys].
Qed.

Lemma SWAP_COLOR_blackened (h : heap) a b na nb :
  a ≠ NULL → b ≠ NULL → h !! a = Some na → h !! b = Some nb →
  ∃ h', SWAP_COLOR h a b = Ok h' ∧ blackened (λ _, True) h h' ∧
        col h' b = Some (rbnode.color na) ∧
        (∀ x, x ≠ a → x ≠ b → h' !! x = h !! x).
Proof.
  intros Ha Hb Hna Hnb. unfold SWAP_COLOR.
  rewrite (rd_Ok rbnode.color _ _ _ Ha Hna). mstep.
  rewrite (rd_Ok rbnode.color _ _ _ Hb Hnb). mstep.
  rewrite (wr_Ok _ _ _ _ Ha Hna). mstep.
  assert (B1 : blackened (λ _, True) h
                 (<[a := rbnode.set_color (rbnode.color nb) na]> h))
    by (apply blackened_insert; auto).
  pose proof (B1 b) as Hb1. rewrite Hnb in Hb1. destruct Hb1 as (c & Hnb1 & _).
  rewrite (wr_Ok _ _ _ _ Hb Hnb1). eexists. split; [done|].
  split; [|split].
  - eapply blackened_trans; [done|]. apply blackened_insert; auto.
  - unfold col. by rewrite lookup_insert_eq.
  - intros x ? ?. by rewrite !lookup_insert_ne.
Qed.

(** The rotation branch of the loop body on a represented tree in which the
    parent links of the node's parent [P] and grandparent [G] are accurate:
    the tree in memory keeps its in-order addresses and keys, and the node
    the loop goes on with is BLACK. *)
Lemma rotate_fix_rep d (h : heap) x P G root T nP nG :
  rep h root T → NoDup (addrs T) →
  x ∈ addrs T → P ∈ addrs T → G ∈ addrs T →
  h !! P = Some nP → rbnode.parent nP = G →
  h !! G = Some nG → child d nG = P →
  rbnode.color nG = NODE_COLOR_BLACK →
  (rbnode.parent nG = NULL ∧ G = root) ∨
    (∃ nGG, rbnode.parent nG ∈ addrs T ∧ h !! rbnode.parent nG = Some nGG ∧
            (rbnode.left nGG = G ∨ rbnode.right nGG = G)) →
  ∃ h' x' root' T',
    rotate_fix d h x P G root = Ok (h', x', root') ∧
    rep h' root' T' ∧ addrs T' = addrs T ∧ keys T' = keys T ∧
    x' ∈ addrs T ∧ col h' x' = Some NODE_COLOR_BLACK ∧
    (∀ a, a ∉ addrs T → h' !! a = h !! a).
Proof.
  intros Hrep Hnd Hx HP HG HnP HpP HnG HcG HbG Hlink.
  destruct (rep_lookup _ _ _ _ Hrep Hx) as (Hx0 & _).
  destruct (rep_lookup _ _ _ _ Hrep HP) as (HP0 & _).
  destruct (rep_lookup _ _ _ _ Hrep HG) as (HG0 & _).
  assert (HchG : rbnode.left nG = P ∨ rbnode.right nG = P)
    by (destruct d; simpl in HcG; auto).
  unfold rotate_fix. rewrite (rd_Ok (child (revdir d)) _ _ _ HP0 HnP). mstep.
  assert (∃ h1 root1 x1 q T1 nG1,
            (if decide (x = child (revdir d) nP) then
               '(h, root) ← ROTATE_TREE d h P root;
               pp ← rd rbnode.parent h P;
               mret (h, root, P, pp)
             else mret (h, root, x, P)) = Ok (h1, root1, x1, q) ∧
            rep h1 root1 T1 ∧ addrs T1 = addrs T ∧ keys T1 = keys T ∧
            q ∈ addrs T ∧
            h1 !! G = Some nG1 ∧ child d nG1 ≠ NULL ∧
            rbnode.color nG1 = NODE_COLOR_BLACK ∧
            ((rbnode.parent nG1 = NULL ∧ G = root1) ∨
             (∃ nGG, rbnode.parent nG1 ∈ addrs T ∧
                     h1 !! rbnode.parent nG1 = Some nGG ∧
                     (rbnode.left nGG = G ∨ rbnode.right nGG = G))) ∧
            (∀ a, a ∉ addrs T → h1 !! a = h !! a))
    as (h1 & root1 & x1 & q & T1 & nG1 & -> & R1 & A1 & K1 & Hq & HnG1 &
        HcG1 & HbG1 & Hlink1 & Fo1).
  { destruct (decide (x = child (revdir d) nP)) as [Epc|Epc].
    - destruct (ROTATE_TREE_rep d h P root T nP)
        as (h1 & root1 & Er & -> & R1 & F1 & S1 & C1 & _ & P1 & Fo1);
        [done|done|done|done|by rewrite <-Epc|right; exists nG; by rewrite HpP|].
      rewrite decide_False in Er by congruence. subst root1. mstep.
      destruct (h1 !! P) as [nP1|] eqn:HnP1; [|done]. injection P1 as P1.
      rewrite (rd_Ok rbnode.parent _ _ _ HP0 HnP1). mstep. rewrite P1, HpP.
      rewrite HpP in S1, F1.
      specialize (S1 nG HG0 HnG). rewrite <-Epc in S1.
      destruct (ROTATE_TREE_same d P T Hnd HP) as [A1 K1].
      eexists h1, root, P, G, _, _. split; [done|]. split; [done|].
      split; [done|]. split; [done|]. split; [done|]. split; [done|].
      split.
      { destruct (decide (P = rbnode.left nG)) as [E|E]; destruct d; simpl in *;
          congruence. }
      split; [by destruct (decide (P = rbnode.left nG))|].
      replace (rbnode.parent (if decide (P = rbnode.left nG)
                              then rbnode.set_left x nG
                              else rbnode.set_right x nG))
        with (rbnode.parent nG) by (by destruct (decide (P = rbnode.left nG))).
      split; [|done].
      destruct Hlink as [?|(nGG & HGG & HnGG & HchGG)]; [by left|right].
      exists nGG. split; [done|]. split; [|done].
      destruct (child_link_subtree T h root _ nGG G Hrep Hnd HGG HnGG HchGG HG0)
        as (_ & _ & Hsub).
      rewrite F1; [done| |].
      + intros Hin. apply Hsub.
        by apply (subtree_child h root T G nG P Hrep Hnd HG HnG HchG HP0).
      + intros E. apply Hsub. rewrite E.
        apply (rep_root_in h); [|done]. by apply (subtree_rep G T h root).
    - eexists h, root, x, P, T, nG. split; [done|]. split; [done|].
      split; [done|]. split; [done|]. split; [done|]. split; [done|].
      split; [congruence|]. done. }
  mstep.
  assert (Hnd1 : NoDup (addrs T1)) by (by rewrite A1).
  destruct (ROTATE_TREE_rep (revdir d) h1 G root1 T1 nG1)
    as (h2 & root2 & _ & -> & R2 & _ & _ & C2 & _ & P2 & Fo2);
    [done|done|by rewrite A1|done|by rewrite revdir_involutive|
     by rewrite A1|].
  mstep.
  destruct (ROTATE_TREE_same (revdir d) G T1 Hnd1 ltac:(by rewrite A1))
    as [A2 K2].
  destruct (h2 !! G) as [nG2|] eqn:HnG2; [|done].
  assert (HbG2 : rbnode.color nG2 = NODE_COLOR_BLACK).
  { pose proof (C2 G) as E. unfold col in E. rewrite HnG2, HnG1 in E.
    simpl in E. congruence. }
  assert (Hq2 : q ∈ addrs (replace_at G (rotate (revdir d) (subtree G T1)) T1))
    by (by rewrite A2, A1).
  destruct (rep_lookup _ _ _ _ R2 Hq2) as (Hq0 & nq & Hnq & _).
  destruct (SWAP_COLOR_blackened h2 G q nG2 nq) as (h3 & -> & B3 & Cq & Fo3);
    [done..|].
  mstep.
  destruct (blackened_rep _ _ _ _ B3 _ R2) as (T3 & R3 & A3 & K3).
  exists h3, q, root2, T3. split; [done|]. split; [done|].
  split; [by rewrite A3, A2|]. split; [by rewrite K3, K2|].
  split; [done|]. split; [by rewrite Cq, HbG2|].
  intros a Ha. rewrite Fo3 by (by intros ->).
  rewrite Fo2 by (by rewrite A1). by apply Fo1.
Qed.

Lemma wr_color_blackened X (h : heap) a c n :
  a ≠ NULL → h !! a = Some n → c = NODE_COLOR_BLACK ∨ X a →
  ∃ h', wr (rbnode.set_color c) h a = Ok h' ∧ blackened X h h' ∧
        (∀ x, x ≠ a → h' !! x = h !! x).
Proof.
  intros Ha Hn Hc. rewrite (wr_Ok _ _ _ _ Ha Hn). eexists. split; [done|].
  split; [apply blackened_insert; [done|]; tauto|].
  intros x ?. by rewrite lookup_insert_ne.
Qed.

Lemma blackened_lookup X (h h' : heap) a n :
  blackened X h h' → h !! a = Some n → ∃ n', h' !! a = Some n'.
Proof.
  intros Hb Hn. specialize (Hb a). rewrite Hn in Hb.
  destruct Hb as (c & -> & _). eauto.
Qed.

Lemma fixup_exit_black (h : heap) x n root fuel :
  x ≠ NULL → h !! x = Some n → rbnode.color n = NODE_COLOR_BLACK →
  fixup_loop (S fuel) h x root = Ok (h, x, root).
Proof.
  intros Hx0 Hn Hc. simpl. unfold fixup_cond. case_decide; [done|].
  rewrite (rd_Ok rbnode.color _ _ _ Hx0 Hn). mstep. by rewrite decide_True.
Qed.

(** The fixup loop on a represented tree [T], started at a RED node [x]
    whose ancestors [rest] have accurate parent links and alternate as the
    colour invariant demands: it returns, and the tree in memory keeps its
    in-order addresses and keys. *)
Lemma fixup_loop_rep fuel :
  ∀ rest (h : heap) x root T,
    rep h root T → NoDup (addrs T) →
    Forall (λ a, a ∈ addrs T) (x :: rest) → NoDup (x :: rest) →
    chain h (x :: rest) → last (x :: rest) = Some root →
    rbnode.parent <$> h !! root = Some NULL →
    alt h rest → (rest ≠ [] → col h root = Some NODE_COLOR_BLACK) →
    (length rest < fuel)%nat →
    ∃ h' x' root' T',
      fixup_loop fuel h x root = Ok (h', x', root') ∧
      rep h' root' T' ∧ addrs T' = addrs T ∧ keys T' = keys T ∧
      (∀ a, a ∉ addrs T → h' !! a = h !! a).
Proof.
  induction fuel as [|fuel IH];
    intros rest h x root T Hrep HndT Hin Hnd Hch Hlast Hrp Halt Hrb Hf; [lia|].
  simpl. unfold fixup_cond.
  destruct (decide (x = root)) as [->|Hxr]; [mstep; by exists h, root, root, T|].
  destruct rest as [|P rest']; [simpl in Hlast; congruence|].
  apply Forall_cons in Hin as [Hx Hin].
  destruct (rep_lookup _ _ _ _ Hrep Hx) as (Hx0 & nx & Hnx & _).
  rewrite (rd_Ok rbnode.color _ _ _ Hx0 Hnx). mstep.
  case_decide as Hcx; [mstep; by exists h, x, root, T|].
  destruct Hch as (HpP & _ & Hch). rewrite Hnx in HpP. injection HpP as HpP.
  rewrite (rd_Ok rbnode.parent _ _ _ Hx0 Hnx). mstep. rewrite HpP.
  apply Forall_cons in Hin as [HP Hin].
  destruct (rep_lookup _ _ _ _ Hrep HP) as (HP0 & nP & HnP & _).
  rewrite (rd_Ok rbnode.color _ _ _ HP0 HnP). mstep.
  case_bool_decide as HcP; [|mstep; by exists h, x, root, T].
  (* the loop body *)
  unfold fixup_body.
  rewrite (rd_Ok rbnode.parent _ _ _ Hx0 Hnx). mstep. rewrite HpP.
  assert (P ≠ root) as HPr.
  { intros ->. specialize (Hrb ltac:(done)). unfold col in Hrb.
    rewrite HnP in Hrb. simpl in Hrb. congruence. }
  destruct rest' as [|G rest'']; [simpl in Hlast; congruence|].
  destruct Hch as (HpG & HchG & Hch). rewrite HnP in HpG. injection HpG as HpG.
  rewrite (rd_Ok rbnode.parent _ _ _ HP0 HnP). mstep. rewrite HpG.
  apply Forall_cons in Hin as [HG Hin].
  destruct (rep_lookup _ _ _ _ Hrep HG) as (HG0 & nG & HnG & HGl & HGr).
  rewrite HnG in HchG. simpl in HchG.
  destruct Halt as (HaltG & Halt).
  assert (HcG : rbnode.color nG = NODE_COLOR_BLACK).
  { unfold col in HaltG. rewrite HnP, HnG in HaltG. simpl in HaltG.
    rewrite HcP in HaltG. by injection (HaltG eq_refl). }
  apply NoDup_cons in Hnd as (HxN & Hnd).
  apply NoDup_cons in Hnd as (HPN & Hnd).
  apply NoDup_cons in Hnd as (HGN & Hnd).
  assert (x ≠ P) by set_solver. assert (P ≠ G) by set_solver.
  rewrite !(rd_Ok _ _ _ _ HG0 HnG). mstep.
  (* which child the parent is, and the uncle *)
  set (isleft := bool_decide (P = rbnode.left nG)).
  set (uncle := if isleft then rbnode.right nG else rbnode.left nG).
  assert ((if decide (P = rbnode.left nG)
           then mret (rbnode.right nG, true)
           else mret (rbnode.left nG, false)) = Ok (uncle, isleft)) as ->.
  { subst uncle isleft.
    by case_decide; [rewrite bool_decide_true|rewrite bool_decide_false]. }
  mstep.
  assert (Huncle : uncle = NULL ∨ uncle ∈ addrs T)
    by (subst uncle; by destruct isleft).
  assert (HchildG : child (if isleft then left else right) nG = P).
  { subst isleft. case_bool_decide as E; simpl; [done|].
    destruct HchG as [[= ?]|[= ?]]; congruence. }
  assert (Hlink : (rbnode.parent nG = NULL ∧ G = root) ∨
            (∃ nGG, rbnode.parent nG ∈ addrs T ∧
                    h !! rbnode.parent nG = Some nGG ∧
                    (rbnode.left nGG = G ∨ rbnode.right nGG = G))).
  { destruct rest'' as [|GG rest3].
    - left. simpl in Hlast. injection Hlast as <-. rewrite HnG in Hrp.
      by injection Hrp.
    - right. destruct Hch as (HpGG & HchGG & _). rewrite HnG in HpGG.
      injection HpGG as ->. apply Forall_cons in Hin as [HGG _].
      destruct (rep_lookup _ _ _ _ Hrep HGG) as (_ & nGG & HnGG & _).
      exists nGG. rewrite HnGG in HchGG. simpl in HchGG.
      split; [done|]. split; [done|].
      destruct HchGG as [[= ?]|[= ?]]; auto. }
  destruct (decide (uncle = NULL)) as [HU0|HU0].
  2: assert (HU : uncle ∈ addrs T) by (by destruct Huncle);
     destruct (rep_lookup _ _ _ _ Hrep HU) as (_ & nU & HnU & _);
     rewrite (rd_Ok rbnode.color _ _ _ HU0 HnU); mstep;
     case_bool_decide as HcU.
  2:{ (* uncle RED: recolour and move up *)
    mstep.
    pose (X := λ a : ptr, a = G).
    destruct (wr_color_blackened X h G NODE_COLOR_RED nG)
      as (h1 & -> & Hb1 & Fo1); [done|done|by right|]. mstep.
    destruct (blackened_lookup _ _ _ _ _ Hb1 HnU) as (nU1 & HnU1).
    destruct (wr_color_blackened X h1 uncle NODE_COLOR_BLACK nU1)
      as (h2 & -> & Hb2 & Fo2); [done|done|by left|]. mstep.
    assert (Hb12 : blackened X h h2) by eauto using blackened_trans.
    destruct (blackened_lookup _ _ _ _ _ Hb12 HnP) as (nP2 & HnP2).
    destruct (wr_color_blackened X h2 P NODE_COLOR_BLACK nP2)
      as (h3 & -> & Hb3 & Fo3); [done|done|by left|]. mstep.
    assert (Hb : blackened X h h3) by eauto using blackened_trans.
    destruct (blackened_rep _ _ _ _ Hb _ Hrep) as (T3 & R3 & A3 & K3).
    destruct (IH rest'' h3 G root T3)
      as (h' & x' & root' & T' & E & R & A & K & Fo).
    - done.
    - by rewrite A3.
    - rewrite A3. by apply Forall_cons.
    - by apply NoDup_cons.
    - by eapply blackened_chain.
    - done.
    - by destruct (blackened_links _ _ _ root Hb) as (-> & _).
    - eapply blackened_alt; [done| |by destruct rest''; [|apply Halt]].
      intros a Ha ->. done.
    - intros Hne.
      assert (root ∈ rest'') as Hr.
      { change (last (x :: P :: G :: rest'')) with (last (G :: rest'')) in Hlast.
        destruct rest'' as [|z l'']; [done|].
        change (last (G :: z :: l'')) with (last (z :: l'')) in Hlast.
        apply last_Some in Hlast as [l' ->]. set_solver. }
      destruct (blackened_col X h h3 root Hb) as [E|E];
        [by intros ->| |done].
      rewrite E. by apply Hrb.
    - simpl in Hf. lia.
    - exists h', x', root', T'. split; [done|]. split; [done|].
      split; [congruence|]. split; [congruence|].
      intros a Ha. rewrite Fo by (by rewrite A3).
      rewrite Fo3 by (by intros ->). rewrite Fo2 by (by intros ->).
      apply Fo1. by intros ->. }
  all: mstep.
  all: assert (Hrot : ∃ h' x' root' T',
           rotate_fix (if isleft then left else right) h x P G root
             = Ok (h', x', root') ∧
           rep h' root' T' ∧ addrs T' = addrs T ∧ keys T' = keys T ∧
           x' ∈ addrs T ∧ col h' x' = Some NODE_COLOR_BLACK ∧
           (∀ a, a ∉ addrs T → h' !! a = h !! a))
      by (by apply (rotate_fix_rep _ _ _ _ _ _ _ nP nG)).
  all: destruct Hrot
    as (h' & x' & root' & T' & Hrot & R' & A' & K' & Hx' & Hcx' & Fo').
  all: destruct fuel as [|fuel]; [simpl in Hf; lia|].
  all: destruct isleft;
    [change (rd rbnode.right h P ≫= _) with (rotate_fix left h x P G root)
    |change (rd rbnode.left h P ≫= _) with (rotate_fix right h x P G root)].
  all: rewrite Hrot; mstep.
  all: rewrite <-A' in Hx'.
  all: destruct (rep_lookup _ _ _ _ R' Hx') as (Hx'0 & nx' & Hnx' & _).
  all: unfold col in Hcx'; rewrite Hnx' in Hcx'; injection Hcx' as Hcx'.
  all: rewrite (fixup_exit_black _ _ nx') by done.
  all: by exists h', x', root', T'.
Qed.

(** ** What [insertRbNode] leaves in memory *)

Lemma insertRbNode_rep st t node key fuel :
  valid_tree st t → node ≠ NULL → node ∉ addrs t →
  mem st !! node = Some (rbnode.mk NODE_COLOR_RED NULL NULL NULL key) →
  (height t < fuel)%nat →
  ∃ st' t',
    insertRbNode fuel st node = Ok (st', 0) ∧
    rep (mem st') (rbtree.root (tree st')) t' ∧
    addrs t' =
      addrs (place (rbtree.comparer (tree st)) t node NODE_COLOR_RED key) ∧
    keys t' =
      keys (place (rbtree.comparer (tree st)) t node NODE_COLOR_RED key) ∧
    root_color t' = Some NODE_COLOR_BLACK ∧
    rbtree.comparer (tree st') = rbtree.comparer (tree st) ∧
    (∀ a, a ≠ node → a ∉ addrs t → mem st' !! a = mem st !! a).
Proof.
  intros [Hrep Hnd Hpar Hrpar (Hcol & Hroot & Hred & _ & _)] Hnode Hfresh Hinit Hf.
  set (nd := rbnode.mk NODE_COLOR_RED NULL NULL NULL key) in *.
  set (cmp := rbtree.comparer (tree st)) in *.
  set (h := mem st) in *.
  destruct (BstInsert_exec cmp node nd Hnode eq_refl eq_refl t h
              (rbtree.root (tree st)) fuel)
    as (h1 & E1 & R1 & F1 & V1 & C1 & P1); [done..|].
  unfold insertRbNode. fold h cmp. rewrite E1. mstep.
  change (rbnode.color nd) with NODE_COLOR_RED in *.
  change (rbnode.key nd) with key in *.
  set (t' := place cmp t node NODE_COLOR_RED key) in *.
  assert (Hperm : addrs t' ≡ₚ node :: addrs t) by apply place_addrs.
  assert (Hnd' : NoDup (addrs t')) by (rewrite Hperm; by apply NoDup_cons).
  assert (Hcol1 : ∀ a, col h1 a = col h a).
  { intros a. pose proof (V1 a) as Va. unfold col.
    destruct (h !! a) as [n|]; [|by rewrite Va].
    destruct Va as (n' & -> & Hc' & _). simpl. by rewrite Hc'. }
  destruct (fixup_loop_rep fuel (reverse (descent cmp t key).*1)
              h1 node (root_addr t') t')
    as (h2 & x' & root2 & T2 & -> & R2 & A2 & K2 & Fo2).
  - done.
  - done.
  - apply Forall_forall. intros a Ha. rewrite Hperm. apply elem_of_cons.
    by apply (path_up_elem_of cmp t node key).
  - by apply (path_up_NoDup cmp t node key).
  - done.
  - apply path_up_last.
  - rewrite P1. subst t'. rewrite place_root. destruct t; [by rewrite Hinit|].
    rewrite <-(rep_root _ _ _ Hrep). by apply Hrpar.
  - apply (alt_ext h); [done|]. by eapply descent_alt.
  - intros Hne. rewrite Hcol1. subst t'. rewrite place_root.
    destruct t as [|b cb x l r]; [done|].
    destruct Hrep as (_ & _ & n & Hn & Hc & _). unfold col. simpl.
    rewrite Hn. simpl. by rewrite Hc, Hroot.
  - rewrite length_reverse, length_fmap.
    pose proof (descent_length cmp t key). lia.
  - mstep.
    assert (Hin2 : node ∈ addrs T2) by (rewrite A2, Hperm; set_solver).
    destruct T2 as [|a c k l r]; [by apply elem_of_nil in Hin2|].
    pose proof R2 as (-> & Ha0 & n & Hn & _).
    rewrite (wr_Ok _ _ _ _ Ha0 Hn). mstep.
    assert (Hb : blackened (λ _, True) h2
                   (<[a := rbnode.set_color NODE_COLOR_BLACK n]> h2))
      by (apply blackened_insert; auto).
    destruct (blackened_rep _ _ _ _ Hb _ R2) as (T3 & R3 & A3 & K3).
    eexists _, T3. split; [done|]. simpl.
    split; [done|]. split; [congruence|]. split; [congruence|].
    split; [|split; [done|]].
    + destruct T3 as [|a3 c3 k3 l3 r3]; [done|].
      destruct R3 as (<- & _ & n3 & Hn3 & Hc3 & _).
      rewrite lookup_insert_eq in Hn3. injection Hn3 as <-. simpl in Hc3.
      simpl. by rewrite Hc3.
    + intros b Hbn Hbt.
      assert (Hbt' : b ∉ addrs t') by (rewrite Hperm; set_solver).
      assert (b ≠ a).
      { intros ->. apply Hbt'. rewrite <-A2. simpl. set_solver. }
      rewrite lookup_insert_ne by done. rewrite Fo2 by done. by apply F1.
Qed.

(** ** Heights, sorted keys and the weak order invariant *)

Lemma height_place cmp t a c k :
  (height (place cmp t a c k) ≤ S (height t))%nat.
Proof.
  induction t as [|b cb x l IHl r IHr]; simpl; [lia|].
  case_decide; simpl; lia.
Qed.

Lemma height_le_length t : (height t ≤ length (addrs t))%nat.
Proof.
  induction t as [|b cb x l IHl r IHr]; simpl; [lia|].
  rewrite length_app. simpl. lia.
Qed.

Lemma descent_lookup cmp k (h : heap) t :
  ∀ p e, rep h p t → e ∈ descent cmp t k →
    e.1 ≠ NULL ∧ e.1 ∈ addrs t ∧ ∃ n, h !! e.1 = Some n ∧ rbnode.key n = e.2.
Proof.
  induction t as [|b cb x l IHl r IHr]; intros p e Hrep He.
  - by apply elem_of_nil in He.
  - destruct Hrep as (-> & Hb & n & Hn & _ & Hk & Hl & Hr). simpl in *.
    apply elem_of_cons in He as [->|He]; [simpl; split; [done|]; split; [set_solver|eauto]|].
    destruct (decide (0 < cmp x k)).
    + destruct (IHl _ _ Hl He) as (? & ? & ?). split; [done|]. split; [set_solver|done].
    + destruct (IHr _ _ Hr He) as (? & ? & ?). split; [done|]. split; [set_solver|done].
Qed.

Lemma nondecreasing_sorted cmp ks :
  (∀ x y z, cmp x y ≤ 0 → cmp y z ≤ 0 → cmp x z ≤ 0) →
  nondecreasing cmp ks → sorted cmp ks.
Proof.
  intros Htr. induction ks as [|k [|k' ks'] IH]; [done| |].
  - intros _. simpl. auto.
  - intros [Hkk' Hnd]. specialize (IH Hnd). split; [|done].
    destruct IH as [Hk' _]. apply Forall_cons. split; [done|].
    eapply Forall_impl; [done|]. simpl. eauto.
Qed.

Lemma sorted_app cmp l k r :
  sorted cmp (l ++ k :: r) →
  sorted cmp l ∧ sorted cmp r ∧
  Forall (λ x, cmp x k ≤ 0) l ∧ Forall (λ x, cmp k x ≤ 0) r.
Proof.
  induction l as [|x l IH]; simpl.
  - intros [? ?]. auto.
  - intros [Hx Hs]. destruct (IH Hs) as (? & ? & ? & ?).
    apply Forall_app in Hx as [Hxl Hxk]. apply Forall_cons in Hxk as [? _].
    split; [done|]. split; [done|]. split; [|done]. by apply Forall_cons.
Qed.

Lemma sorted_inv_order_weak cmp t :
  comparator cmp → sorted cmp (keys t) → inv_order_weak cmp t.
Proof.
  intros Hcmp. induction t as [|b cb x l IHl r IHr]; [done|]. simpl.
  intros Hs. apply sorted_app in Hs as (Hl & Hr & Hlx & Hxr).
  split; [done|]. split; [|by auto].
  eapply Forall_impl; [done|]. simpl. intros y. by apply comparator_le.
Qed.

Lemma inv_order_sorted cmp t :
  comparator cmp → inv_order cmp t → sorted cmp (keys t).
Proof.
  intros Hcmp Hord. apply nondecreasing_sorted; [apply Hcmp|].
  apply inv_order_nondecreasing; [|done]. intros x y. by apply comparator_ge.
Qed.

(** A search on a weakly ordered tree: it returns a node whose key compares
    equal exactly when the tree holds such a key. *)
Lemma BstSearch_complete cmp (h : heap) p t k fuel :
  rep h p t → comparator cmp → inv_order_weak cmp t → (height t < fuel)%nat →
  ∃ found,
    BstSearch fuel h p k cmp = Ok found ∧
    (found = NULL ↔ ∀ x, x ∈ keys t → cmp x k ≠ 0) ∧
    (found ≠ NULL →
       found ∈ addrs t ∧
       ∃ n, h !! found = Some n ∧ cmp (rbnode.key n) k = 0).
Proof.
  intros Hrep Hcmp Hord Hf. exists (first_match cmp t k).
  split; [by apply BstSearch_rep|].
  destruct (head (filter (λ e, cmp e.2 k = 0) (descent cmp t k)))
    as [e|] eqn:He.
  - apply first_match_Some in He as (-> & Hin & Hz).
    destruct (descent_lookup cmp k h t p e Hrep Hin) as (He0 & Hea & n & Hn & Hk).
    split; [split; [done|]|].
    + intros Hno. destruct (Hno e.2); [by eapply descent_keys|done].
    + intros _. split; [done|]. exists n. by rewrite Hk.
  - apply first_match_None in He as (-> & Hno).
    split; [split; [|done]|done].
    intros _ x Hx Hxk.
    destruct (descent_complete cmp t k x Hcmp Hord Hx Hxk) as (e & Hin & Hz).
    by apply (Hno e).
Qed.

(** ** Splicing out a node with one child *)



(** ** Deleting a node whose successor is its right child *)







(** ** The in-order successor *)



Lemma subtree_Leaf t : NULL ∉ addrs t → subtree NULL t = Leaf.
Proof.
  induction t as [|a c k l IHl r IHr]; [done|]. simpl. intros Hin.
  rewrite decide_False by set_solver.
  case_decide; [set_solver|]. apply IHr. set_solver.
Qed.


(** ** Deleting a node with two children *)


(** ** Insertion under a BLACK parent *)

Lemma link_parent_Node cmp b cb x l r k :
  link_parent cmp (Node b cb x l r) k =
    match (if decide (0 < cmp x k) then l else r) with
    | Leaf => b
    | c => link_parent cmp c k
    end.
Proof.
  unfold link_parent. simpl.
  destruct (decide (0 < cmp x k)); [destruct l|destruct r]; try done;
    simpl; by case_decide.
Qed.

Lemma place_root_color cmp t a c k :
  t ≠ Leaf → root_color (place cmp t a c k) = root_color t.
Proof. destruct t; [done|]. intros _. simpl. by case_decide. Qed.

Lemma place_inv_colors cmp t a k :
  inv_colors t → inv_colors (place cmp t a NODE_COLOR_RED k).
Proof.
  induction t as [|b cb x l IHl r IHr]; simpl; [tauto|].
  intros (? & ? & ?). case_decide; simpl; auto.
Qed.

Lemma place_inv_red cmp k (h : heap) t :
  ∀ p a, rep h p t → t ≠ Leaf → inv_red t →
    col h (link_parent cmp t k) = Some NODE_COLOR_BLACK →
    inv_red (place cmp t a NODE_COLOR_RED k).
Proof.
  induction t as [|b cb x l IHl r IHr]; intros p a Hrep Ht Hred Hcol; [done|].
  destruct Hrep as (-> & Hb & n & Hn & Hc & _ & Hl & Hr).
  destruct Hred as (Hrb & Hrl & Hrr). rewrite link_parent_Node in Hcol.
  assert (Hleaf : cb = NODE_COLOR_BLACK → inv_red (Node a NODE_COLOR_RED k Leaf Leaf) ∧
            (cb = NODE_COLOR_RED → False)).
  { intros ->. split; [|done]. simpl. split; [|done]. intros _. done. }
  assert (Hcb : col h b = Some cb) by (unfold col; by rewrite Hn; simpl; rewrite Hc).
  simpl. destruct (decide (0 < cmp x k)); simpl.
  - destruct l as [|bl cl xl ll rl].
    + rewrite Hcb in Hcol. injection Hcol as ->.
      destruct (Hleaf eq_refl) as [? ?]. simpl. split; [done|]. done.
    + split; [|split; [|done]].
      * intros E. destruct (Hrb E) as [? ?]. split; [|done].
        by rewrite place_root_color.
      * by apply (IHl (rbnode.left n)).
  - destruct r as [|br cr xr lr rr].
    + rewrite Hcb in Hcol. injection Hcol as ->.
      destruct (Hleaf eq_refl) as [? ?]. simpl. split; [done|]. done.
    + split; [|split; [done|]].
      * intros E. destruct (Hrb E) as [? ?]. split; [done|].
        by rewrite place_root_color.
      * by apply (IHr (rbnode.right n)).
Qed.

Lemma place_black_counts cmp t a k :
  ∀ x, x ∈ black_counts (place cmp t a NODE_COLOR_RED k) →
       x ∈ black_counts t.
Proof.
  induction t as [|b cb y l IHl r IHr]; intros x.
  - simpl. rewrite ?decide_False by done. simpl. set_solver.
  - simpl. destruct (decide (0 < cmp y k)); simpl;
      rewrite !list_elem_of_fmap; intros (z & -> & Hz); exists z;
      (split; [done|]); rewrite elem_of_app in Hz |- *;
      destruct Hz as [Hz|Hz]; auto.
Qed.

Lemma place_inv_black_height cmp t a k :
  inv_black_height t → inv_black_height (place cmp t a NODE_COLOR_RED k).
Proof.
  intros H x y Hx Hy. apply H; by eapply place_black_counts.
Qed.

Lemma link_parent_in cmp t k : t ≠ Leaf → link_parent cmp t k ∈ addrs t.
Proof.
  induction t as [|b cb x l IHl r IHr]; intros Ht; [done|].
  rewrite link_parent_Node. simpl.
  destruct (decide (0 < cmp x k)); [destruct l|destruct r];
    set_solver.
Qed.

(** When the node under which the new node is linked is BLACK, the fixup
    has nothing to do and the tree stays valid. *)
Lemma insertRbNode_black_parent_valid st t node key fuel :
  valid_tree st t → antisymmetric (rbtree.comparer (tree st)) →
  node ≠ NULL → node ∉ addrs t →
  mem st !! node = Some (rbnode.mk NODE_COLOR_RED NULL NULL NULL key) →
  (height t < fuel)%nat → t ≠ Leaf →
  col (mem st) (link_parent (rbtree.comparer (tree st)) t key)
    = Some NODE_COLOR_BLACK →
  ∃ st',
    insertRbNode fuel st node = Ok (st', 0) ∧
    valid_tree st'
      (place (rbtree.comparer (tree st)) t node NODE_COLOR_RED key).
Proof.
  intros [Hrep Hnd Hpar Hrpar (Hcol & Hroot & Hred & Hbh & Hord)] Hanti Hnode
    Hfresh Hinit Hf Ht Hblack.
  set (nd := rbnode.mk NODE_COLOR_RED NULL NULL NULL key) in *.
  set (cmp := rbtree.comparer (tree st)) in *.
  set (h := mem st) in *.
  destruct (BstInsert_exec cmp node nd Hnode eq_refl eq_refl t h
              (rbtree.root (tree st)) fuel)
    as (h1 & E1 & HP); [done..|].
  pose proof (place_link_parent cmp t node nd h h1 Ht HP) as Hpn.
  destruct HP as (R1 & F1 & V1 & C1 & P1).
  unfold insertRbNode. fold h cmp. rewrite E1. mstep.
  change (rbnode.color nd) with NODE_COLOR_RED in *.
  change (rbnode.key nd) with key in *.
  set (t' := place cmp t node NODE_COLOR_RED key) in *.
  assert (Hperm : addrs t' ≡ₚ node :: addrs t) by apply place_addrs.
  assert (Hroot' : root_addr t' = rbtree.root (tree st)).
  { unfold t'. rewrite place_root. destruct t; [done|].
    symmetry. by apply (rep_root h). }
  assert (Hrin : rbtree.root (tree st) ∈ addrs t).
  { destruct t as [|b ? ? ? ?]; [done|]. destruct Hrep as (-> & _). set_solver. }
  assert (Hcol1 : ∀ a, col h1 a = col h a).
  { intros a. pose proof (V1 a) as Va. unfold col.
    destruct (h !! a) as [n|]; [|by rewrite Va].
    destruct Va as (n' & -> & Hc' & _). simpl. by rewrite Hc'. }
  (* the loop condition fails at once *)
  assert (Hnin : node ∈ addrs t') by (rewrite Hperm; set_solver).
  destruct (rep_lookup _ _ _ _ R1 Hnin) as (_ & nn & Hnn & _).
  assert (Hcn : rbnode.color nn = NODE_COLOR_RED).
  { pose proof (V1 node) as Va. rewrite Hinit in Va.
    destruct Va as (n' & Hn' & Hc' & _).
    assert (n' = nn) as -> by congruence. exact Hc'. }
  rewrite Hnn in Hpn. injection Hpn as Hpn.
  set (P := link_parent cmp t key) in *.
  assert (HcP : col h1 P = Some NODE_COLOR_BLACK) by (by rewrite Hcol1).
  unfold col in HcP.
  destruct (h1 !! P) as [nP|] eqn:HnP; [|done]. injection HcP as HcP.
  assert (HPin : P ∈ addrs t) by (by apply link_parent_in).
  destruct (rep_lookup _ _ _ _ Hrep HPin) as (HP0 & _).
  destruct fuel as [|fuel]; [lia|].
  cbn [fixup_loop]. unfold fixup_cond.
  rewrite decide_False by (rewrite Hroot'; by intros ->).
  rewrite (rd_Ok rbnode.color _ _ _ Hnode Hnn). mstep.
  rewrite decide_False by (by rewrite Hcn).
  rewrite (rd_Ok rbnode.parent _ _ _ Hnode Hnn). mstep. rewrite Hpn.
  rewrite (rd_Ok rbnode.color _ _ _ HP0 HnP). mstep.
  rewrite bool_decide_false by (by rewrite HcP). mstep.
  (* blackening the root, which is BLACK *)
  rewrite Hroot'.
  destruct (rep_lookup _ _ _ _ Hrep Hrin) as (Hr0 & nr0 & Hnr0 & _).
  assert (Hrc : col h (rbtree.root (tree st)) = Some NODE_COLOR_BLACK).
  { destruct t as [|b cb x l r]; [done|].
    destruct Hrep as (Eb & _ & n & Hn & Hc & _). unfold col.
    rewrite Eb, Hn. simpl. by rewrite Hc, Hroot. }
  rewrite <-Hcol1 in Hrc. unfold col in Hrc.
  destruct (h1 !! rbtree.root (tree st)) as [nr|] eqn:Hnr; [|done].
  injection Hrc as Hrc.
  rewrite (wr_Ok _ _ _ _ Hr0 Hnr). mstep.
  rewrite <-Hrc, set_color_id, (insert_id _ _ _ Hnr).
  eexists. split; [done|]. split; simpl.
  - by rewrite <-Hroot'.
  - by rewrite Hperm; apply NoDup_cons.
  - intros a n Ha Hn. rewrite Hperm in Ha |- *.
    pose proof (V1 a) as Va. apply elem_of_cons in Ha as [->|Ha].
    + rewrite Hinit in Va. destruct Va as (n' & Hn' & _ & _ & Hp).
      assert (n' = n) as -> by congruence.
      destruct Hp as [->|Hp]; [by left|]. right. by right.
    + destruct (rep_lookup _ _ _ _ Hrep Ha) as (_ & n0 & Hn0 & _).
      rewrite Hn0 in Va. destruct Va as (n' & Hn' & _ & _ & Hp).
      assert (n' = n) as -> by congruence.
      destruct Hp as [->|Hp]; [|right; by right].
      destruct (Hpar _ _ Ha Hn0) as [?|?]; [by left|right; by right].
  - intros _. rewrite <-Hroot', P1, Hroot'. by apply Hrpar.
  - split; [by apply place_inv_colors|].
    split.
    { unfold inv_root. pose proof (place_root_color cmp t node NODE_COLOR_RED key Ht) as E.
      fold t' in E. destruct t' as [|? c' ? ? ?]; [done|].
      destruct t as [|? c0 ? ? ?]; [done|]. simpl in E, Hroot. congruence. }
    split; [by apply (place_inv_red cmp key h t (rbtree.root (tree st)))|].
    split; [by apply place_inv_black_height|].
    by apply place_inv_order.
Qed.

(** ** Fields the operations never write *)

Lemma preserves_refl {A} (f : rbnode.t → A) (h : heap) : preserves f h h.
Proof. done. Qed.

Lemma preserves_trans {A} (f : rbnode.t → A) (h1 h2 h3 : heap) :
  preserves f h1 h2 → preserves f h2 h3 → preserves f h1 h3.
Proof. intros H12 H23 a. by rewrite H23. Qed.

Lemma wr_preserves {A} (f : rbnode.t → A) upd (h h' : heap) p :
  (∀ n, f (upd n) = f n) → wr upd h p = Ok h' → preserves f h h'.
Proof.
  intros Hf (_ & n & Hn & ->)%wr_inv a.
  destruct (decide (a = p)) as [->|Hne].
  - by rewrite lookup_insert_eq, Hn; simpl; rewrite Hf.
  - by rewrite lookup_insert_ne.
Qed.

(** Inversion of a run that returned: split binds, conditionals and pairs
    until only reads, writes and calls are left. *)
Ltac run_inv :=
  repeat match goal with
  | H : Ok _ = Ok _ |- _ => injection H as ?; subst
  | H : mret _ = Ok _ |- _ => injection H as ?; subst
  | H : Fault = Ok _ |- _ => discriminate H
  | H : Timeout = Ok _ |- _ => discriminate H
  | H : (?m ≫= _) = Ok _ |- _ =>
    let E := fresh "E" in
    destruct m eqn:E; [|discriminate H|discriminate H];
    cbn [mbind mret result_bind result_ret] in H
  | H : (let '(_, _) := ?p in _) = Ok _ |- _ => destruct p
  | H : (if decide ?P then _ else _) = Ok _ |- _ => destruct (decide P)
  | H : (if ?b then _ else _) = Ok _ |- _ => destruct b eqn:?
  | H : match ?x with Some _ => _ | None => _ end = Ok _ |- _ =>
    destruct x eqn:?
  end.

Ltac chain_preserves :=
  intros ?a;
  repeat match goal with
  | F : preserves _ _ ?h' |- context [?h' !! _] => rewrite (F _)
  end;
  done.

Lemma ROTATE_TREE_preserves {A} (f : rbnode.t → A) d (h h' : heap)
    node root root' :
  (∀ v n, f (rbnode.set_left v n) = f n) →
  (∀ v n, f (rbnode.set_right v n) = f n) →
  (∀ v n, f (rbnode.set_parent v n) = f n) →
  ROTATE_TREE d h node root = Ok (h', root') → preserves f h h'.
Proof.
  intros Hl Hr Hp H. unfold ROTATE_TREE in H. run_inv.
  all: repeat match goal with
  | H : wr ?upd ?h ?p = Ok ?h' |- _ =>
    let F := fresh "F" in
    assert (F : preserves f h h')
      by (apply (wr_preserves f upd h h' p); [destruct d; simpl; auto|exact H]);
    clear H
  end.
  all: chain_preserves.
Qed.

Lemma BstInsert_preserves {A} (f : rbnode.t → A) cmp node fuel :
  (∀ v n, f (rbnode.set_left v n) = f n) →
  (∀ v n, f (rbnode.set_right v n) = f n) →
  (∀ v n, f (rbnode.set_parent v n) = f n) →
  ∀ (h h' : heap) root root',
    BstInsert fuel h root node cmp = Ok (h', root') → preserves f h h'.
Proof.
  intros Hl Hr Hp. induction fuel as [|fuel IH]; intros h h' root root' H;
    [done|].
  simpl in H. run_inv.
  all: repeat match goal with
  | H : BstInsert _ ?h _ _ _ = Ok (?h', _) |- _ => apply IH in H
  | H : wr ?upd ?h ?p = Ok ?h' |- _ =>
    let F := fresh "F" in
    assert (F : preserves f h h')
      by (apply (wr_preserves f upd h h' p); [auto|exact H]);
    clear H
  end.
  all: chain_preserves.
Qed.

Lemma SWAP_COLOR_preserves {A} (f : rbnode.t → A) (h h' : heap) a b :
  (∀ c n, f (rbnode.set_color c n) = f n) →
  SWAP_COLOR h a b = Ok h' → preserves f h h'.
Proof.
  intros Hc H. unfold SWAP_COLOR in H. run_inv.
  all: repeat match goal with
  | H : wr ?upd ?h ?p = Ok ?h' |- _ =>
    let F := fresh "F" in
    assert (F : preserves f h h')
      by (apply (wr_preserves f upd h h' p); [auto|exact H]);
    clear H
  end.
  all: chain_preserves.
Qed.

Lemma fixup_body_preserves {A} (f : rbnode.t → A) (h h' : heap) x root x' root' :
  (∀ v n, f (rbnode.set_left v n) = f n) →
  (∀ v n, f (rbnode.set_right v n) = f n) →
  (∀ v n, f (rbnode.set_parent v n) = f n) →
  (∀ c n, f (rbnode.set_color c n) = f n) →
  fixup_body h x root = Ok (h', x', root') → preserves f h h'.
Proof.
  intros Hl Hr Hp Hc H. unfold fixup_body in H. run_inv.
  all: repeat match goal with
  | H : ROTATE_TREE _ ?h _ _ = Ok (?h', _) |- _ =>
    apply (ROTATE_TREE_preserves f) in H; [|done..]
  | H : SWAP_COLOR ?h _ _ = Ok ?h' |- _ =>
    apply (SWAP_COLOR_preserves f) in H; [|done]
  | H : wr ?upd ?h ?p = Ok ?h' |- _ =>
    let F := fresh "F" in
    assert (F : preserves f h h')
      by (apply (wr_preserves f upd h h' p); [auto|exact H]);
    clear H
  end.
  all: chain_preserves.
Qed.

Lemma fixup_loop_preserves {A} (f : rbnode.t → A) fuel :
  (∀ v n, f (rbnode.set_left v n) = f n) →
  (∀ v n, f (rbnode.set_right v n) = f n) →
  (∀ v n, f (rbnode.set_parent v n) = f n) →
  (∀ c n, f (rbnode.set_color c n) = f n) →
  ∀ (h h' : heap) x root x' root',
    fixup_loop fuel h x root = Ok (h', x', root') → preserves f h h'.
Proof.
  intros Hl Hr Hp Hc. induction fuel as [|fuel IH];
    intros h h' x root x' root' H; [done|].
  simpl in H.
  destruct (fixup_cond h x root) as [[]| |]; [| |done..];
    cbn [mbind mret result_bind result_ret] in H.
  - destruct (fixup_body h x root) as [[[h1 x1] root1]| |] eqn:E; [|done..].
    cbn [mbind mret result_bind result_ret] in H.
    apply (fixup_body_preserves f) in E; [|done..]. apply IH in H.
    by eapply preserves_trans.
  - by injection H as <- _ _.
Qed.

Lemma insertRbNode_preserves {A} (f : rbnode.t → A) fuel st node st' r :
  (∀ v n, f (rbnode.set_left v n) = f n) →
  (∀ v n, f (rbnode.set_right v n) = f n) →
  (∀ v n, f (rbnode.set_parent v n) = f n) →
  (∀ c n, f (rbnode.set_color c n) = f n) →
  insertRbNode fuel st node = Ok (st', r) → preserves f (mem st) (mem st').
Proof.
  intros Hl Hr Hp Hc H. unfold insertRbNode in H.
  destruct (BstInsert _ _ _ _ _) as [[h1 root1]| |] eqn:E1; [|done..].
  cbn [mbind mret result_bind result_ret] in H.
  destruct (fixup_loop _ _ _ _) as [[[h2 x2] root2]| |] eqn:E2; [|done..].
  cbn [mbind mret result_bind result_ret] in H.
  destruct (wr _ _ _) as [h3| |] eqn:E3; [|done..].
  cbn [mbind mret result_bind result_ret] in H. injection H as <- _.
  apply (BstInsert_preserves f) in E1; [|done..].
  apply (fixup_loop_preserves f) in E2; [|done..].
  apply (wr_preserves f) in E3; [|done]. simpl.
  eauto using preserves_trans.
Qed.

Lemma BstDelete_preserves {A} (f : rbnode.t → A) fuel (h h' : heap)
    root node root' :
  (∀ v n, f (rbnode.set_left v n) = f n) →
  (∀ v n, f (rbnode.set_right v n) = f n) →
  (∀ v n, f (rbnode.set_parent v n) = f n) →
  BstDelete fuel h root node = Ok (h', root') → preserves f h h'.
Proof.
  intros Hl Hr Hp H. unfold BstDelete in H. run_inv.
  all: repeat match goal with
  | H : wr ?upd ?h ?p = Ok ?h' |- _ =>
    let F := fresh "F" in
    assert (F : preserves f h h')
      by (apply (wr_preserves f upd h h' p); [auto|exact H]);
    clear H
  end.
  all: chain_preserves.
Qed.

(** ** Colours *)

Lemma preserves_two_coloured (h h' : heap) :
  preserves rbnode.color h h' → two_coloured h → two_coloured h'.
Proof.
  intros Hp Hc a n' Hn'. specialize (Hp a). rewrite Hn' in Hp.
  destruct (h !! a) as [n|] eqn:Hn; [|done]. injection Hp as ->.
  by apply (Hc a n).
Qed.

Lemma wr_set_color_two_coloured c (h h' : heap) p :
  c = NODE_COLOR_RED ∨ c = NODE_COLOR_BLACK →
  wr (rbnode.set_color c) h p = Ok h' → two_coloured h → two_coloured h'.
Proof.
  intros Hc (_ & n & Hn & ->)%wr_inv Hh a m.
  destruct (decide (a = p)) as [->|Hne].
  - rewrite lookup_insert_eq. by intros [= <-].
  - rewrite lookup_insert_ne by done. apply Hh.
Qed.

Lemma rd_color_two_coloured (h : heap) p c :
  two_coloured h → rd rbnode.color h p = Ok c →
  c = NODE_COLOR_RED ∨ c = NODE_COLOR_BLACK.
Proof. intros Hh (_ & n & Hn & ->)%rd_inv. by apply (Hh p). Qed.

Lemma SWAP_COLOR_two_coloured (h h' : heap) a b :
  SWAP_COLOR h a b = Ok h' → two_coloured h → two_coloured h'.
Proof.
  intros H Hh. unfold SWAP_COLOR in H. run_inv.
  match goal with
  | E1 : rd rbnode.color h a = Ok ?ca, E2 : rd rbnode.color h b = Ok ?cb,
    W1 : wr _ h a = Ok ?h1, W2 : wr _ ?h1 b = Ok _ |- _ =>
    apply (rd_color_two_coloured h _ _ Hh) in E1;
    apply (rd_color_two_coloured h _ _ Hh) in E2;
    apply (wr_set_color_two_coloured _ _ _ _ E1 W2);
    by apply (wr_set_color_two_coloured _ _ _ _ E2 W1)
  end.
Qed.

(** Carry [two_coloured] along the writes, rotations and swaps of a run
    that has been split by [run_inv]. *)
Ltac carry_two_coloured :=
  repeat match goal with
  | C : two_coloured ?h, H : wr (rbnode.set_color ?c) ?h ?p = Ok ?h' |- _ =>
    apply (wr_set_color_two_coloured c h h' p) in H; [|by auto|exact C]
  | C : two_coloured ?h, H : wr ?upd ?h ?p = Ok ?h' |- _ =>
    apply (wr_preserves rbnode.color upd h h' p) in H; [|by intros []];
    apply preserves_two_coloured in H; [|exact C]
  | C : two_coloured ?h, H : ROTATE_TREE _ ?h _ _ = Ok (?h', _) |- _ =>
    apply (ROTATE_TREE_preserves rbnode.color) in H; [|by intros ? []..];
    apply preserves_two_coloured in H; [|exact C]
  | C : two_coloured ?h, H : SWAP_COLOR ?h _ _ = Ok ?h' |- _ =>
    apply SWAP_COLOR_two_coloured in H; [|exact C]
  end.

Lemma fixup_body_two_coloured (h h' : heap) x root x' root' :
  fixup_body h x root = Ok (h', x', root') →
  two_coloured h → two_coloured h'.
Proof.
  intros H Hh. unfold fixup_body in H. run_inv.
  all: carry_two_coloured.
  all: done.
Qed.

Lemma fixup_loop_two_coloured fuel :
  ∀ (h h' : heap) x root x' root',
    fixup_loop fuel h x root = Ok (h', x', root') →
    two_coloured h → two_coloured h'.
Proof.
  induction fuel as [|fuel IH]; intros h h' x root x' root' H Hh; [done|].
  simpl in H.
  destruct (fixup_cond h x root) as [[]| |]; [| |done..];
    cbn [mbind mret result_bind result_ret] in H.
  - destruct (fixup_body h x root) as [[[h1 x1] root1]| |] eqn:E; [|done..].
    cbn [mbind mret result_bind result_ret] in H.
    apply fixup_body_two_coloured in E; [|done]. by apply IH in H.
  - by injection H as <- _ _.
Qed.

Lemma insertRbNode_colours fuel st node st' r :
  insertRbNode fuel st node = Ok (st', r) →
  col (mem st') (rbtree.root (tree st')) = Some NODE_COLOR_BLACK ∧
  (two_coloured (mem st) → two_coloured (mem st')).
Proof.
  intros H. unfold insertRbNode in H.
  destruct (BstInsert _ _ _ _ _) as [[h1 root1]| |] eqn:E1; [|done..].
  cbn [mbind mret result_bind result_ret] in H.
  destruct (fixup_loop _ _ _ _) as [[[h2 x2] root2]| |] eqn:E2; [|done..].
  cbn [mbind mret result_bind result_ret] in H.
  destruct (wr _ _ _) as [h3| |] eqn:E3; [|done..].
  cbn [mbind mret result_bind result_ret] in H. injection H as <- _.
  simpl. split.
  - apply wr_inv in E3 as (_ & n & _ & ->). unfold col.
    by rewrite lookup_insert_eq.
  - intros Hh.
    apply (BstInsert_preserves rbnode.color) in E1; [|by intros ? []..].
    apply preserves_two_coloured in E1; [|done].
    apply fixup_loop_two_coloured in E2; [|done].
    apply (wr_set_color_two_coloured _ _ _ _ ltac:(by right) E3). done.
Qed.

Lemma two_coloured_check (h : heap) :
  forallb (λ an, match rbnode.color an.2 with
                 | NODE_COLOR_RED | NODE_COLOR_BLACK => true
                 | _ => false
                 end) (map_to_list h) = true →
  two_coloured h.
Proof.
  intros H a n Hn. rewrite forallb_forall in H.
  specialize (H (a, n)). simpl in H.
  destruct (rbnode.color n); try (by auto); exfalso;
    (assert (false = true) as Hf; [|done]);
    by apply H, list_elem_of_In, elem_of_map_to_list.
Qed.

(** * The claims *)

Import Driver.

(** C1 (not met by the code).  The claim: every sequence of [insertRbNode]
    calls into an empty tree leaves a tree satisfying the five invariants.
    Inserting the integers 3, 1, 2 takes the left-right case: the first
    rotation does not update [parent->parent], so the colour swap after the
    second rotation swaps the grandparent with itself.  The tree that results
    is 2 (BLACK) over 1 (RED) and 3 (BLACK): the paths through 1 cross one
    BLACK node, those through 3 cross two, so invariant 4 fails. *)
Theorem insertRbNode_3_1_2_black_height :
  let t := Node (node_addr 2) NODE_COLOR_BLACK (key_addr 2)
             (Node (node_addr 1) NODE_COLOR_RED (key_addr 1) Leaf Leaf)
             (Node (node_addr 0) NODE_COLOR_BLACK (key_addr 0) Leaf Leaf) in
  ∃ st, inserted 8 [3; 1; 2] 3 = Ok st ∧
        tree_of 8 (mem st) (rbtree.root (tree st)) = Ok t ∧
        black_counts t = [1; 1; 2; 2]%nat ∧
        ¬ inv_black_height t ∧
        ¬ rb_invariants (rbtree.comparer (tree st)) t.
Proof.
  intros t. eexists. split; [vm_compute; reflexivity|].
  split; [vm_compute; reflexivity|]. split; [reflexivity|].
  assert (¬ inv_black_height t) as Hbh.
  { intros H. specialize (H 1%nat 2%nat). vm_compute black_counts in H.
    assert (1 = 2)%nat; [|done]. apply H; set_solver. }
  split; [done|]. intros (_ & _ & _ & H & _). done.
Qed.

(** C2 (not met by the code).  The claim: after a rotation the pivot holds
    the node's former parent slot and every reparented node, the rotated node
    included, has its parent link updated.  In the rotation [insertRbNode]
    performs at the parent while inserting 3, 1, 2 (node [P] = 1, pivot
    [N] = 2, grandparent [G] = 3), the pivot does take the parent slot
    ([G->left] is [N], [N->parent] is [G]) and [P] becomes [N->left], but
    [P->parent] is still [G], not [N]. *)
Theorem ROTATE_TREE_leaves_node_parent :
  let G := node_addr 0 in
  let P := node_addr 1 in
  let N := node_addr 2 in
  ∃ st h h',
    inserted 8 [3; 1; 2] 2 = Ok st ∧
    BstInsert 8 (mem st) (rbtree.root (tree st)) N (rbtree.comparer (tree st))
      = Ok (h, G) ∧
    rd rbnode.parent h P = Ok G ∧ rd rbnode.left h G = Ok P ∧
    rd rbnode.right h P = Ok N ∧
    ROTATE_TREE left h P G = Ok (h', G) ∧
    rd rbnode.left h' G = Ok N ∧ rd rbnode.parent h' N = Ok G ∧
    rd rbnode.left h' N = Ok P ∧
    rd rbnode.parent h' P = Ok G ∧ rd rbnode.parent h' P ≠ Ok N.
Proof.
  intros G P N. eexists _, _, _. split; [vm_compute; reflexivity|].
  split; [vm_compute; reflexivity|].
  repeat (split; [vm_compute; reflexivity|]). by vm_compute.
Qed.

(** C3 (not met by the code).  The claim: after [deleteRbNode] on a member
    of a valid tree, every root-to-null path has the same number of BLACK
    nodes.  After inserting 1, 2, 3, 4 the tree is valid; deleting the BLACK
    node 3 splices its RED child 4 into its place and nothing is recoloured,
    so the path through 1 crosses two BLACK nodes and the paths through 4
    cross one. *)
Theorem deleteRbNode_black_height :
  let t := Node (node_addr 1) NODE_COLOR_BLACK (key_addr 1)
             (Node (node_addr 0) NODE_COLOR_BLACK (key_addr 0) Leaf Leaf)
             (Node (node_addr 2) NODE_COLOR_BLACK (key_addr 2) Leaf
                (Node (node_addr 3) NODE_COLOR_RED (key_addr 3) Leaf Leaf)) in
  let t' := Node (node_addr 1) NODE_COLOR_BLACK (key_addr 1)
              (Node (node_addr 0) NODE_COLOR_BLACK (key_addr 0) Leaf Leaf)
              (Node (node_addr 3) NODE_COLOR_RED (key_addr 3) Leaf Leaf) in
  ∃ st st',
    inserted 8 [1; 2; 3; 4] 4 = Ok st ∧
    tree_of 8 (mem st) (rbtree.root (tree st)) = Ok t ∧
    rb_invariants (rbtree.comparer (tree st)) t ∧
    node_addr 2 ∈ addrs t ∧
    deleteRbNode 8 st (node_addr 2) = Ok st' ∧
    tree_of 8 (mem st') (rbtree.root (tree st')) = Ok t' ∧
    ¬ inv_black_height t'.
Proof.
  intros t t'. eexists _, _. split; [vm_compute; reflexivity|].
  split; [vm_compute; reflexivity|]. split.
  { split; [|split; [|split; [|split]]].
    - simpl. tauto.
    - done.
    - simpl. repeat split; intros; done.
    - apply (inv_black_height_counts _ 2%nat). vm_compute. repeat constructor.
    - simpl. repeat split; repeat constructor; by vm_compute. }
  split; [set_solver|].
  split; [vm_compute; reflexivity|]. split; [vm_compute; reflexivity|].
  intros H. specialize (H 2%nat 1%nat). vm_compute black_counts in H.
  assert (2 = 1)%nat; [|done]. apply H; set_solver.
Qed.

(** C4 (as stated, refuted).  After [INIT_RBTREE] and one successful
    [insertRbNode] the size field is still 0, not 1. *)
Lemma insertRbNode_size_not_incremented :
  ∃ st', insertRbNode 8 (init [7]) (node_addr 0) = Ok (st', 0) ∧
         rbtree.size (tree (init [7])) = 0 ∧
         rbtree.size (tree st') = 0 ∧
         rbtree.size (tree st') ≠ rbtree.size (tree (init [7])) + 1.
Proof.
  eexists. split; [vm_compute; reflexivity|]. by vm_compute.
Qed.

(** C4 (amended).  On every valid tree [insertRbNode] of a fresh,
    initialised node succeeds and returns 0, and it leaves the size field as
    it was; so does every [deleteRbNode] that returns, and so does every
    sequence of calls: after [INIT_RBTREE] the size field stays 0. *)
Theorem insertRbNode_succeeds_size_unchanged st t node fuel :
  valid_tree st t → node ≠ NULL → node ∉ addrs t →
  initialised (mem st) node → (height t < fuel)%nat →
  (∃ st', insertRbNode fuel st node = Ok (st', 0) ∧
          rbtree.size (tree st') = rbtree.size (tree st)) ∧
  (∀ fuel' n st', deleteRbNode fuel' st n = Ok st' →
                  rbtree.size (tree st') = rbtree.size (tree st)) ∧
  (∀ fuel' cs st', run fuel' st cs = Ok st' →
                   rbtree.size (tree st') = rbtree.size (tree st)) ∧
  (∀ junk cmp fuel' cs st',
     run fuel' (mkState (INIT_RBTREE junk cmp) (mem st)) cs = Ok st' →
     rbtree.size (tree st') = 0).
Proof.
  intros Hv Hnode Hfresh Hinit Hf. split; [|split; [|split]].
  - destruct (insertRbNode_valid_Ok st t node fuel) as (st' & E & Hs & _);
      [done..|]. eauto.
  - intros fuel' n st'. apply deleteRbNode_size.
  - intros fuel' cs st'. apply run_size.
  - intros junk cmp fuel' cs st' H. by apply run_size in H.
Qed.

Lemma insertRbNode_succeeds_size_unchanged_witness :
  let st := state_of (inserted 8 [7; 6; 5; 4] 3) in
  let t := Node (node_addr 1) NODE_COLOR_BLACK (key_addr 1)
             (Node (node_addr 2) NODE_COLOR_RED (key_addr 2) Leaf Leaf)
             (Node (node_addr 0) NODE_COLOR_RED (key_addr 0) Leaf Leaf) in
  valid_tree st t ∧
  (∃ st', insertRbNode 8 st (node_addr 3) = Ok (st', 0) ∧
          rbtree.size (tree st') = rbtree.size (tree st)).
Proof.
  intros st t.
  assert (Hv : valid_tree st t).
  { apply (valid_tree_check st t 8).
    - vm_compute. reflexivity.
    - vm_compute. repeat constructor; set_solver.
    - vm_compute. repeat constructor; set_solver.
    - intros _. vm_compute. reflexivity.
    - split; [|split; [|split; [|split]]].
      + simpl. tauto.
      + done.
      + simpl. repeat split; intros; done.
      + apply (inv_black_height_counts _ 1%nat). vm_compute. repeat constructor.
      + simpl. repeat split; repeat constructor; by vm_compute. }
  split; [exact Hv|].
  apply (insertRbNode_succeeds_size_unchanged st t (node_addr 3) 8 Hv).
  - vm_compute. discriminate.
  - vm_compute. set_solver.
  - exists (key_addr 3). vm_compute. reflexivity.
  - vm_compute. lia.
Defined.

(** C5 (not met by the code).  The claim: deleting a member with no
    children unlinks it from its parent and leaves the rest of the tree
    intact.  In the valid tree 2 over 1 and 3, deleting the leaf 1 faults
    whatever the fuel: after case 1 has cleared [parent->left], control falls
    into case 2, which stores [NULL] into [parent->right] and dereferences
    it. *)
Theorem BstDelete_leaf_2_1_3_faults :
  let t := Node (node_addr 0) NODE_COLOR_BLACK (key_addr 0)
             (Node (node_addr 1) NODE_COLOR_RED (key_addr 1) Leaf Leaf)
             (Node (node_addr 2) NODE_COLOR_RED (key_addr 2) Leaf Leaf) in
  ∃ st,
    inserted 8 [2; 1; 3] 3 = Ok st ∧
    tree_of 8 (mem st) (rbtree.root (tree st)) = Ok t ∧
    rb_invariants (rbtree.comparer (tree st)) t ∧
    node_addr 1 ∈ addrs t ∧
    (∀ fuel, BstDelete fuel (mem st) (rbtree.root (tree st)) (node_addr 1) = Fault) ∧
    (∀ fuel, deleteRbNode fuel st (node_addr 1) = Fault).
Proof.
  intros t. eexists. split; [vm_compute; reflexivity|].
  split; [vm_compute; reflexivity|]. split.
  { split; [|split; [|split; [|split]]].
    - simpl. tauto.
    - done.
    - simpl. repeat split; intros; done.
    - apply (inv_black_height_counts _ 1%nat). vm_compute. repeat constructor.
    - simpl. repeat split; repeat constructor; by vm_compute. }
  split; [set_solver|].
  split; intros fuel; vm_compute; reflexivity.
Qed.

(** C6.  Search on a represented tree returns the first node of the descent
    whose key compares equal, and [NULL] when the descent reaches a null link
    without one; on the empty tree it returns [NULL]. *)
Theorem searchKey_first_match fuel st t key :
  rep (mem st) (rbtree.root (tree st)) t → (height t < fuel)%nat →
  searchKey fuel st key = Ok (first_match (rbtree.comparer (tree st)) t key) ∧
  (t = Leaf → searchKey fuel st key = Ok NULL).
Proof.
  intros Hrep Hf. unfold searchKey.
  rewrite (BstSearch_rep _ _ t) by done. split; [done|]. by intros ->.
Qed.

Lemma searchKey_first_match_witness :
  let st := state_of (inserted 8 [7; 6; 5; 4; 99] 4) in
  searchKey 8 st (key_addr 0) = Ok (node_addr 0) ∧
  searchKey 8 st (key_addr 4) = Ok NULL.
Proof.
  intros st.
  pose (t := Node (node_addr 1) NODE_COLOR_BLACK (key_addr 1)
               (Node (node_addr 2) NODE_COLOR_BLACK (key_addr 2)
                  (Node (node_addr 3) NODE_COLOR_RED (key_addr 3) Leaf Leaf) Leaf)
               (Node (node_addr 0) NODE_COLOR_BLACK (key_addr 0) Leaf Leaf)).
  assert (Hrep : rep (mem st) (rbtree.root (tree st)) t)
    by (apply (tree_of_rep 8); vm_compute; reflexivity).
  assert (Hf : (height t < 8)%nat) by (vm_compute; lia).
  split.
  - destruct (searchKey_first_match 8 st t (key_addr 0) Hrep Hf) as [-> _].
    vm_compute. reflexivity.
  - destruct (searchKey_first_match 8 st t (key_addr 4) Hrep Hf) as [-> _].
    vm_compute. reflexivity.
Defined.

(** C7.  Under a comparator whose sign flips with its arguments,
    [BstInsert] of a fresh node with null child links returns, and memory
    then holds the tree of the specification's placement: a strictly-less key
    goes left and everything else, ties included, goes right, down to the
    first null link.  The new node's parent link is the node it was linked
    under; in the in-order sequence the new node comes before every visited
    node with a strictly greater key and after every other visited node, so
    after a node with an equal key. *)
Theorem BstInsert_placement cmp (h : heap) p t node nd fuel :
  antisymmetric cmp →
  rep h p t → NoDup (addrs t) →
  node ≠ NULL → node ∉ addrs t → h !! node = Some nd →
  rbnode.left nd = NULL → rbnode.right nd = NULL →
  (height t < fuel)%nat →
  let k := rbnode.key nd in
  let t' := place_spec cmp t node (rbnode.color nd) k in
  ∃ h', BstInsert fuel h p node cmp = Ok (h', root_addr t') ∧
        rep h' (root_addr t') t' ∧
        (t = Leaf → h' = h ∧ root_addr t' = node) ∧
        (t ≠ Leaf → root_addr t' = p ∧
           rbnode.parent <$> h' !! node = Some (link_parent cmp t k)) ∧
        (∀ b x, (b, x) ∈ descent cmp t k →
           (cmp k x < 0 → before node b (addrs t')) ∧
           (¬ cmp k x < 0 → before b node (addrs t'))).
Proof.
  intros Hanti Hrep Hnd Hnode Hfresh Hn Hl Hr Hf k t'.
  subst t'. rewrite place_spec_place by done.
  destruct (BstInsert_exec cmp node nd Hnode Hl Hr t h p fuel)
    as (h' & E & Hplaced); [done..|].
  exists h'. split; [done|]. split; [apply Hplaced|]. split; [|split].
  - intros ->. simpl in Hrep. subst p. destruct fuel; [lia|].
    simpl in E. by injection E as <-.
  - intros Ht. split; [|by apply (place_link_parent cmp t node nd h h')].
    rewrite place_root. destruct t; [done|]. symmetry. by apply rep_root in Hrep.
  - intros b x Hin.
    destruct (place_before cmp t node (rbnode.color nd) k b x Hin) as [H1 H2].
    pose proof (Hanti x k). split; intros ?; [apply H1|apply H2]; tauto.
Qed.

Lemma BstInsert_placement_witness :
  let vs := [5; 3; 5] in
  let st := state_of (inserted 8 vs 2) in
  let cmp := intcomparer (ints vs) in
  let t := Node (node_addr 0) NODE_COLOR_BLACK (key_addr 0)
             (Node (node_addr 1) NODE_COLOR_RED (key_addr 1) Leaf Leaf) Leaf in
  let nd := rbnode.mk NODE_COLOR_RED NULL NULL NULL (key_addr 2) in
  let t' := place_spec cmp t (node_addr 2) NODE_COLOR_RED (key_addr 2) in
  t' = Node (node_addr 0) NODE_COLOR_BLACK (key_addr 0)
         (Node (node_addr 1) NODE_COLOR_RED (key_addr 1) Leaf Leaf)
         (Node (node_addr 2) NODE_COLOR_RED (key_addr 2) Leaf Leaf) ∧
  ∃ h', BstInsert 8 (mem st) (rbtree.root (tree st)) (node_addr 2) cmp
          = Ok (h', root_addr t') ∧
        rep h' (root_addr t') t' ∧
        (t = Leaf → h' = mem st ∧ root_addr t' = node_addr 2) ∧
        (t ≠ Leaf → root_addr t' = rbtree.root (tree st) ∧
           rbnode.parent <$> h' !! node_addr 2
             = Some (link_parent cmp t (key_addr 2))) ∧
        (∀ b x, (b, x) ∈ descent cmp t (key_addr 2) →
           (cmp (key_addr 2) x < 0 → before (node_addr 2) b (addrs t')) ∧
           (¬ cmp (key_addr 2) x < 0 → before b (node_addr 2) (addrs t'))).
Proof.
  intros vs st cmp t nd t'. split; [vm_compute; reflexivity|].
  apply (BstInsert_placement cmp (mem st) (rbtree.root (tree st)) t
           (node_addr 2) nd 8).
  - apply intcomparer_antisymmetric.
  - apply (tree_of_rep 8). vm_compute. reflexivity.
  - vm_compute. repeat constructor; set_solver.
  - vm_compute. discriminate.
  - vm_compute. set_solver.
  - vm_compute. reflexivity.
  - reflexivity.
  - reflexivity.
  - vm_compute. lia.
Defined.

(** C8 (not met by the code).  The claim: after any sequence of inserts and
    deletes the traversal visits the keys in non-decreasing order, and after
    inserting 7, 6, 5, 4 the root is BLACK and the traversal yields
    4, 5, 6, 7.  The second half holds.  For the first: after inserting
    10, 5, 15, 3, 4, 2 the node 4 has one child, 5, and a parent link that
    still names the root 10 (left there by a rotation); deleting 4 stores its
    child into [10->right], and the traversal then yields 2, 3, 4, 5, 10, 5. *)
Theorem traversal_after_delete_not_sorted :
  (∃ st ks,
     inserted 8 [7; 6; 5; 4] 4 = Ok st ∧
     col (mem st) (rbtree.root (tree st)) = Some NODE_COLOR_BLACK ∧
     visited 8 st = Ok ks ∧ values [7; 6; 5; 4] ks = [4; 5; 6; 7] ∧
     nondecreasing (rbtree.comparer (tree st)) ks) ∧
  (let vs := [10; 5; 15; 3; 4; 2] in
   ∃ st t st' ks,
     inserted 8 vs 6 = Ok st ∧
     tree_of 8 (mem st) (rbtree.root (tree st)) = Ok t ∧
     node_addr 4 ∈ addrs t ∧
     deleteRbNode 8 st (node_addr 4) = Ok st' ∧
     visited 8 st' = Ok ks ∧ values vs ks = [2; 3; 4; 5; 10; 5] ∧
     ¬ nondecreasing (rbtree.comparer (tree st')) ks).
Proof.
  split.
  - eexists _, _. split; [vm_compute; reflexivity|].
    split; [vm_compute; reflexivity|]. split; [vm_compute; reflexivity|].
    split; [vm_compute; reflexivity|]. simpl. repeat split; by vm_compute.
  - intros vs. eexists _, _, _, _. split; [vm_compute; reflexivity|].
    split; [vm_compute; reflexivity|]. split; [set_solver|].
    split; [vm_compute; reflexivity|]. split; [vm_compute; reflexivity|].
    split; [vm_compute; reflexivity|].
    simpl. intros (_ & _ & _ & _ & H & _). by vm_compute in H.
Qed.

(** C9.  Three records with keys 1, 2, 3, embedding their nodes at offset
    [off_rbnode] and their keys at offset [off_key], are inserted through the
    typed macros into a tree configured with that offset.  The search for
    key 1 finds the node of the first record, and the intrusive search
    returns the address of that record itself (the node address minus the
    offset); with 4 in the searched key, the intrusive search returns
    [NULL]. *)
Theorem RBTREE_SEARCH_bar b1 b2 b3 off_rbnode off_key key (ints : gmap Z Z) fuel :
  0 ≤ b1 < 2 ^ 64 →
  b1 + off_rbnode ≠ NULL → b2 + off_rbnode ≠ NULL → b3 + off_rbnode ≠ NULL →
  b1 ≠ b2 → b1 ≠ b3 → b2 ≠ b3 →
  ints !! (b1 + off_key) = Some 1 →
  ints !! (b2 + off_key) = Some 2 →
  ints !! (b3 + off_key) = Some 3 →
  key ≠ b1 + off_key → key ≠ b2 + off_key → key ≠ b3 + off_key →
  (3 < fuel)%nat →
  ∃ st,
    BarDriver.built fuel (foocomparer (<[key := 1]> ints)) off_rbnode off_key
      [b1; b2; b3] = Ok st ∧
    searchKey fuel st key = Ok (b1 + off_rbnode) ∧
    RBTREE_SEARCH fuel st key = Ok b1 ∧
    RBTREE_SEARCH fuel (BarDriver.set_comparer (foocomparer (<[key := 4]> ints)) st) key
      = Ok NULL.
Proof.
  intros Hb1 Hn1 Hn2 Hn3 Hb12 Hb13 Hb23 Hk1 Hk2 Hk3 Hq1 Hq2 Hq3 Hf.
  do 4 (destruct fuel as [|fuel]; [lia|]). clear Hf.
  set (cmp := foocomparer (<[key := 1]> ints)).
  set (cmp4 := foocomparer (<[key := 4]> ints)).
  set (n1 := b1 + off_rbnode) in *. set (n2 := b2 + off_rbnode) in *.
  set (n3 := b3 + off_rbnode) in *.
  set (k1 := b1 + off_key) in *. set (k2 := b2 + off_key) in *.
  set (k3 := b3 + off_key) in *.
  assert (C12 : cmp k1 k2 < 0)
    by (apply (foocomparer_lt _ _ _ 1 2); [by rewrite lookup_insert_ne..|lia]).
  assert (C13 : cmp k1 k3 < 0)
    by (apply (foocomparer_lt _ _ _ 1 3); [by rewrite lookup_insert_ne..|lia]).
  assert (C23 : cmp k2 k3 < 0)
    by (apply (foocomparer_lt _ _ _ 2 3); [by rewrite lookup_insert_ne..|lia]).
  assert (C2q : 0 < cmp k2 key)
    by (apply (foocomparer_gt _ _ _ 2 1);
        [by rewrite lookup_insert_ne|by rewrite lookup_insert_eq|lia]).
  assert (C1q : cmp k1 key = 0)
    by (apply (foocomparer_eq _ _ _ 1);
        [by rewrite lookup_insert_ne|by rewrite lookup_insert_eq]).
  assert (C2q4 : cmp4 k2 key < 0)
    by (apply (foocomparer_lt _ _ _ 2 4);
        [by rewrite lookup_insert_ne|by rewrite lookup_insert_eq|lia]).
  assert (C3q4 : cmp4 k3 key < 0)
    by (apply (foocomparer_lt _ _ _ 3 4);
        [by rewrite lookup_insert_ne|by rewrite lookup_insert_eq|lia]).
  assert (N12 : ¬ 0 < cmp k1 k2) by lia.
  assert (N13 : ¬ 0 < cmp k1 k3) by lia.
  assert (N23 : ¬ 0 < cmp k2 k3) by lia.
  assert (N2q4 : ¬ 0 < cmp4 k2 key) by lia.
  assert (N3q4 : ¬ 0 < cmp4 k3 key) by lia.
  assert (C3q4' : cmp4 k3 key ≠ 0) by lia.
  assert (C2q4' : cmp4 k2 key ≠ 0) by lia.
  assert (C2q' : cmp k2 key ≠ 0) by lia.
  clearbody cmp cmp4.
  assert (n1 ≠ n2) by (subst n1 n2; lia).
  assert (n1 ≠ n3) by (subst n1 n3; lia).
  assert (n2 ≠ n3) by (subst n2 n3; lia).
  unfold BarDriver.built, BarDriver.init, INIT_RBTREE_TYPE. simpl foldl. simpl BarDriver.insert_bars.
  unfold INSERT_RBNODE_TYPE, INIT_RBNODE_TYPE, INIT_RBNODE.
  fold n1 n2 n3 k1 k2 k3.
  do 3 (match goal with
        | |- context [insertRbNode ?f ?st ?n] =>
          let E := fresh "E" in
          eassert (E : insertRbNode f st n = _);
          [ unfold insertRbNode; simpl BstInsert; simpl fixup_loop;
            unfold fixup_cond, fixup_body, ROTATE_TREE, SWAP_COLOR, rd, wr, load;
            sym; reflexivity
          | rewrite E; clear E; sym ]
        end).
  eexists. split; [reflexivity|].
  unfold RBTREE_SEARCH, searchKey, BarDriver.set_comparer. simpl BstSearch.
  unfold rd, load. sym.
  split; [done|]. split; [|done].
  f_equal. unfold n1. replace (b1 + off_rbnode - off_rbnode) with b1 by lia.
  by apply Z.mod_small.
Qed.

Lemma RBTREE_SEARCH_bar_witness :
  ∃ st,
    BarDriver.built 8 (foocomparer (<[BarDriver.key_cell := 1]> BarDriver.ints))
      BarDriver.offsetof_rbnode BarDriver.offsetof_barmap_key
      [BarDriver.bar_addr 0; BarDriver.bar_addr 1; BarDriver.bar_addr 2]
      = Ok st ∧
    searchKey 8 st BarDriver.key_cell
      = Ok (BarDriver.bar_addr 0 + BarDriver.offsetof_rbnode) ∧
    RBTREE_SEARCH 8 st BarDriver.key_cell = Ok (BarDriver.bar_addr 0) ∧
    RBTREE_SEARCH 8
      (BarDriver.set_comparer
         (foocomparer (<[BarDriver.key_cell := 4]> BarDriver.ints)) st)
      BarDriver.key_cell = Ok NULL.
Proof.
  apply (RBTREE_SEARCH_bar (BarDriver.bar_addr 0) (BarDriver.bar_addr 1)
           (BarDriver.bar_addr 2) BarDriver.offsetof_rbnode
           BarDriver.offsetof_barmap_key BarDriver.key_cell BarDriver.ints 8).
  all: try (vm_compute; reflexivity).
  all: try (vm_compute; discriminate).
  - vm_compute. split; [discriminate|reflexivity].
  - lia.
Defined.

(** C10.  A [deleteRbNode] that returns leaves every field of the tree
    struct as it was; in particular, when the deleted node was the root, the
    root field still points to it. *)
Theorem deleteRbNode_frame fuel st node st' :
  deleteRbNode fuel st node = Ok st' →
  rbtree.root (tree st') = rbtree.root (tree st) ∧
  rbtree.size (tree st') = rbtree.size (tree st) ∧
  rbtree.comparer (tree st') = rbtree.comparer (tree st) ∧
  rbtree.rb_offset (tree st') = rbtree.rb_offset (tree st) ∧
  (rbtree.root (tree st) = node → rbtree.root (tree st') = node).
Proof.
  unfold deleteRbNode.
  destruct (BstDelete fuel (mem st) (rbtree.root (tree st)) node) as [[h r]| |];
    [|done..].
  intros [= <-]. simpl. auto.
Qed.

Lemma deleteRbNode_frame_witness :
  let st := state_of (inserted 8 [2; 1; 3] 3) in
  ∃ st', deleteRbNode 8 st (node_addr 0) = Ok st' ∧
         rbtree.root (tree st) = node_addr 0 ∧
         rbtree.root (tree st') = node_addr 0.
Proof.
  intros st.
  assert (∃ st', deleteRbNode 8 st (node_addr 0) = Ok st') as [st' H].
  { eexists. vm_compute. reflexivity. }
  exists st'. split; [done|]. split; [reflexivity|].
  by apply (deleteRbNode_frame 8 st (node_addr 0) st' H).
Defined.

(** * Further properties *)

(** X1.  The two integer comparators of rbtree.c keep the comparator
    contract the tree relies on: swapping the arguments flips the sign, and
    "not greater" is transitive. *)
Theorem comparers_contract ints :
  comparator (intcomparer ints) ∧ comparator (foocomparer ints).
Proof. split; [apply intcomparer_comparator|apply foocomparer_comparator]. Qed.

(** X2.  The traversal of a tree in memory visits the left subtree, then
    the node, then the right subtree: it prints the keys in in-order, each
    under YELLOW when the node is BLACK and under RED otherwise, and it
    prints nothing for the empty tree. *)
Theorem inorderTraversal_inorder st t fuel :
  rep (mem st) (rbtree.root (tree st)) t → (height t < fuel)%nat →
  inorderTraversal fuel st = Ok (inorder t) ∧
  (inorder t).*2 = keys t ∧
  (t = Leaf → inorderTraversal fuel st = Ok []).
Proof.
  intros Hrep Hf. unfold inorderTraversal.
  rewrite (InorderTraversal_rep t) by done.
  split; [done|]. split; [apply inorder_keys|]. by intros ->.
Qed.

Lemma inorderTraversal_inorder_witness :
  let st := state_of (inserted 8 [7; 6; 5; 4] 3) in
  let t := Node (node_addr 1) NODE_COLOR_BLACK (key_addr 1)
             (Node (node_addr 2) NODE_COLOR_RED (key_addr 2) Leaf Leaf)
             (Node (node_addr 0) NODE_COLOR_RED (key_addr 0) Leaf Leaf) in
  inorderTraversal 8 st = Ok (inorder t) ∧
  (inorder t).*2 = keys t ∧
  (t = Leaf → inorderTraversal 8 st = Ok []).
Proof.
  intros st t. apply (inorderTraversal_inorder st t 8).
  - apply (tree_of_rep 8). vm_compute. reflexivity.
  - vm_compute. lia.
Defined.

(** X3.  On a tree that keeps the order invariant, under a comparator whose
    sign flips with its arguments, the traversal prints the keys of the tree
    in non-decreasing comparator order. *)
Theorem inorderTraversal_sorted st t fuel :
  rep (mem st) (rbtree.root (tree st)) t →
  antisymmetric (rbtree.comparer (tree st)) →
  inv_order (rbtree.comparer (tree st)) t →
  (height t < fuel)%nat →
  ∃ out, inorderTraversal fuel st = Ok out ∧ out.*2 = keys t ∧
         nondecreasing (rbtree.comparer (tree st)) out.*2.
Proof.
  intros Hrep Hanti Hord Hf. exists (inorder t). unfold inorderTraversal.
  rewrite (InorderTraversal_rep t) by done. rewrite inorder_keys.
  split; [done|]. split; [done|].
  apply inv_order_nondecreasing; [|done].
  intros x y Hxy. pose proof (Hanti y x). lia.
Qed.

Lemma inorderTraversal_sorted_witness :
  let st := state_of (inserted 8 [7; 6; 5; 4] 3) in
  let t := Node (node_addr 1) NODE_COLOR_BLACK (key_addr 1)
             (Node (node_addr 2) NODE_COLOR_RED (key_addr 2) Leaf Leaf)
             (Node (node_addr 0) NODE_COLOR_RED (key_addr 0) Leaf Leaf) in
  ∃ out, inorderTraversal 8 st = Ok out ∧ out.*2 = keys t ∧
         nondecreasing (rbtree.comparer (tree st)) out.*2.
Proof.
  intros st t. apply (inorderTraversal_sorted st t 8).
  - apply (tree_of_rep 8). vm_compute. reflexivity.
  - apply intcomparer_antisymmetric.
  - simpl. repeat split; repeat constructor; by vm_compute.
  - vm_compute. lia.
Defined.

(** X4.  [BstInsert] keeps the order invariant: under a comparator whose
    sign flips with its arguments, inserting a fresh node with null child
    links into an ordered tree leaves an ordered tree in memory, whose nodes
    and keys are those of the old tree and the new node. *)
Theorem BstInsert_keeps_order cmp (h : heap) p t node nd fuel :
  antisymmetric cmp →
  rep h p t → NoDup (addrs t) → inv_order cmp t →
  node ≠ NULL → node ∉ addrs t → h !! node = Some nd →
  rbnode.left nd = NULL → rbnode.right nd = NULL →
  (height t < fuel)%nat →
  ∃ h' root' t',
    BstInsert fuel h p node cmp = Ok (h', root') ∧
    rep h' root' t' ∧ inv_order cmp t' ∧
    addrs t' ≡ₚ node :: addrs t ∧ keys t' ≡ₚ rbnode.key nd :: keys t ∧
    NoDup (addrs t').
Proof.
  intros Hanti Hrep Hnd Hord Hnode Hfresh Hn Hl Hr Hf.
  destruct (BstInsert_exec cmp node nd Hnode Hl Hr t h p fuel)
    as (h' & E & R & _); [done..|].
  eexists h', _, _. split; [done|]. split; [done|].
  split; [by apply place_inv_order|].
  split; [apply place_addrs|]. split; [apply place_keys|].
  rewrite place_addrs. by apply NoDup_cons.
Qed.

Lemma BstInsert_keeps_order_witness :
  let vs := [5; 3; 5] in
  let st := state_of (inserted 8 vs 2) in
  let cmp := intcomparer (ints vs) in
  let t := Node (node_addr 0) NODE_COLOR_BLACK (key_addr 0)
             (Node (node_addr 1) NODE_COLOR_RED (key_addr 1) Leaf Leaf) Leaf in
  let nd := rbnode.mk NODE_COLOR_RED NULL NULL NULL (key_addr 2) in
  ∃ h' root' t',
    BstInsert 8 (mem st) (rbtree.root (tree st)) (node_addr 2) cmp
      = Ok (h', root') ∧
    rep h' root' t' ∧ inv_order cmp t' ∧
    addrs t' ≡ₚ node_addr 2 :: addrs t ∧ keys t' ≡ₚ rbnode.key nd :: keys t ∧
    NoDup (addrs t').
Proof.
  intros vs st cmp t nd.
  apply (BstInsert_keeps_order cmp (mem st) (rbtree.root (tree st)) t
           (node_addr 2) nd 8).
  - apply intcomparer_antisymmetric.
  - apply (tree_of_rep 8). vm_compute. reflexivity.
  - vm_compute. repeat constructor; set_solver.
  - simpl. repeat split; repeat constructor; by vm_compute.
  - vm_compute. discriminate.
  - vm_compute. set_solver.
  - vm_compute. reflexivity.
  - reflexivity.
  - reflexivity.
  - vm_compute. lia.
Defined.

(** X5.  Insert, then search: after [BstInsert] of a fresh node, whatever
    the order of the tree, [BstSearch] for the node's key returns a node
    whose key compares equal, provided the key compares equal to itself;
    it is the new node itself when no node on the way down does. *)
Theorem BstSearch_after_BstInsert cmp (h : heap) p t node nd fuel :
  rep h p t → NoDup (addrs t) →
  node ≠ NULL → node ∉ addrs t → h !! node = Some nd →
  rbnode.left nd = NULL → rbnode.right nd = NULL →
  cmp (rbnode.key nd) (rbnode.key nd) = 0 →
  (height t < fuel)%nat →
  ∃ h' root' found n,
    BstInsert fuel h p node cmp = Ok (h', root') ∧
    BstSearch (S fuel) h' root' (rbnode.key nd) cmp = Ok found ∧
    found ≠ NULL ∧ h' !! found = Some n ∧
    cmp (rbnode.key n) (rbnode.key nd) = 0 ∧
    ((∀ e, e ∈ descent cmp t (rbnode.key nd) → cmp e.2 (rbnode.key nd) ≠ 0) →
     found = node).
Proof.
  intros Hrep Hnd Hnode Hfresh Hn Hl Hr Hrefl Hf.
  destruct (BstInsert_exec cmp node nd Hnode Hl Hr t h p fuel)
    as (h' & E & R & _); [done..|].
  set (k := rbnode.key nd) in *.
  set (t' := place cmp t node (rbnode.color nd) k) in *.
  assert (Hf' : (height t' < S fuel)%nat)
    by (pose proof (height_place cmp t node (rbnode.color nd) k);
        unfold t'; lia).
  assert (Hd : descent cmp t' k = descent cmp t k ++ [(node, k)])
    by apply descent_place.
  destruct (first_match_found cmp t' k) as (e & Efm & Hin & Hz).
  { exists (node, k). split; [|done]. rewrite Hd. set_solver. }
  destruct (descent_lookup cmp k h' t' _ e R Hin) as (He0 & _ & n & Hne & Hk).
  exists h', (root_addr t'), e.1, n. split; [done|].
  split; [rewrite <-Efm; by apply BstSearch_rep|].
  split; [done|]. split; [done|]. split; [by rewrite Hk|].
  intros Hno. rewrite Hd in Hin. apply elem_of_app in Hin as [Hin|Hin].
  - by destruct (Hno e Hin).
  - apply list_elem_of_singleton in Hin. by subst e.
Qed.

Lemma BstSearch_after_BstInsert_witness :
  let vs := [5; 3; 5] in
  let st := state_of (inserted 8 vs 2) in
  let cmp := intcomparer (ints vs) in
  let nd := rbnode.mk NODE_COLOR_RED NULL NULL NULL (key_addr 2) in
  ∃ h' root' found n,
    BstInsert 8 (mem st) (rbtree.root (tree st)) (node_addr 2) cmp
      = Ok (h', root') ∧
    BstSearch 9 h' root' (rbnode.key nd) cmp = Ok found ∧
    found ≠ NULL ∧ h' !! found = Some n ∧
    cmp (rbnode.key n) (rbnode.key nd) = 0 ∧
    ((∀ e, e ∈ descent cmp
               (Node (node_addr 0) NODE_COLOR_BLACK (key_addr 0)
                  (Node (node_addr 1) NODE_COLOR_RED (key_addr 1) Leaf Leaf)
                  Leaf) (rbnode.key nd) →
           cmp e.2 (rbnode.key nd) ≠ 0) →
     found = node_addr 2).
Proof.
  intros vs st cmp nd.
  apply (BstSearch_after_BstInsert cmp (mem st) (rbtree.root (tree st)) _
           (node_addr 2) nd 8).
  - apply (tree_of_rep 8). vm_compute. reflexivity.
  - vm_compute. repeat constructor; set_solver.
  - vm_compute. discriminate.
  - vm_compute. set_solver.
  - vm_compute. reflexivity.
  - reflexivity.
  - reflexivity.
  - vm_compute. reflexivity.
  - vm_compute. lia.
Defined.

(** X6.  Search is complete on ordered trees: under the comparator contract,
    on a tree in which no left descendant compares greater and no right
    descendant compares less, [searchKey] returns [NULL] exactly when no key
    of the tree compares equal to the one sought, and otherwise a node of the
    tree whose key compares equal. *)
Theorem searchKey_complete st t key fuel :
  rep (mem st) (rbtree.root (tree st)) t →
  comparator (rbtree.comparer (tree st)) →
  inv_order_weak (rbtree.comparer (tree st)) t →
  (height t < fuel)%nat →
  ∃ found,
    searchKey fuel st key = Ok found ∧
    (found = NULL ↔ ∀ x, x ∈ keys t → rbtree.comparer (tree st) x key ≠ 0) ∧
    (found ≠ NULL →
       found ∈ addrs t ∧
       ∃ n, mem st !! found = Some n ∧
            rbtree.comparer (tree st) (rbnode.key n) key = 0).
Proof. intros. by apply BstSearch_complete. Qed.

Lemma searchKey_complete_witness :
  let st := state_of (inserted 8 [7; 6; 5; 4] 3) in
  let t := Node (node_addr 1) NODE_COLOR_BLACK (key_addr 1)
             (Node (node_addr 2) NODE_COLOR_RED (key_addr 2) Leaf Leaf)
             (Node (node_addr 0) NODE_COLOR_RED (key_addr 0) Leaf Leaf) in
  ∃ found,
    searchKey 8 st (key_addr 3) = Ok found ∧
    (found = NULL ↔
       ∀ x, x ∈ keys t → rbtree.comparer (tree st) x (key_addr 3) ≠ 0) ∧
    (found ≠ NULL →
       found ∈ addrs t ∧
       ∃ n, mem st !! found = Some n ∧
            rbtree.comparer (tree st) (rbnode.key n) (key_addr 3) = 0).
Proof.
  intros st t. apply (searchKey_complete st t (key_addr 3) 8).
  - apply (tree_of_rep 8). vm_compute. reflexivity.
  - apply intcomparer_comparator.
  - simpl. repeat split; repeat constructor; by vm_compute.
  - vm_compute. lia.
Defined.



Ltac valid_by_evaluation n :=
  apply (valid_tree_check _ _ 8);
  [ vm_compute; reflexivity
  | vm_compute; repeat constructor; set_solver
  | vm_compute; repeat constructor; set_solver
  | intros _; vm_compute; reflexivity
  | split; [|split; [|split; [|split]]];
    [ simpl; tauto
    | done
    | simpl; repeat split; intros; done
    | apply (inv_black_height_counts _ n); vm_compute; repeat constructor
    | simpl; repeat split; repeat constructor; by vm_compute ] ].

(** X8.  [insertRbNode] of a fresh, initialised node into a valid tree
    returns 0, and the rotations and recolourings of its fixup neither lose
    nor reorder nodes: memory then holds a tree with a BLACK root whose
    in-order sequence of nodes and keys is that of the tree after the plain
    [BstInsert] placement, so the old nodes and the new one. *)
Theorem insertRbNode_inorder st t node key fuel :
  valid_tree st t → node ≠ NULL → node ∉ addrs t →
  mem st !! node = Some (rbnode.mk NODE_COLOR_RED NULL NULL NULL key) →
  (height t < fuel)%nat →
  let placed_tree :=
    place (rbtree.comparer (tree st)) t node NODE_COLOR_RED key in
  ∃ st' t',
    insertRbNode fuel st node = Ok (st', 0) ∧
    rep (mem st') (rbtree.root (tree st')) t' ∧
    addrs t' = addrs placed_tree ∧ keys t' = keys placed_tree ∧
    root_color t' = Some NODE_COLOR_BLACK ∧
    addrs t' ≡ₚ node :: addrs t ∧ keys t' ≡ₚ key :: keys t.
Proof.
  intros Hv Hnode Hfresh Hinit Hf placed_tree.
  destruct (insertRbNode_rep st t node key fuel)
    as (st' & t' & E & R & A & K & C & _); [done..|].
  exists st', t'. split; [done|]. split; [done|]. split; [done|].
  split; [done|]. split; [done|].
  split; [rewrite A; apply place_addrs|rewrite K; apply place_keys].
Qed.

Lemma insertRbNode_inorder_witness :
  let st := state_of (inserted 8 [7; 6; 5; 4] 3) in
  let t := Node (node_addr 1) NODE_COLOR_BLACK (key_addr 1)
             (Node (node_addr 2) NODE_COLOR_RED (key_addr 2) Leaf Leaf)
             (Node (node_addr 0) NODE_COLOR_RED (key_addr 0) Leaf Leaf) in
  let placed_tree :=
    place (rbtree.comparer (tree st)) t (node_addr 3) NODE_COLOR_RED
      (key_addr 3) in
  ∃ st' t',
    insertRbNode 8 st (node_addr 3) = Ok (st', 0) ∧
    rep (mem st') (rbtree.root (tree st')) t' ∧
    addrs t' = addrs placed_tree ∧ keys t' = keys placed_tree ∧
    root_color t' = Some NODE_COLOR_BLACK ∧
    addrs t' ≡ₚ node_addr 3 :: addrs t ∧ keys t' ≡ₚ key_addr 3 :: keys t.
Proof.
  intros st t.
  apply (insertRbNode_inorder st t (node_addr 3) (key_addr 3) 8).
  - valid_by_evaluation 1%nat.
  - vm_compute. discriminate.
  - vm_compute. set_solver.
  - vm_compute. reflexivity.
  - vm_compute. lia.
Defined.

(** X9.  Insert, then traverse: after [insertRbNode] into a valid tree,
    under a comparator whose sign flips with its arguments, the traversal
    prints the old keys and the new one, once each, in non-decreasing
    comparator order. *)
Theorem inorderTraversal_after_insertRbNode st t node key fuel :
  valid_tree st t → antisymmetric (rbtree.comparer (tree st)) →
  node ≠ NULL → node ∉ addrs t →
  mem st !! node = Some (rbnode.mk NODE_COLOR_RED NULL NULL NULL key) →
  (height t < fuel)%nat →
  ∃ st',
    insertRbNode fuel st node = Ok (st', 0) ∧
    ∀ fuel', (S (length (addrs t)) < fuel')%nat →
      ∃ out, inorderTraversal fuel' st' = Ok out ∧
             out.*2 ≡ₚ key :: keys t ∧
             nondecreasing (rbtree.comparer (tree st)) out.*2.
Proof.
  intros Hv Hanti Hnode Hfresh Hinit Hf.
  destruct (insertRbNode_rep st t node key fuel)
    as (st' & t' & E & R & A & K & _); [done..|].
  exists st'. split; [done|]. intros fuel' Hf'.
  exists (inorder t'). unfold inorderTraversal.
  rewrite (InorderTraversal_rep t'); [|done|].
  - rewrite inorder_keys, K. split; [done|]. split; [apply place_keys|].
    apply inv_order_nondecreasing.
    + intros x y Hxy. pose proof (Hanti y x). lia.
    + apply place_inv_order; [done|]. apply Hv.
  - pose proof (height_le_length t') as Hh. rewrite A, place_addrs in Hh.
    simpl in Hh. lia.
Qed.

Lemma inorderTraversal_after_insertRbNode_witness :
  let st := state_of (inserted 8 [7; 6; 5; 4] 3) in
  let t := Node (node_addr 1) NODE_COLOR_BLACK (key_addr 1)
             (Node (node_addr 2) NODE_COLOR_RED (key_addr 2) Leaf Leaf)
             (Node (node_addr 0) NODE_COLOR_RED (key_addr 0) Leaf Leaf) in
  ∃ st',
    insertRbNode 8 st (node_addr 3) = Ok (st', 0) ∧
    ∀ fuel', (S (length (addrs t)) < fuel')%nat →
      ∃ out, inorderTraversal fuel' st' = Ok out ∧
             out.*2 ≡ₚ key_addr 3 :: keys t ∧
             nondecreasing (rbtree.comparer (tree st)) out.*2.
Proof.
  intros st t.
  apply (inorderTraversal_after_insertRbNode st t (node_addr 3) (key_addr 3) 8).
  - valid_by_evaluation 1%nat.
  - apply intcomparer_antisymmetric.
  - vm_compute. discriminate.
  - vm_compute. set_solver.
  - vm_compute. reflexivity.
  - vm_compute. lia.
Defined.

(** X10.  Insert, then search: after [insertRbNode] into a valid tree, under
    the comparator contract, [searchKey] returns [NULL] exactly for the keys
    that compare equal to neither the new key nor an old one, and otherwise
    a node whose key compares equal; in particular the new key and every
    old key are found. *)
Theorem searchKey_after_insertRbNode st t node key fuel :
  valid_tree st t → comparator (rbtree.comparer (tree st)) →
  node ≠ NULL → node ∉ addrs t →
  mem st !! node = Some (rbnode.mk NODE_COLOR_RED NULL NULL NULL key) →
  (height t < fuel)%nat →
  ∃ st',
    insertRbNode fuel st node = Ok (st', 0) ∧
    ∀ fuel' x, (S (length (addrs t)) < fuel')%nat →
      ∃ found,
        searchKey fuel' st' x = Ok found ∧
        (found = NULL ↔
           ∀ y, y ∈ key :: keys t → rbtree.comparer (tree st) y x ≠ 0) ∧
        (found ≠ NULL →
           ∃ n, mem st' !! found = Some n ∧
                rbtree.comparer (tree st) (rbnode.key n) x = 0) ∧
        (x ∈ key :: keys t → found ≠ NULL).
Proof.
  intros Hv Hcmp Hnode Hfresh Hinit Hf.
  destruct (insertRbNode_rep st t node key fuel)
    as (st' & t' & E & R & A & K & _ & Ecmp & _); [done..|].
  exists st'. split; [done|]. intros fuel' x Hf'.
  set (cmp := rbtree.comparer (tree st)) in *.
  assert (Hanti : ∀ x y, 0 < cmp x y ↔ cmp y x < 0) by apply Hcmp.
  assert (Hord : inv_order_weak cmp t').
  { apply sorted_inv_order_weak; [done|]. rewrite K.
    apply inv_order_sorted; [done|]. apply place_inv_order; [done|]. apply Hv. }
  assert (Hh : (height t' < fuel')%nat).
  { pose proof (height_le_length t') as Hh. rewrite A, place_addrs in Hh.
    simpl in Hh. lia. }
  assert (Hkeys : ∀ y, y ∈ keys t' ↔ y ∈ key :: keys t)
    by (intros y; by rewrite K, place_keys).
  destruct (BstSearch_complete cmp (mem st') (rbtree.root (tree st')) t' x fuel')
    as (found & Es & Hnull & Hfound); [done..|].
  exists found. unfold searchKey. rewrite Ecmp. split; [done|].
  split; [|split].
  - rewrite Hnull. split; intros H y Hy; apply H; by apply Hkeys.
  - intros Hne. by destruct (Hfound Hne) as (_ & ?).
  - intros Hx Hz. destruct Hnull as [Hnull _].
    apply (Hnull Hz x); [by apply Hkeys|]. pose proof (Hanti x x). lia.
Qed.

Lemma searchKey_after_insertRbNode_witness :
  let st := state_of (inserted 8 [7; 6; 5; 4] 3) in
  let t := Node (node_addr 1) NODE_COLOR_BLACK (key_addr 1)
             (Node (node_addr 2) NODE_COLOR_RED (key_addr 2) Leaf Leaf)
             (Node (node_addr 0) NODE_COLOR_RED (key_addr 0) Leaf Leaf) in
  ∃ st',
    insertRbNode 8 st (node_addr 3) = Ok (st', 0) ∧
    ∀ fuel' x, (S (length (addrs t)) < fuel')%nat →
      ∃ found,
        searchKey fuel' st' x = Ok found ∧
        (found = NULL ↔
           ∀ y, y ∈ key_addr 3 :: keys t →
                rbtree.comparer (tree st) y x ≠ 0) ∧
        (found ≠ NULL →
           ∃ n, mem st' !! found = Some n ∧
                rbtree.comparer (tree st) (rbnode.key n) x = 0) ∧
        (x ∈ key_addr 3 :: keys t → found ≠ NULL).
Proof.
  intros st t.
  apply (searchKey_after_insertRbNode st t (node_addr 3) (key_addr 3) 8).
  - valid_by_evaluation 1%nat.
  - apply intcomparer_comparator.
  - vm_compute. discriminate.
  - vm_compute. set_solver.
  - vm_compute. reflexivity.
  - vm_compute. lia.
Defined.

(** X11.  The first insertion: after [INIT_RBTREE] and [INIT_RBNODE],
    [insertRbNode] makes the node the root and colours it BLACK, writes
    nothing else, and the result is a valid tree of one node. *)
Theorem insertRbNode_first junk cmp (h : heap) node key fuel :
  node ≠ NULL → (0 < fuel)%nat →
  let st := mkState (INIT_RBTREE junk cmp) (INIT_RBNODE h node key) in
  ∃ st',
    insertRbNode fuel st node = Ok (st', 0) ∧
    rbtree.root (tree st') = node ∧
    mem st' !! node =
      Some (rbnode.mk NODE_COLOR_BLACK NULL NULL NULL key) ∧
    (∀ a, a ≠ node → mem st' !! a = h !! a) ∧
    valid_tree st' (Node node NODE_COLOR_BLACK key Leaf Leaf).
Proof.
  intros Hnode Hf st. destruct fuel as [|fuel]; [lia|].
  unfold insertRbNode, INIT_RBNODE. simpl. unfold fixup_cond.
  rewrite decide_True by done. mstep. unfold INIT_RBNODE.
  rewrite (wr_Ok _ _ _ _ Hnode (lookup_insert_eq _ _ _)). mstep.
  eexists. split; [done|]. simpl. split; [done|].
  split; [apply lookup_insert_eq|].
  split; [intros a Ha; by rewrite !lookup_insert_ne|].
  split; simpl.
  - split; [done|]. split; [done|]. eexists.
    split; [apply lookup_insert_eq|]. done.
  - apply NoDup_singleton.
  - intros a n Ha Hn. apply list_elem_of_singleton in Ha as ->.
    rewrite lookup_insert_eq in Hn. injection Hn as <-. by left.
  - intros _. by rewrite lookup_insert_eq.
  - split; [simpl; tauto|]. split; [done|]. split; [by simpl|].
    split; [|by simpl].
    apply (inv_black_height_counts _ 1%nat). vm_compute. repeat constructor.
Qed.

Lemma insertRbNode_first_witness :
  let cmp := intcomparer (ints [7]) in
  let st := mkState (INIT_RBTREE uninit cmp)
              (INIT_RBNODE ∅ (node_addr 0) (key_addr 0)) in
  ∃ st',
    insertRbNode 1 st (node_addr 0) = Ok (st', 0) ∧
    rbtree.root (tree st') = node_addr 0 ∧
    mem st' !! node_addr 0 =
      Some (rbnode.mk NODE_COLOR_BLACK NULL NULL NULL (key_addr 0)) ∧
    (∀ a, a ≠ node_addr 0 → mem st' !! a = (∅ : heap) !! a) ∧
    valid_tree st' (Node (node_addr 0) NODE_COLOR_BLACK (key_addr 0) Leaf Leaf).
Proof.
  intros cmp.
  apply (insertRbNode_first uninit cmp ∅ (node_addr 0) (key_addr 0) 1).
  - vm_compute. discriminate.
  - lia.
Defined.

(** X12.  Deleting the only node does not empty the tree: [deleteRbNode]
    of a node without children and with a null parent link returns with the
    whole state as it was, so a tree rooted at that node still holds it and
    [searchKey] still finds it. *)
Theorem deleteRbNode_only_node fuel st node n :
  node ≠ NULL → mem st !! node = Some n →
  rbnode.left n = NULL → rbnode.right n = NULL → rbnode.parent n = NULL →
  deleteRbNode fuel st node = Ok st ∧
  (rbtree.root (tree st) = node →
   rbtree.comparer (tree st) (rbnode.key n) (rbnode.key n) = 0 →
   ∀ fuel', searchKey (S fuel') st (rbnode.key n) = Ok node).
Proof.
  intros Hnode Hn Hl Hr Hp. split.
  - unfold deleteRbNode, BstDelete.
    rewrite (rd_Ok rbnode.left _ _ _ Hnode Hn). mstep. rewrite Hl.
    rewrite decide_True by done.
    rewrite (rd_Ok rbnode.right _ _ _ Hnode Hn). mstep. rewrite Hr.
    rewrite bool_decide_true by done.
    rewrite (rd_Ok rbnode.parent _ _ _ Hnode Hn). mstep. rewrite Hp.
    rewrite decide_True by done. mstep. by destruct st.
  - intros Hroot Hrefl fuel'. unfold searchKey. rewrite Hroot. simpl.
    rewrite decide_False by done.
    rewrite (rd_Ok rbnode.key _ _ _ Hnode Hn). mstep.
    by rewrite decide_True.
Qed.

Lemma deleteRbNode_only_node_witness :
  let st := state_of (inserted 8 [7] 1) in
  let n := rbnode.mk NODE_COLOR_BLACK NULL NULL NULL (key_addr 0) in
  deleteRbNode 8 st (node_addr 0) = Ok st ∧
  (rbtree.root (tree st) = node_addr 0 →
   rbtree.comparer (tree st) (rbnode.key n) (rbnode.key n) = 0 →
   ∀ fuel', searchKey (S fuel') st (rbnode.key n) = Ok (node_addr 0)).
Proof.
  intros st n. apply (deleteRbNode_only_node 8 st (node_addr 0) n).
  - vm_compute. discriminate.
  - vm_compute. reflexivity.
  - reflexivity.
  - reflexivity.
  - reflexivity.
Defined.

(** X13.  Deleting a root that has exactly one child dereferences its null
    parent link: [BstDelete], and with it [deleteRbNode], faults. *)
Theorem BstDelete_root_one_child_faults fuel st node n :
  node ≠ NULL → mem st !! node = Some n → rbnode.parent n = NULL →
  (rbnode.left n = NULL ∧ rbnode.right n ≠ NULL) ∨
    (rbnode.left n ≠ NULL ∧ rbnode.right n = NULL) →
  BstDelete fuel (mem st) (rbtree.root (tree st)) node = Fault ∧
  deleteRbNode fuel st node = Fault.
Proof.
  intros Hnode Hn Hp Hone.
  assert (BstDelete fuel (mem st) (rbtree.root (tree st)) node = Fault) as E.
  { unfold BstDelete.
    destruct Hone as [[Hl Hr]|[Hl Hr]];
      repeat first
        [ rewrite (rd_Ok rbnode.left _ _ _ Hnode Hn)
        | rewrite (rd_Ok rbnode.right _ _ _ Hnode Hn)
        | rewrite (rd_Ok rbnode.parent _ _ _ Hnode Hn)
        | rewrite Hp
        | rewrite rd_NULL
        | rewrite decide_True by done
        | rewrite decide_False by done
        | rewrite bool_decide_true by done
        | rewrite bool_decide_false by done
        | progress mstep
        | progress simpl ];
      done. }
  split; [done|]. unfold deleteRbNode. by rewrite E.
Qed.

Lemma BstDelete_root_one_child_faults_witness :
  let st := state_of (inserted 8 [7; 6] 2) in
  BstDelete 8 (mem st) (rbtree.root (tree st)) (node_addr 0) = Fault ∧
  deleteRbNode 8 st (node_addr 0) = Fault.
Proof.
  intros st.
  apply (BstDelete_root_one_child_faults 8 st (node_addr 0)
           (rbnode.mk NODE_COLOR_BLACK (node_addr 1) NULL NULL (key_addr 0))).
  - vm_compute. discriminate.
  - vm_compute. reflexivity.
  - reflexivity.
  - right. split; [vm_compute; discriminate|reflexivity].
Defined.

(** X14.  The typed macros round-trip: after [INIT_RBTREE_TYPE] and
    [INIT_RBNODE_TYPE] with the same node offset, [INSERT_RBNODE_TYPE] of
    an element followed by [RBTREE_SEARCH] hands back the address of that
    element for every key that compares equal to the element's key, and
    [NULL] for every other key. *)
Theorem RBTREE_SEARCH_after_INSERT_RBNODE_TYPE junk cmp (h : heap) elem
    off_rbnode off_key fuel :
  0 ≤ elem < 2 ^ 64 → elem + off_rbnode ≠ NULL → (0 < fuel)%nat →
  let st := mkState (INIT_RBTREE_TYPE junk cmp off_rbnode)
              (INIT_RBNODE_TYPE h elem off_rbnode off_key) in
  ∃ st',
    INSERT_RBNODE_TYPE fuel st elem off_rbnode = Ok (st', 0) ∧
    ∀ key fuel',
      RBTREE_SEARCH (S (S fuel')) st' key =
        Ok (if decide (cmp (elem + off_key) key = 0) then elem else NULL).
Proof.
  intros Helem Hnode Hf st. destruct fuel as [|fuel]; [lia|].
  unfold INSERT_RBNODE_TYPE, insertRbNode, INIT_RBNODE_TYPE, INIT_RBNODE.
  simpl. unfold fixup_cond.
  rewrite decide_True by done. mstep. unfold INIT_RBNODE_TYPE, INIT_RBNODE.
  rewrite (wr_Ok _ _ _ _ Hnode (lookup_insert_eq _ _ _)). mstep.
  eexists. split; [done|]. intros key fuel'.
  unfold RBTREE_SEARCH. simpl. rewrite decide_False by done.
  rewrite (rd_Ok rbnode.key _ _ _ Hnode (lookup_insert_eq _ _ _)). mstep.
  simpl. destruct (decide (cmp (elem + off_key) key = 0)) as [Hz|Hz].
  - mstep. destruct (decide (elem + off_rbnode = NULL)); [done|]. simpl.
    f_equal.
    replace (elem + off_rbnode - off_rbnode) with elem by lia.
    apply Z.mod_small. lia.
  - destruct (decide (0 < cmp (elem + off_key) key)).
    + rewrite (rd_Ok rbnode.left _ _ _ Hnode (lookup_insert_eq _ _ _)). mstep.
      simpl. mstep. by rewrite ?decide_True.
    + rewrite (rd_Ok rbnode.right _ _ _ Hnode (lookup_insert_eq _ _ _)). mstep.
      simpl. mstep. by rewrite ?decide_True.
Qed.

Lemma RBTREE_SEARCH_after_INSERT_RBNODE_TYPE_witness :
  let cmp := foocomparer BarDriver.ints in
  let st := mkState (INIT_RBTREE_TYPE uninit cmp 8)
              (INIT_RBNODE_TYPE ∅ 1024 8 4) in
  ∃ st',
    INSERT_RBNODE_TYPE 1 st 1024 8 = Ok (st', 0) ∧
    ∀ key fuel',
      RBTREE_SEARCH (S (S fuel')) st' key =
        Ok (if decide (cmp (1024 + 4) key = 0) then 1024 else NULL).
Proof.
  intros cmp.
  apply (RBTREE_SEARCH_after_INSERT_RBNODE_TYPE uninit cmp ∅ 1024 8 4 1).
  - lia.
  - vm_compute. discriminate.
  - lia.
Defined.









(** X19.  Insertion under a BLACK parent keeps the tree valid: when the
    node under which [BstInsert] links the new node is BLACK, [insertRbNode]
    into a valid tree returns 0 without rotating or recolouring, and the
    result is again a valid tree (all five invariants, no sharing, parent
    links inside the tree), namely the tree of the plain placement. *)
Theorem insertRbNode_black_parent st t node key fuel :
  valid_tree st t → antisymmetric (rbtree.comparer (tree st)) →
  node ≠ NULL → node ∉ addrs t →
  mem st !! node = Some (rbnode.mk NODE_COLOR_RED NULL NULL NULL key) →
  (height t < fuel)%nat → t ≠ Leaf →
  col (mem st) (link_parent (rbtree.comparer (tree st)) t key)
    = Some NODE_COLOR_BLACK →
  ∃ st',
    insertRbNode fuel st node = Ok (st', 0) ∧
    valid_tree st'
      (place (rbtree.comparer (tree st)) t node NODE_COLOR_RED key) ∧
    rbtree.comparer (tree st') = rbtree.comparer (tree st).
Proof.
  intros Hv Hanti Hnode Hfresh Hinit Hf Ht Hblack.
  destruct (insertRbNode_black_parent_valid st t node key fuel)
    as (st' & E & Hv'); [done..|].
  exists st'. split; [done|]. split; [done|].
  destruct (insertRbNode_valid_Ok st t node fuel) as (st'' & E' & _ & Hc & _);
    [done|done|done|by exists key|done|].
  congruence.
Qed.

Lemma insertRbNode_black_parent_witness :
  let st := state_of (inserted 8 [7; 6; 5; 4; 9] 4) in
  let t := Node (node_addr 1) NODE_COLOR_BLACK (key_addr 1)
             (Node (node_addr 2) NODE_COLOR_BLACK (key_addr 2)
                (Node (node_addr 3) NODE_COLOR_RED (key_addr 3) Leaf Leaf)
                Leaf)
             (Node (node_addr 0) NODE_COLOR_BLACK (key_addr 0) Leaf Leaf) in
  ∃ st',
    insertRbNode 8 st (node_addr 4) = Ok (st', 0) ∧
    valid_tree st'
      (place (rbtree.comparer (tree st)) t (node_addr 4) NODE_COLOR_RED
         (key_addr 4)) ∧
    rbtree.comparer (tree st') = rbtree.comparer (tree st).
Proof.
  intros st t.
  apply (insertRbNode_black_parent st t (node_addr 4) (key_addr 4) 8).
  - valid_by_evaluation 2%nat.
  - apply intcomparer_antisymmetric.
  - vm_compute. discriminate.
  - vm_compute. set_solver.
  - vm_compute. reflexivity.
  - vm_compute. lia.
  - discriminate.
  - vm_compute. reflexivity.
Defined.

(** X20.  [insertRbNode] into a valid tree writes only nodes of the tree
    and the new node: every other cell of memory is as it was, and of the
    tree struct only the root field can change. *)
Theorem insertRbNode_frame st t node key fuel :
  valid_tree st t → node ≠ NULL → node ∉ addrs t →
  mem st !! node = Some (rbnode.mk NODE_COLOR_RED NULL NULL NULL key) →
  (height t < fuel)%nat →
  ∃ st',
    insertRbNode fuel st node = Ok (st', 0) ∧
    (∀ a, a ≠ node → a ∉ addrs t → mem st' !! a = mem st !! a) ∧
    rbtree.size (tree st') = rbtree.size (tree st) ∧
    rbtree.comparer (tree st') = rbtree.comparer (tree st) ∧
    rbtree.rb_offset (tree st') = rbtree.rb_offset (tree st).
Proof.
  intros Hv Hnode Hfresh Hinit Hf.
  destruct (insertRbNode_rep st t node key fuel)
    as (st' & t' & E & _ & _ & _ & _ & _ & Hframe); [done..|].
  destruct (insertRbNode_valid_Ok st t node fuel)
    as (st'' & E' & Hs & Hc & Ho); [done|done|done|by exists key|done|].
  assert (st'' = st') as -> by congruence.
  exists st'. done.
Qed.

Lemma insertRbNode_frame_witness :
  let st := state_of (inserted 8 [7; 6; 5; 4] 3) in
  let t := Node (node_addr 1) NODE_COLOR_BLACK (key_addr 1)
             (Node (node_addr 2) NODE_COLOR_RED (key_addr 2) Leaf Leaf)
             (Node (node_addr 0) NODE_COLOR_RED (key_addr 0) Leaf Leaf) in
  ∃ st',
    insertRbNode 8 st (node_addr 3) = Ok (st', 0) ∧
    (∀ a, a ≠ node_addr 3 → a ∉ addrs t → mem st' !! a = mem st !! a) ∧
    rbtree.size (tree st') = rbtree.size (tree st) ∧
    rbtree.comparer (tree st') = rbtree.comparer (tree st) ∧
    rbtree.rb_offset (tree st') = rbtree.rb_offset (tree st).
Proof.
  intros st t.
  apply (insertRbNode_frame st t (node_addr 3) (key_addr 3) 8).
  - valid_by_evaluation 1%nat.
  - vm_compute. discriminate.
  - vm_compute. set_solver.
  - vm_compute. reflexivity.
  - vm_compute. lia.
Defined.

(** X21.  No operation writes a key: over every sequence of [insertRbNode]
    and [deleteRbNode] calls that returns, from any state of memory whatever,
    every node keeps the key pointer it had, and no node appears or
    disappears. *)
Theorem run_never_writes_keys fuel cs :
  ∀ st st', run fuel st cs = Ok st' →
    ∀ a, rbnode.key <$> mem st' !! a = rbnode.key <$> mem st !! a.
Proof.
  induction cs as [|[node|node] cs IH]; intros st st' H.
  - by injection H as <-.
  - simpl in H.
    destruct (insertRbNode fuel st node) as [[st1 r]| |] eqn:E; [|done..].
    cbn [mbind mret result_bind result_ret] in H.
    apply (insertRbNode_preserves rbnode.key) in E; [|by intros ? []..].
    intros a. by rewrite (IH _ _ H a).
  - simpl in H.
    destruct (deleteRbNode fuel st node) as [st1| |] eqn:E; [|done..].
    cbn [mbind mret result_bind result_ret] in H.
    unfold deleteRbNode in E.
    destruct (BstDelete _ _ _ _) as [[h1 r1]| |] eqn:E1; [|done..].
    injection E as <-.
    apply (BstDelete_preserves rbnode.key) in E1; [|by intros ? []..].
    intros a. by rewrite (IH _ _ H a).
Qed.

Lemma run_never_writes_keys_witness :
  let st := init [7; 6; 5; 4] in
  let cs := [Insert (node_addr 0); Insert (node_addr 1); Insert (node_addr 2);
             Insert (node_addr 3); Delete (node_addr 2)] in
  ∃ st', run 8 st cs = Ok st' ∧
         ∀ a, rbnode.key <$> mem st' !! a = rbnode.key <$> mem st !! a.
Proof.
  intros st cs.
  assert (∃ st', run 8 st cs = Ok st') as [st' H].
  { eexists. vm_compute. reflexivity. }
  exists st'. split; [done|].
  exact (run_never_writes_keys 8 cs st st' H).
Defined.

(** X22.  [deleteRbNode] never recolours: whenever it returns, from any
    state of memory whatever, every node has the colour it had before. *)
Theorem deleteRbNode_never_recolours fuel st node st' :
  deleteRbNode fuel st node = Ok st' →
  ∀ a, col (mem st') a = col (mem st) a.
Proof.
  unfold deleteRbNode. intros H.
  destruct (BstDelete _ _ _ _) as [[h1 r1]| |] eqn:E1; [|done..].
  injection H as <-.
  apply (BstDelete_preserves rbnode.color) in E1; [|by intros ? []..].
  exact E1.
Qed.

Lemma deleteRbNode_never_recolours_witness :
  let st := state_of (inserted 8 [7; 6; 5; 4] 4) in
  ∃ st', deleteRbNode 8 st (node_addr 2) = Ok st' ∧
         ∀ a, col (mem st') a = col (mem st) a.
Proof.
  intros st.
  assert (∃ st', deleteRbNode 8 st (node_addr 2) = Ok st') as [st' H].
  { eexists. vm_compute. reflexivity. }
  exists st'. split; [done|].
  exact (deleteRbNode_never_recolours 8 st (node_addr 2) st' H).
Defined.

(** X23.  Invariant 1 survives every sequence of calls: if every node in
    memory is RED or BLACK, then after any sequence of [insertRbNode] and
    [deleteRbNode] calls that returns, every node in memory is still RED or
    BLACK; no node is ever given one of the three other values of
    [NodeColor_t]. *)
Theorem run_keeps_two_colours fuel cs :
  ∀ st st', two_coloured (mem st) → run fuel st cs = Ok st' →
    two_coloured (mem st').
Proof.
  induction cs as [|[node|node] cs IH]; intros st st' Hh H.
  - by injection H as <-.
  - simpl in H.
    destruct (insertRbNode fuel st node) as [[st1 r]| |] eqn:E; [|done..].
    cbn [mbind mret result_bind result_ret] in H.
    apply insertRbNode_colours in E as [_ E].
    apply (IH _ _ (E Hh) H).
  - simpl in H.
    destruct (deleteRbNode fuel st node) as [st1| |] eqn:E; [|done..].
    cbn [mbind mret result_bind result_ret] in H.
    unfold deleteRbNode in E.
    destruct (BstDelete _ _ _ _) as [[h1 r1]| |] eqn:E1; [|done..].
    injection E as <-.
    apply (BstDelete_preserves rbnode.color) in E1; [|by intros ? []..].
    apply (IH (mkState _ _) _ (preserves_two_coloured _ _ E1 Hh) H).
Qed.

Lemma run_keeps_two_colours_witness :
  let st := init [7; 6; 5; 4] in
  let cs := [Insert (node_addr 0); Insert (node_addr 1); Insert (node_addr 2);
             Insert (node_addr 3); Delete (node_addr 2)] in
  two_coloured (mem st) ∧
  ∃ st', run 8 st cs = Ok st' ∧ two_coloured (mem st').
Proof.
  intros st cs.
  assert (two_coloured (mem st)) as Hh.
  { apply two_coloured_check. vm_compute. reflexivity. }
  assert (∃ st', run 8 st cs = Ok st') as [st' H].
  { eexists. vm_compute. reflexivity. }
  split; [done|]. exists st'. split; [done|].
  exact (run_keeps_two_colours 8 cs st st' Hh H).
Defined.

(** X24.  Invariant 2 holds after every insertion: whenever [insertRbNode]
    returns, from any state of memory whatever, the node that [tree->root]
    then points to is BLACK. *)
Theorem insertRbNode_root_black fuel st node st' r :
  insertRbNode fuel st node = Ok (st', r) →
  col (mem st') (rbtree.root (tree st')) = Some NODE_COLOR_BLACK.
Proof. intros H. by apply insertRbNode_colours in H as [H _]. Qed.

Lemma insertRbNode_root_black_witness :
  let st := state_of (inserted 8 [7; 6; 5; 4] 3) in
  ∃ st' r, insertRbNode 8 st (node_addr 3) = Ok (st', r) ∧
           col (mem st') (rbtree.root (tree st')) = Some NODE_COLOR_BLACK.
Proof.
  intros st.
  assert (∃ st' r, insertRbNode 8 st (node_addr 3) = Ok (st', r))
    as (st' & r & H).
  { do 2 eexists. vm_compute. reflexivity. }
  exists st', r. split; [done|].
  exact (insertRbNode_root_black 8 st (node_addr 3) st' r H).
Defined.
